(** * abr1: job orchestration and caching pipeline

    A shallow embedding of [motion_pipeline.py], [transcribe.py],
    [beat_analysis.py] and the queue and worker of [app.py], and proofs about
    the cache, the progress reports, the job rows and the order of jobs.

    The Python code is effectful: it reads and writes files, starts external
    programs (Whisper, Librosa, Manim, ffmpeg), reads the clock and a random
    source, and updates job rows through an ORM session.  All of this is
    threaded through one explicit [World]; raised exceptions are values of the
    monad [M].  The collaborators are oracles collected in [Env]: the n-th
    consultation of the outside world may answer differently from the
    (n+1)-th, so nothing is assumed about engines being deterministic, the
    clock being monotone or random draws being distinct.

    What the embedding leaves out: console output; failures of the database
    and of the file system other than a missing file; a write being
    interrupted half way; what the external programs open by themselves.  A
    turn of the worker is one step of the application: producers run between
    jobs, not in the middle of one. *)

From Stdlib Require Import ZArith QArith Qminmax Lqa List Lia Ascii.
From stdpp Require Import base gmap strings list sorting pretty.

Open Scope Z_scope.

(** ** Bytes, exceptions *)

Definition bytes := list Byte.byte.

(** The exceptions the modelled code can see.  [EngineError] stands for any
    [Exception] raised inside a third-party library (Whisper, Librosa); its
    argument is what [str(e)] returns. *)
Inductive exn : Type :=
  | FileNotFoundError (msg : string)
  | FileExistsError (msg : string)
  | SameFileError (src dst : string)
  | CalledProcessError (cmd : list string) (returncode : Z)
  | EngineError (msg : string)
  | IntegrityError (msg : string)
  | ValueError (msg : string).

Definition repr_str (s : string) : string := "'" +:+ s +:+ "'".

Fixpoint join_str (sep : string) (l : list string) : string :=
  match l with
  | [] => ""
  | [x] => x
  | x :: rest => x +:+ sep +:+ join_str sep rest
  end.

Definition repr_list (l : list string) : string :=
  "[" +:+ join_str ", " (map repr_str l) +:+ "]".

(** [str(e)] *)
Definition str (e : exn) : string :=
  match e with
  | FileNotFoundError msg => msg
  | FileExistsError msg => msg
  | SameFileError src dst =>
      repr_str src +:+ " and " +:+ repr_str dst +:+ " are the same file"
  | CalledProcessError cmd rc =>
      "Command '" +:+ repr_list cmd +:+ "' returned non-zero exit status "
        +:+ pretty rc +:+ "."
  | EngineError msg => msg
  | IntegrityError msg => msg
  | ValueError msg => msg
  end.

(** ** Paths: [os.path.join], [Path.stem], [Path.suffix] (POSIX flavour) *)

Definition startswith_slash (s : string) : bool :=
  match s with
  | String c _ => bool_decide (c = "/"%char)
  | EmptyString => false
  end.

Fixpoint endswith_slash (s : string) : bool :=
  match s with
  | EmptyString => false
  | String c EmptyString => bool_decide (c = "/"%char)
  | String _ rest => endswith_slash rest
  end.

(** [os.path.join(a, b)] *)
Definition path_join (a b : string) : string :=
  if startswith_slash b then b
  else if bool_decide (a = "") || endswith_slash a then a +:+ b
  else a +:+ "/" +:+ b.

(** the final path component *)
Fixpoint basename_go (acc s : string) : string :=
  match s with
  | EmptyString => acc
  | String c rest =>
      if bool_decide (c = "/"%char) then basename_go "" rest
      else basename_go (acc +:+ String c "") rest
  end.

Definition basename (p : string) : string := basename_go "" p.

(** [name.rfind('.')]: the part of [name] from its last dot on, if any *)
Fixpoint from_last_dot (s : string) : option string :=
  match s with
  | EmptyString => None
  | String c rest =>
      match from_last_dot rest with
      | Some t => Some t
      | None => if bool_decide (c = "."%char) then Some s else None
      end
  end.

(** [Path(p).suffix]: [name[i:]] when [0 < i < len(name) - 1] for the last
    dot's index [i], the empty string otherwise. *)
Definition path_suffix (p : string) : string :=
  let name := basename p in
  match from_last_dot name with
  | Some t =>
      if bool_decide (t = name) || bool_decide (t = ".") then "" else t
  | None => ""
  end.

(** ** Records of the job store ([models.py]) *)

Record DateTime : Type := mkDateTime {
  year : nat; month : nat; day : nat;
  hour : nat; minute : nat; second : nat
}.

(** [s.zfill(width)] for a string without sign: zeros on the left up to
    [width] characters *)
Definition zfill (width : nat) (s : string) : string :=
  String.string_of_list_ascii (replicate (width - String.length s) "0"%char) +:+ s.

(** [strftime("%Y%m%d_%H%M%S")] *)
Definition strftime (d : DateTime) : string :=
  zfill 4 (pretty (year d)) +:+ zfill 2 (pretty (month d)) +:+
  zfill 2 (pretty (day d)) +:+ "_" +:+ zfill 2 (pretty (hour d)) +:+
  zfill 2 (pretty (minute d)) +:+ zfill 2 (pretty (second d)).

Record Job : Type := mkJob {
  job_id : nat;
  job_uuid : string;
  job_project_id : nat;
  job_audio_path : string;
  job_video_path : string;
  job_output_path : option string;
  job_status : string;            (* queued, running, done, error *)
  job_progress : Z;
  job_message : string;
  job_error : option string;
  job_created_at : DateTime;
  job_updated_at : DateTime
}.

Record Media : Type := mkMedia {
  media_project_id : nat;
  media_job_id : option nat;
  media_file_path : string;
  media_type : string;
  media_created_at : DateTime
}.

(** ** The outside world *)

Inductive Engine : Type := Whisper | Librosa | Manim | Ffmpeg.

Global Instance Engine_eq_dec : EqDecision Engine.
Proof. solve_decision. Defined.

(** One invocation of an external engine: which one, its arguments, the
    tick at which the outside world was consulted for it, and the file system
    it was started on. *)
Record Call : Type := mkCall {
  call_engine : Engine;
  call_args : list string;
  call_tick : nat;
  call_files : gmap string bytes
}.

(** What the collaborators answer.  The first argument of every oracle is the
    number of earlier consultations ([tick]). *)
Record Env : Type := mkEnv {
  (** [hashlib.md5(data).hexdigest()] *)
  md5_hexdigest : bytes → string;
  (** [datetime.datetime.now()] *)
  env_now : nat → DateTime;
  (** the index drawn for the i-th element of [random.choices] *)
  env_random : nat → nat → nat;
  (** [str(uuid.uuid4())] *)
  env_uuid4 : nat → string;
  (** Whisper: [load_model] and [transcribe] on an audio path, then the JSON
      text of the extracted segments, or the exception raised *)
  env_whisper : nat → string → gmap string bytes → exn + bytes;
  (** Librosa: [load], [beat_track], [frames_to_time], then the JSON text of
      the beat times, or the exception raised *)
  env_librosa : nat → string → gmap string bytes → exn + bytes;
  (** the [manim] process: its exit status and the files it has written, or
      the exception raised when it cannot be started *)
  env_manim : nat → list string → gmap string bytes → exn + Z * list (string * bytes);
  (** [glob.glob(pattern)]: the matching paths, in the order listed, each
      with its [os.path.getmtime] *)
  env_glob : nat → string → list (string * nat);
  (** the [ffmpeg] process: its exit status and the content of its output,
      or the exception raised when it cannot be started *)
  env_ffmpeg : nat → list string → gmap string bytes → exn + Z * bytes
}.

Record World : Type := mkWorld {
  files : gmap string bytes;       (* regular files, by path *)
  dirs : gset string;              (* directories made by os.makedirs *)
  tick : nat;                      (* consultations of [Env] so far *)
  calls : list Call;               (* engine invocations, oldest first *)
  jobs : gmap nat Job;             (* table jobs, by primary key *)
  medias : list Media;             (* table media *)
  JOB_QUEUE : list nat;            (* queue.Queue: head is dequeued next *)
  unfinished_tasks : Z;            (* queue.Queue.unfinished_tasks *)
  commits : list Job               (* job rows as persisted, oldest first *)
}.

Definition set_files (f : gmap string bytes → gmap string bytes) (w : World) : World :=
  mkWorld (f (files w)) (dirs w) (tick w) (calls w) (jobs w) (medias w)
          (JOB_QUEUE w) (unfinished_tasks w) (commits w).
Definition set_dirs (f : gset string → gset string) (w : World) : World :=
  mkWorld (files w) (f (dirs w)) (tick w) (calls w) (jobs w) (medias w)
          (JOB_QUEUE w) (unfinished_tasks w) (commits w).
Definition set_tick (f : nat → nat) (w : World) : World :=
  mkWorld (files w) (dirs w) (f (tick w)) (calls w) (jobs w) (medias w)
          (JOB_QUEUE w) (unfinished_tasks w) (commits w).
Definition set_calls (f : list Call → list Call) (w : World) : World :=
  mkWorld (files w) (dirs w) (tick w) (f (calls w)) (jobs w) (medias w)
          (JOB_QUEUE w) (unfinished_tasks w) (commits w).
Definition set_jobs (f : gmap nat Job → gmap nat Job) (w : World) : World :=
  mkWorld (files w) (dirs w) (tick w) (calls w) (f (jobs w)) (medias w)
          (JOB_QUEUE w) (unfinished_tasks w) (commits w).
Definition set_medias (f : list Media → list Media) (w : World) : World :=
  mkWorld (files w) (dirs w) (tick w) (calls w) (jobs w) (f (medias w))
          (JOB_QUEUE w) (unfinished_tasks w) (commits w).
Definition set_queue (f : list nat → list nat) (w : World) : World :=
  mkWorld (files w) (dirs w) (tick w) (calls w) (jobs w) (medias w)
          (f (JOB_QUEUE w)) (unfinished_tasks w) (commits w).
Definition set_unfinished (f : Z → Z) (w : World) : World :=
  mkWorld (files w) (dirs w) (tick w) (calls w) (jobs w) (medias w)
          (JOB_QUEUE w) (f (unfinished_tasks w)) (commits w).
Definition set_commits (f : list Job → list Job) (w : World) : World :=
  mkWorld (files w) (dirs w) (tick w) (calls w) (jobs w) (medias w)
          (JOB_QUEUE w) (unfinished_tasks w) (f (commits w)).

(** ** The monad of effectful code: state and exceptions *)

Inductive Res (A : Type) : Type :=
  | Ok (a : A)
  | Raise (e : exn).
Arguments Ok {A} a.
Arguments Raise {A} e.

Definition M (A : Type) : Type := World → Res A * World.

Global Instance M_ret : MRet M := λ A a w, (Ok a, w).
Global Instance M_bind : MBind M := λ A B f m w,
  match m w with
  | (Ok a, w') => f a w'
  | (Raise e, w') => (Raise e, w')
  end.

Definition raise {A} (e : exn) : M A := λ w, (Raise e, w).

(** [try: body except Exception as e: handler(e)] *)
Definition try_except {A} (body : M A) (handler : exn → M A) : M A := λ w,
  match body w with
  | (Ok a, w') => (Ok a, w')
  | (Raise e, w') => handler e w'
  end.

(** [try: body finally: cleanup] *)
Definition try_finally {A} (body : M A) (cleanup : M unit) : M A := λ w,
  match body w with
  | (r, w') =>
      match cleanup w' with
      | (Ok _, w'') => (r, w'')
      | (Raise e, w'') => (Raise e, w'')
      end
  end.

Definition gets {A} (f : World → A) : M A := λ w, (Ok (f w), w).
Definition modify (f : World → World) : M unit := λ w, (Ok tt, f w).

(** consult the outside world: hand out the current tick and advance it *)
Definition next_tick : M nat := λ w, (Ok (tick w), set_tick S w).

(** ** File-system and process primitives *)

Definition errno2 (path : string) : string :=
  "[Errno 2] No such file or directory: " +:+ repr_str path.

(** [os.path.exists(path)] *)
Definition os_path_exists (path : string) : M bool :=
  gets (λ w, bool_decide (is_Some (files w !! path)) || bool_decide (path ∈ dirs w)).

(** [os.makedirs(path, exist_ok=True)]: fails when [path] is a regular file *)
Definition os_makedirs (path : string) : M unit := λ w,
  match files w !! path with
  | Some _ => (Raise (FileExistsError ("[Errno 17] File exists: " +:+ repr_str path)), w)
  | None => (Ok tt, set_dirs (λ d, {[path]} ∪ d) w)
  end.

(** [open(path, "rb").read()] *)
Definition read_file (path : string) : M bytes := λ w,
  match files w !! path with
  | Some data => (Ok data, w)
  | None => (Raise (FileNotFoundError (errno2 path)), w)
  end.

(** [with open(path, "w") as f: f.write(data)] *)
Definition write_file (path : string) (data : bytes) : M unit :=
  modify (set_files (λ f, <[path := data]> f)).

(** [shutil.copy(src, dst)] for a regular file [dst] *)
Definition shutil_copy (src dst : string) : M string :=
  data ← read_file src;
  if bool_decide (src = dst) then raise (SameFileError src dst)
  else _ ← write_file dst data; mret dst.

(** start an external engine: the invocation is recorded, and the tick and
    the file system handed to its oracle are returned *)
Definition start_engine (e : Engine) (args : list string)
    : M (nat * gmap string bytes) := λ w,
  (Ok (tick w, files w),
   set_tick S (set_calls (λ l, l ++ [mkCall e args (tick w) (files w)]) w)).

Section Pipeline.

(** [os.path.dirname(os.path.abspath(__file__))]: where the application is
    installed *)
Variable BASE_DIR : string.
Variable env : Env.

(** *** [motion_pipeline.py] *)

Definition SCENE_NAME : string := "FarsiKinetic".
Definition MOTION_FILE : string := "motion.py".
Definition MOTION_STEM : string := "motion".     (* Path(MOTION_FILE).stem *)

Definition CACHE_DIR : string := path_join BASE_DIR "cache".
Definition MEDIA_DIR : string := path_join BASE_DIR "media".

(** [f.read(chunk_size)] on what is left of an open file: a negative size
    reads to the end of the file. *)
Definition read_chunk (chunk_size : Z) (f : bytes) : bytes * bytes :=
  if bool_decide (chunk_size < 0) then (f, [])
  else (take (Z.to_nat chunk_size) f, drop (Z.to_nat chunk_size) f).

(** The chunked read loop of [_hash_file].  [md5] is the data fed to the hash
    object so far, [f] what is left of the open file.  The loop ends at the
    first empty read; [fuel] bounds the number of reads. *)
Fixpoint hash_loop (fuel : nat) (chunk_size : Z) (f md5 : bytes) : bytes :=
  match fuel with
  | O => md5
  | S k =>
      match read_chunk chunk_size f with
      | ([], _) => md5
      | (data, rest) => hash_loop k chunk_size rest (md5 ++ data)
      end
  end.

Definition _hash_file (path : string) (chunk_size : Z) : M string :=
  f ← read_file path;
  mret (md5_hexdigest env (hash_loop (S (length f)) chunk_size f [])).

Definition now : M DateTime :=
  t ← next_tick; mret (env_now env t).

(** [random.choices(population, k=k)] *)
Definition random_choices (population : list ascii) (k : nat) : M (list ascii) :=
  t ← next_tick;
  mret (map (λ i, nth (env_random env t i mod length population) population "a"%char)
            (seq 0 k)).

Definition _unique_id : M string :=
  d ← now;
  let ts := strftime d in
  rnd ← random_choices
           (String.list_ascii_of_string "abcdefghijklmnopqrstuvwxyz0123456789") 4;
  mret (ts +:+ "_" +:+ String.string_of_list_ascii rnd).

(** [subprocess.run(cmd, check=True)] for [manim]; returns the files the
    process has written *)
Definition run_manim_process (cmd : list string) : M unit :=
  '(t, fs) ← start_engine Manim cmd;
  match env_manim env t cmd fs with
  | inl e => raise e
  | inr (rc, written) =>
      _ ← modify (set_files (λ f, foldl (λ acc '(p, data), <[p := data]> acc) f written));
      if bool_decide (rc = 0) then mret tt else raise (CalledProcessError cmd rc)
  end.

(** [glob.glob(pattern)] together with [os.path.getmtime] of each match *)
Definition glob_glob (pattern : string) : M (list (string * nat)) :=
  t ← next_tick; mret (env_glob env t pattern).

(** the last element of [matches] after [matches.sort(key=getmtime)]: the
    sort is stable, so of several newest files the one listed last wins *)
Fixpoint newest (best : string * nat) (matches : list (string * nat)) : string * nat :=
  match matches with
  | [] => best
  | m :: rest => if bool_decide (snd best ≤ snd m)%nat then newest m rest else newest best rest
  end.

Definition _run_manim (quality : string) : M string :=
  let quality :=
    if bool_decide (quality ∈ ["l"; "m"; "h"; "p"; "k"]) then quality else "h" in
  let cmd := ["manim"; "-q" +:+ quality; "-t"; MOTION_FILE; SCENE_NAME] in
  _ ← run_manim_process cmd;
  let pattern :=
    path_join (path_join (path_join (path_join MEDIA_DIR "videos") MOTION_STEM) "*")
              (SCENE_NAME +:+ ".*") in
  matches ← glob_glob pattern;
  match matches with
  | [] => raise (FileNotFoundError ("Could not find Manim output with pattern: " +:+ pattern))
  | m :: rest => mret (fst (newest m rest))
  end.

Definition _overlay_video (base_video overlay_video audio output : string) : M unit :=
  let filter_complex :=
    "[1:v]scale=iw:-1[fg];[0:v][fg]overlay=(W-w)/2:(H-h)/2:format=auto[vout]" in
  let cmd := ["ffmpeg"; "-y"; "-stream_loop"; "-1"; "-i"; base_video;
              "-i"; overlay_video; "-i"; audio;
              "-filter_complex"; filter_complex;
              "-map"; "[vout]"; "-map"; "2:a";
              "-c:v"; "libx264"; "-c:a"; "aac"; "-shortest"; output] in
  '(t, fs) ← start_engine Ffmpeg cmd;
  match env_ffmpeg env t cmd fs with
  | inl e => raise e
  | inr (rc, data) =>
      if bool_decide (rc = 0) then write_file output data
      else raise (CalledProcessError cmd rc)
  end.

(** *** [transcribe.py] *)

Definition transcribe_audio (audio_path out_path : string) : M string :=
  '(t, fs) ← start_engine Whisper [audio_path];
  match env_whisper env t audio_path fs with
  | inl e => raise e
  | inr segments => _ ← write_file out_path segments; mret out_path
  end.

(** *** [beat_analysis.py] *)

Definition analyze_beats (audio_path out_path : string) : M string :=
  '(t, fs) ← start_engine Librosa [audio_path];
  match env_librosa env t audio_path fs with
  | inl e => raise e
  | inr beats => _ ← write_file out_path beats; mret out_path
  end.

(** *** [process_job] *)

Definition seg_cache_path (audio_hash : string) : string :=
  path_join CACHE_DIR ("segments_" +:+ audio_hash +:+ ".json").
Definition beats_cache_path (audio_hash : string) : string :=
  path_join CACHE_DIR ("beats_" +:+ audio_hash +:+ ".json").
Definition segments_json : string := path_join BASE_DIR "segments.json".
Definition beats_json : string := path_join BASE_DIR "beats.json".

Definition _update (progress_callback : option (Z → string → M unit))
    (p : Z) (msg : string) : M unit :=
  match progress_callback with
  | Some cb => cb p msg
  | None => mret tt
  end.

(** the [# segments.json] block of [process_job] *)
Definition segments_stage (_update : Z → string → M unit)
    (audio_path seg_cache : string) : M string :=
  hit ← os_path_exists seg_cache;
  if hit : bool then
    _ ← _update 15 "استفاده از کش متن...";
    shutil_copy seg_cache segments_json
  else
    _ ← _update 15 "تبدیل صوت به متن (Whisper)...";
    _ ← transcribe_audio audio_path seg_cache;
    shutil_copy seg_cache segments_json.

(** the [# beats.json] block of [process_job] *)
Definition beats_stage (_update : Z → string → M unit)
    (audio_path beats_cache : string) : M string :=
  hit ← os_path_exists beats_cache;
  if hit : bool then
    _ ← _update 35 "استفاده از کش ضرب‌ها...";
    shutil_copy beats_cache beats_json
  else
    _ ← _update 35 "تحلیل ضرب آهنگ (Librosa)...";
    _ ← analyze_beats audio_path beats_cache;
    shutil_copy beats_cache beats_json.

Definition process_job (audio_path video_path output_dir : string)
    (progress_callback : option (Z → string → M unit)) (quality : string) : M string :=
  _ ← os_makedirs output_dir;
  let _update := _update progress_callback in
  _ ← _update 5 "محاسبه‌ی هش فایل صوتی...";
  audio_hash ← _hash_file audio_path 8192;
  let seg_cache := seg_cache_path audio_hash in
  let beats_cache := beats_cache_path audio_hash in
  _ ← segments_stage _update audio_path seg_cache;
  _ ← beats_stage _update audio_path beats_cache;
  _ ← _update 55 "رندر موشن با Manim...";
  manim_out ← _run_manim quality;
  uid ← _unique_id;
  let overlay_src := path_join output_dir ("manim_" +:+ uid +:+ path_suffix manim_out) in
  _ ← shutil_copy manim_out overlay_src;
  let final_output := path_join output_dir ("final_" +:+ uid +:+ ".mp4") in
  _ ← _update 80 "ترکیب موشن با ویدیو اصلی (ffmpeg)...";
  _ ← _overlay_video video_path overlay_src audio_path final_output;
  _ ← _update 100 "تمام شد ✅";
  mret final_output.

End Pipeline.

(** ** The job store and the queue ([app.py]) *)

(** [db.get(Job, job_id)] *)
Definition db_get (job_id : nat) : M (option Job) := gets (λ w, jobs w !! job_id).

(** attribute assignments on the row object of [job_id] *)
Definition db_set (job_id : nat) (f : Job → Job) : M unit :=
  modify (set_jobs (alter f job_id)).

(** [db.commit()] after assignments to the row of [job_id]: the row as it now
    is becomes visible to readers *)
Definition db_commit (job_id : nat) : M unit :=
  modify (λ w, match jobs w !! job_id with
               | Some j => set_commits (λ l, l ++ [j]) w
               | None => w
               end).

(** the primary key SQLite gives to a new row: one more than the largest *)
Definition fresh_job_id (js : gmap nat Job) : nat :=
  S (max_list (elements (dom js))).

(** [JOB_QUEUE.put(job_id)] *)
Definition queue_put (job_id : nat) : M unit :=
  modify (λ w, set_unfinished (λ n, n + 1) (set_queue (λ q, q ++ [job_id]) w)).

(** [JOB_QUEUE.task_done()] *)
Definition task_done : M unit := λ w,
  let unfinished := unfinished_tasks w - 1 in
  if bool_decide (unfinished < 0)
  then (Raise (ValueError "task_done() called too many times"), w)
  else (Ok tt, set_unfinished (λ _, unfinished) w).

Definition set_status (s : string) (j : Job) : Job :=
  mkJob (job_id j) (job_uuid j) (job_project_id j) (job_audio_path j) (job_video_path j)
        (job_output_path j) s (job_progress j) (job_message j) (job_error j)
        (job_created_at j) (job_updated_at j).
Definition set_progress (p : Z) (j : Job) : Job :=
  mkJob (job_id j) (job_uuid j) (job_project_id j) (job_audio_path j) (job_video_path j)
        (job_output_path j) (job_status j) p (job_message j) (job_error j)
        (job_created_at j) (job_updated_at j).
Definition set_message (m : string) (j : Job) : Job :=
  mkJob (job_id j) (job_uuid j) (job_project_id j) (job_audio_path j) (job_video_path j)
        (job_output_path j) (job_status j) (job_progress j) m (job_error j)
        (job_created_at j) (job_updated_at j).
Definition set_output_path (o : string) (j : Job) : Job :=
  mkJob (job_id j) (job_uuid j) (job_project_id j) (job_audio_path j) (job_video_path j)
        (Some o) (job_status j) (job_progress j) (job_message j) (job_error j)
        (job_created_at j) (job_updated_at j).
Definition set_error (e : string) (j : Job) : Job :=
  mkJob (job_id j) (job_uuid j) (job_project_id j) (job_audio_path j) (job_video_path j)
        (job_output_path j) (job_status j) (job_progress j) (job_message j) (Some e)
        (job_created_at j) (job_updated_at j).
Definition set_updated_at (d : DateTime) (j : Job) : Job :=
  mkJob (job_id j) (job_uuid j) (job_project_id j) (job_audio_path j) (job_video_path j)
        (job_output_path j) (job_status j) (job_progress j) (job_message j) (job_error j)
        (job_created_at j) d.

Section App.

Variable BASE_DIR : string.
Variable env : Env.

Definition UPLOAD_DIR : string := path_join BASE_DIR "uploads".
Definition OUTPUT_DIR : string := path_join BASE_DIR "outputs".

(** [db.add(job); db.commit(); db.refresh(job)]: the insert fails on a
    duplicate [uuid] (the column is declared unique) *)
Definition db_add_job (mk : nat → Job) : M Job := λ w,
  let j := mk (fresh_job_id (jobs w)) in
  if bool_decide (∃ k j', jobs w !! k = Some j' ∧ job_uuid j' = job_uuid j)
  then (Raise (IntegrityError "UNIQUE constraint failed: jobs.uuid"), w)
  else (Ok j, set_commits (λ l, l ++ [j]) (set_jobs (<[job_id j := j]>) w)).

Definition enqueue_job (project_id : nat) (audio_path video_path : string) : M nat :=
  t ← next_tick;
  let uuid := String.substring 0 8 (env_uuid4 env t) in
  created_at ← now env;
  updated_at ← now env;
  job ← db_add_job (λ id,
           mkJob id uuid project_id audio_path video_path None
                 "queued" 0 "در صف انتظار..." None created_at updated_at);
  _ ← queue_put (job_id job);
  mret (job_id job).

(** the closure [progress_callback] of [worker_loop], for the job [job_id] *)
Definition progress_callback (job_id : nat) (percent : Z) (msg : string) : M unit :=
  j ← db_get job_id;
  match j with
  | None => mret tt
  | Some _ =>
      _ ← db_set job_id (set_progress (Z.max 0 (Z.min 100 percent)));
      _ ← db_set job_id (set_message msg);
      d ← now env;
      _ ← db_set job_id (set_updated_at d);
      db_commit job_id
  end.

(** [worker_loop], lines [job.status = "running"] to the first [db.commit()] *)
Definition mark_running (jid : nat) : M unit :=
  _ ← db_set jid (set_status "running");
  _ ← db_set jid (set_progress 5);
  _ ← db_set jid (set_message "شروع پردازش...");
  d ← now env;
  _ ← db_set jid (set_updated_at d);
  db_commit jid.

(** [worker_loop], the rest of the [try] block once [process_job] has
    returned [output_path] *)
Definition on_success (jid : nat) (job : Job) (output_path : string) : M unit :=
  d ← now env;
  _ ← modify (set_medias (λ l, l ++
         [mkMedia (job_project_id job) (Some (job_id job)) output_path "video" d]));
  _ ← db_set jid (set_status "done");
  _ ← db_set jid (set_progress 100);
  _ ← db_set jid (set_message "تمام شد ✅");
  _ ← db_set jid (set_output_path output_path);
  d ← now env;
  _ ← db_set jid (set_updated_at d);
  db_commit jid.

(** [worker_loop], the [except Exception as e] block *)
Definition on_error (jid : nat) (e : exn) : M unit :=
  _ ← db_set jid (set_status "error");
  _ ← db_set jid (set_progress 0);
  _ ← db_set jid (set_message "خطا در اجرای جاب");
  _ ← db_set jid (set_error (str e));
  d ← now env;
  _ ← db_set jid (set_updated_at d);
  db_commit jid.

(** the pipeline call of [worker_loop] for the row [job] *)
Definition run_pipeline (jid : nat) (job : Job) : M string :=
  process_job BASE_DIR env (job_audio_path job) (job_video_path job) OUTPUT_DIR
              (Some (progress_callback jid)) "h".

(** the body of [while True] in [worker_loop], after [JOB_QUEUE.get()] has
    returned [jid] (the variable [job_id] of the source) *)
Definition worker_iteration (jid : nat) : M unit :=
  try_finally
    (job ← db_get jid;
     match job with
     | None => task_done                    (* ... db.close(); continue *)
     | Some job =>
         _ ← mark_running jid;
         try_except
           (output_path ← run_pipeline jid job; on_success jid job output_path)
           (on_error jid)
     end)
    task_done.

(** [worker_loop]: [JOB_QUEUE.get()] blocks on an empty queue, which ends the
    run here; [fuel] bounds the number of iterations observed.  An exception
    that leaves an iteration ends the loop (and the worker thread). *)
Fixpoint worker_loop (fuel : nat) : M unit :=
  match fuel with
  | O => mret tt
  | S k => λ w,
      match JOB_QUEUE w with
      | [] => (Ok tt, w)
      | job_id :: rest =>
          (_ ← worker_iteration job_id; worker_loop k) (set_queue (λ _, rest) w)
      end
  end.

(** *** The running application

    Producers (request handlers) and the single worker thread take turns.
    One turn of the worker is one whole iteration of its loop: the pipeline
    calls inside it are blocking, and this model does not let a producer run
    in the middle of a job. *)
Inductive action : Type :=
  | CreateJob (project_id : nat) (audio_path video_path : string)
  | SaveUpload (path : string) (data : bytes)
  | Work.

Record System : Type := mkSystem {
  world : World;
  worker_alive : bool      (* the worker thread has not died of an exception *)
}.

Definition step (s : System) (a : action) : System :=
  match a with
  | CreateJob project_id audio_path video_path =>
      mkSystem (snd (enqueue_job project_id audio_path video_path (world s)))
               (worker_alive s)
  | SaveUpload path data =>
      mkSystem (snd (write_file path data (world s))) (worker_alive s)
  | Work =>
      if worker_alive s then
        match worker_loop 1 (world s) with
        | (Ok _, w') => mkSystem w' true
        | (Raise _, w') => mkSystem w' false
        end
      else s
  end.

Definition run (s : System) (acts : list action) : System := foldl step s acts.

End App.

(** the columns of a row agree with its status *)
Definition row_consistent (j : Job) : Prop :=
  (job_status j = "done" →
     job_progress j = 100 ∧ is_Some (job_output_path j) ∧ job_error j = None) ∧
  (job_status j = "error" →
     job_progress j = 0 ∧ is_Some (job_error j) ∧ job_output_path j = None) ∧
  (is_Some (job_output_path j) ↔ job_status j = "done") ∧
  (is_Some (job_error j) ↔ job_status j = "error").

(** The application right after start-up: the queue is empty and this
    process has persisted nothing yet.  The database may hold rows of
    earlier runs of the application, as such runs leave them. *)
Definition initial (s : System) : Prop :=
  JOB_QUEUE (world s) = [] ∧ commits (world s) = [] ∧
  unfinished_tasks (world s) = 0 ∧ worker_alive s = true ∧
  ∀ k j, jobs (world s) !! k = Some j → job_id j = k ∧ row_consistent j.

(** * The vocabulary of the statements *)

(** [triple P m Q]: started in a world where [P] holds, [m] ends with a
    result and in a world related by [Q], whether it returns or raises. *)
Definition triple {A} (P : World → Prop) (m : M A) (Q : Res A → World → Prop) : Prop :=
  ∀ w r w', P w → m w = (r, w') → Q r w'.

(** world-only postconditions *)
Definition holds {A} (P : World → Prop) (m : M A) (Q : World → Prop) : Prop :=
  triple P m (λ _, Q).

(** [m] leaves the part [π] of the world alone *)
Definition keeps {X A} (π : World → X) (m : M A) : Prop :=
  ∀ w r w', m w = (r, w') → π w' = π w.

(** [m] moves the world along the relation [R] *)
Definition respects {A} (R : World → World → Prop) (m : M A) : Prop :=
  ∀ w r w', m w = (r, w') → R w w'.

(** the parts of the world the pipeline works on, and those of the job store *)
Definition fs_part (w : World) : gmap string bytes * gset string * list Call :=
  (files w, dirs w, calls w).
Definition db_part (w : World) : gmap nat Job * list Media * list nat * Z * list Job :=
  (jobs w, medias w, JOB_QUEUE w, unfinished_tasks w, commits w).

(** Through [progress_callback] the pipeline rewrites three columns of one
    row and nothing else: [j] is [j0] after reports of progress up to [k]. *)
Definition reported_row (j0 : Job) (k : Z) (j : Job) : Prop :=
  ∃ p m d, j = set_updated_at d (set_message m (set_progress p j0)) ∧
           job_progress j0 ≤ p ≤ k.

(** [reporting jid j0 w0 k w] relates the world [w0] in which the pipeline
    was started, where the row of [jid] was [j0], to a later world [w] in
    which progress up to [k] has been reported. *)
Record reporting (jid : nat) (j0 : Job) (w0 : World) (k : Z) (w : World) : Prop := {
  rep_medias : medias w = medias w0;
  rep_queue : JOB_QUEUE w = JOB_QUEUE w0;
  rep_unfinished : unfinished_tasks w = unfinished_tasks w0;
  rep_others : ∀ i, i ≠ jid → jobs w !! i = jobs w0 !! i;
  rep_row : ∃ j, jobs w !! jid = Some j ∧ reported_row j0 k j;
  rep_commits : ∃ l, commits w = commits w0 ++ l ∧
                     Forall (reported_row j0 k) l ∧
                     StronglySorted Z.le (job_progress <$> l)
}.

(** the rows the worker writes: at the start of a job, on success and on
    failure *)
Definition running_of (d : DateTime) (job : Job) : Job :=
  set_updated_at d (set_message "شروع پردازش..." (set_progress 5 (set_status "running" job))).

Definition done_of (d : DateTime) (output_path : string) (j : Job) : Job :=
  set_updated_at d (set_output_path output_path
    (set_message "تمام شد ✅" (set_progress 100 (set_status "done" j)))).

Definition error_of (d : DateTime) (e : exn) (j : Job) : Job :=
  set_updated_at d (set_error (str e)
    (set_message "خطا در اجرای جاب" (set_progress 0 (set_status "error" j)))).

(** [j] is the row [job] with other values in the columns the worker writes *)
Definition same_job (job j : Job) : Prop :=
  job_id j = job_id job ∧ job_uuid j = job_uuid job ∧
  job_project_id j = job_project_id job ∧
  job_audio_path j = job_audio_path job ∧ job_video_path j = job_video_path job ∧
  job_created_at j = job_created_at job.

(** the shapes of the rows of [job] while and after the worker runs it *)
Definition running_row (job j : Job) : Prop :=
  same_job job j ∧ job_status j = "running" ∧ 5 ≤ job_progress j ≤ 100 ∧
  job_output_path j = job_output_path job ∧ job_error j = job_error job.

Definition done_row (job j : Job) : Prop :=
  same_job job j ∧ job_status j = "done" ∧ job_progress j = 100 ∧
  is_Some (job_output_path j) ∧ job_error j = job_error job.

Definition error_row (job j : Job) : Prop :=
  same_job job j ∧ job_status j = "error" ∧ job_progress j = 0 ∧
  is_Some (job_error j) ∧ job_output_path j = job_output_path job ∧
  job_message j = "خطا در اجرای جاب".

(** the rows one iteration persists for its job: the start at progress 5,
    the progress reports in non-decreasing order, then one terminal row *)
Definition job_block (job : Job) (block : list Job) : Prop :=
  ∃ start mid fin,
    block = start :: mid ++ [fin] ∧
    running_row job start ∧ job_progress start = 5 ∧
    job_message start = "شروع پردازش..." ∧
    Forall (running_row job) mid ∧
    StronglySorted Z.le (job_progress <$> start :: mid) ∧
    (done_row job fin ∨ error_row job fin).

(** a row as [enqueue_job] creates it *)
Definition queued_row (j : Job) : Prop :=
  job_status j = "queued" ∧ job_progress j = 0 ∧
  job_output_path j = None ∧ job_error j = None.

(** the persisted rows of job [k], oldest first *)
Definition history (k : nat) (l : list Job) : list Job :=
  filter (λ c, job_id c = k) l.

(** job ids in the order their rows were created *)
Definition enqueued (l : list Job) : list nat :=
  job_id <$> filter (λ c, job_status c = "queued") l.

(** the rows persisted by the worker, oldest first *)
Definition worker_log (l : list Job) : list Job :=
  filter (λ c, job_status c ≠ "queued") l.

(** [b] is the block of rows the worker persisted for job [k] *)
Definition block_of (k : nat) (b : list Job) : Prop :=
  ∃ c, queued_row c ∧ job_id c = k ∧ job_block c b.

(** The invariant of the running application.  Ids in the queue are
    distinct and belong to rows still as created, with one persisted row
    each.  A row outside the queue is either left from an earlier run or has
    been run by the worker, and then its persisted rows are the created row
    and one block ending with the row as it is in the table.  The worker has
    taken the jobs in the order of their creation and has persisted their
    blocks one after the other. *)
Record Inv (s : System) : Prop := {
  inv_alive : worker_alive s = true;
  inv_unfinished :
    unfinished_tasks (world s) = Z.of_nat (length (JOB_QUEUE (world s)));
  inv_nodup : NoDup (JOB_QUEUE (world s));
  inv_keys : ∀ k j, jobs (world s) !! k = Some j → job_id j = k;
  inv_commits : ∀ c, c ∈ commits (world s) → is_Some (jobs (world s) !! job_id c);
  inv_queue : ∀ k, k ∈ JOB_QUEUE (world s) →
    ∃ j, jobs (world s) !! k = Some j ∧ queued_row j ∧
         history k (commits (world s)) = [j];
  inv_done : ∀ k j, jobs (world s) !! k = Some j → k ∉ JOB_QUEUE (world s) →
    (history k (commits (world s)) = [] ∧ row_consistent j) ∨
    ∃ c block, history k (commits (world s)) = c :: block ∧
               queued_row c ∧ job_id c = k ∧ job_block c block ∧
               last block = Some j;
  inv_enqueued : NoDup (enqueued (commits (world s)));
  inv_order : ∃ processed blocks,
    processed ++ JOB_QUEUE (world s) = enqueued (commits (world s)) ∧
    worker_log (commits (world s)) = concat blocks ∧
    Forall2 block_of processed blocks
}.

(** what [os.path.join] puts between its two arguments *)
Definition sep (a : string) : string :=
  if bool_decide (a = "") || endswith_slash a then "" else "/".

(** [cb] always returns and leaves files, directories and the record of
    engine invocations alone *)
Definition callback_quiet (cb : Z → string → M unit) : Prop :=
  ∀ p msg w, ∃ w', cb p msg w = (Ok tt, w') ∧ fs_part w' = fs_part w.

(** the optional callback of [process_job] is absent or quiet *)
Definition reporter_quiet (progress_callback : option (Z → string → M unit)) : Prop :=
  match progress_callback with
  | Some cb => callback_quiet cb
  | None => True
  end.

(** Both cached stages have the same four ways to end.  [c] is the cache
    file of the stage, [ws] its workspace file, [oracle] its engine: a cache
    hit; a directory in the place of the cache file; a miss with a failing
    engine; a miss with an engine that returns [data]. *)
Inductive stage_outcome (eng : Engine)
    (oracle : nat → string → gmap string bytes → exn + bytes)
    (audio_path c ws : string) (w : World) (r : Res string) (w' : World) : Prop :=
  | stage_hit data :
      files w !! c = Some data →
      r = Ok ws → calls w' = calls w →
      files w' = <[ws := data]> (files w) →
      stage_outcome eng oracle audio_path c ws w r w'
  | stage_directory e :
      files w !! c = None → c ∈ dirs w →
      r = Raise e → calls w' = calls w → files w' = files w →
      stage_outcome eng oracle audio_path c ws w r w'
  | stage_engine_failed t e :
      files w !! c = None → c ∉ dirs w →
      calls w' = calls w ++ [mkCall eng [audio_path] t (files w)] →
      oracle t audio_path (files w) = inl e →
      r = Raise e → files w' = files w →
      stage_outcome eng oracle audio_path c ws w r w'
  | stage_computed t data :
      files w !! c = None → c ∉ dirs w →
      calls w' = calls w ++ [mkCall eng [audio_path] t (files w)] →
      oracle t audio_path (files w) = inr data →
      r = Ok ws → files w' = <[ws := data]> (<[c := data]> (files w)) →
      stage_outcome eng oracle audio_path c ws w r w'.

(** from the start of the renderer on, the pipeline never removes a file and
    starts no engine but ffmpeg *)
Definition after_render_start (w w' : World) : Prop :=
  (∀ p, is_Some (files w !! p) → is_Some (files w' !! p)) ∧
  ∃ l, calls w' = calls w ++ l ∧ Forall (λ c, call_engine c = Ffmpeg) l.

(** the command line [_run_manim] builds *)
Definition manim_cmd (quality : string) : list string :=
  ["manim";
   "-q" +:+ (if bool_decide (quality ∈ ["l"; "m"; "h"; "p"; "k"]) then quality else "h");
   "-t"; MOTION_FILE; SCENE_NAME].

(** the render stage was started in [w3]; [w'] is where the run ended *)
Definition rendered (quality : string) (w3 w' : World) : Prop :=
  ∃ t w4,
    calls w4 = calls w3 ++ [mkCall Manim (manim_cmd quality) t (files w3)] ∧
    files w4 = files w3 ∧ after_render_start w4 w'.

(** the run ended before any stage *)
Definition no_stage_run (audio_path output_dir : string) (w : World)
    (r : Res string) (w' : World) : Prop :=
  ∃ e, r = Raise e ∧ files w' = files w ∧ calls w' = calls w ∧
       (is_Some (files w !! output_dir) ∨
        files w !! audio_path = None ∧ e = FileNotFoundError (errno2 audio_path)).

(** One cached stage on the files [f]: the engine invocations it makes, and
    the files it leaves when it returns ([None] when it raises, which leaves
    the files as they were). *)
Inductive stage_step (eng : Engine)
    (oracle : nat → string → gmap string bytes → exn + bytes)
    (audio_path c ws : string) (f : gmap string bytes)
    : list Call → option (gmap string bytes) → Prop :=
  | step_hit data :
      f !! c = Some data →
      stage_step eng oracle audio_path c ws f [] (Some (<[ws := data]> f))
  | step_directory :
      f !! c = None →
      stage_step eng oracle audio_path c ws f [] None
  | step_engine_failed t e :
      f !! c = None → oracle t audio_path f = inl e →
      stage_step eng oracle audio_path c ws f [mkCall eng [audio_path] t f] None
  | step_computed t data :
      f !! c = None → oracle t audio_path f = inr data →
      stage_step eng oracle audio_path c ws f [mkCall eng [audio_path] t f]
                 (Some (<[ws := data]> (<[c := data]> f))).

(** the result is an exception *)
Definition is_Raise {A} (r : Res A) : Prop :=
  match r with Raise _ => True | Ok _ => False end.

(** the invocations of the render and composite stages started on [f3], and
    the files at the end *)
Definition render_steps (quality : string) (f3 : gmap string bytes)
    (news : list Call) (f' : gmap string bytes) : Prop :=
  ∃ t tail,
    news = mkCall Manim (manim_cmd quality) t f3 :: tail ∧
    Forall (λ c, call_engine c = Ffmpeg) tail ∧
    (∀ p, is_Some (f3 !! p) → is_Some (f' !! p)).

(** how often engine [e] was started, according to the record [l] *)
Definition invocations (e : Engine) (l : list Call) : nat :=
  length (filter (λ c, call_engine c = e) l).

(** the path of the final output in [output_dir] for the token [uid] *)
Definition final_output_path (output_dir uid : string) : string :=
  path_join output_dir ("final_" +:+ uid +:+ ".mp4").

Section Vocabulary.
Variable BASE_DIR : string.
Variable env : Env.

(** the directory prefix shared by all files of the application *)
Definition ROOT : string := BASE_DIR +:+ sep BASE_DIR.

(** the beat stage was started in [w2] *)
Definition beats_then_render (audio_path audio_hash quality : string)
    (w2 : World) (r : Res string) (w' : World) : Prop :=
  ∃ r2 w3,
    stage_outcome Librosa (env_librosa env) audio_path
      (beats_cache_path BASE_DIR audio_hash) (beats_json BASE_DIR) w2 r2 w3 ∧
    match r2 with
    | Raise e => r = Raise e ∧ files w' = files w3 ∧ calls w' = calls w3
    | Ok _ => rendered quality w3 w'
    end.

(** the audio file was read and the transcript stage started in [w1] *)
Definition stages_run (audio_path quality : string) (w : World) (r : Res string)
    (w' : World) : Prop :=
  ∃ content w1 r1 w2,
    files w !! audio_path = Some content ∧
    files w1 = files w ∧ calls w1 = calls w ∧
    stage_outcome Whisper (env_whisper env) audio_path
      (seg_cache_path BASE_DIR (md5_hexdigest env content))
      (segments_json BASE_DIR) w1 r1 w2 ∧
    match r1 with
    | Raise e => r = Raise e ∧ files w' = files w2 ∧ calls w' = calls w2
    | Ok _ => beats_then_render audio_path (md5_hexdigest env content) quality w2 r w'
    end.

(** a whole run on the files [f] of a readable audio file with fingerprint
    [h]: its invocations in order, and the files at the end *)
Inductive pipeline_steps (audio_path h quality : string) (f : gmap string bytes)
    : list Call → gmap string bytes → bool → Prop :=
  | steps_transcript_raised n1 :
      stage_step Whisper (env_whisper env) audio_path
        (seg_cache_path BASE_DIR h) (segments_json BASE_DIR) f n1 None →
      pipeline_steps audio_path h quality f n1 f false
  | steps_beats_raised n1 f2 n2 :
      stage_step Whisper (env_whisper env) audio_path
        (seg_cache_path BASE_DIR h) (segments_json BASE_DIR) f n1 (Some f2) →
      stage_step Librosa (env_librosa env) audio_path
        (beats_cache_path BASE_DIR h) (beats_json BASE_DIR) f2 n2 None →
      pipeline_steps audio_path h quality f (n1 ++ n2) f2 false
  | steps_rendered n1 f2 n2 f3 n3 f' ok :
      stage_step Whisper (env_whisper env) audio_path
        (seg_cache_path BASE_DIR h) (segments_json BASE_DIR) f n1 (Some f2) →
      stage_step Librosa (env_librosa env) audio_path
        (beats_cache_path BASE_DIR h) (beats_json BASE_DIR) f2 n2 (Some f3) →
      render_steps quality f3 n3 f' →
      pipeline_steps audio_path h quality f (n1 ++ n2 ++ n3) f' ok.

(** the token [_unique_id] returns when the clock is consulted at tick [t] *)
Definition unique_id_at (t : nat) : string :=
  strftime (env_now env t) +:+ "_" +:+
  String.string_of_list_ascii
    (map (λ i, nth (env_random env (S t) i
                    mod length (String.list_ascii_of_string
                                  "abcdefghijklmnopqrstuvwxyz0123456789"))
               (String.list_ascii_of_string "abcdefghijklmnopqrstuvwxyz0123456789")
               "a"%char)
         (seq 0 4)).

End Vocabulary.

(** * A concrete installation *)

(** An application installed in [/app], with engines that always succeed, a
    clock that stands still and a random source that always draws index 0. *)
Definition demo_manim_out : string := "/app/media/videos/motion/1080p60/FarsiKinetic.mov".

Definition demo_env : Env :=
  mkEnv (λ data, zfill 32 (pretty (length data)))
        (λ _, mkDateTime 2024 1 2 3 4 5)
        (λ _ _, 0%nat)
        (λ t, zfill 8 (pretty t) +:+ "-0000-4000-8000-000000000000")
        (λ _ _ _, inr [Byte.x5b; Byte.x5d])
        (λ _ _ _, inr [Byte.x5b; Byte.x5d])
        (λ _ _ _, inr (0, [(demo_manim_out, [Byte.x6d])]))
        (λ _ _, [(demo_manim_out, 7%nat)])
        (λ _ _ _, inr (0, [Byte.x66])).

(** the same installation with a transcription engine that always fails *)
Definition demo_env_failing : Env :=
  mkEnv (md5_hexdigest demo_env) (env_now demo_env) (env_random demo_env)
        (env_uuid4 demo_env)
        (λ _ _ _, inl (EngineError "CUDA out of memory"))
        (env_librosa demo_env) (env_manim demo_env) (env_glob demo_env)
        (env_ffmpeg demo_env).

(** the same installation with a clock that runs backwards *)
Definition demo_env_backwards : Env :=
  mkEnv (md5_hexdigest demo_env) (λ t, mkDateTime (2024 - t) 1 2 3 4 5)
        (env_random demo_env) (env_uuid4 demo_env)
        (env_whisper demo_env) (env_librosa demo_env) (env_manim demo_env)
        (env_glob demo_env) (env_ffmpeg demo_env).

Definition demo_audio : bytes := [Byte.x52; Byte.x49; Byte.x46; Byte.x46].

(** one uploaded audio file, an empty database and an empty queue *)
Definition demo_world : World :=
  mkWorld {["/up/a.mp3" := demo_audio]} ∅ 0 [] ∅ [] [] 0 [].

Definition demo_system : System := mkSystem demo_world true.

(** one job is created and the worker takes its turn *)
Definition demo_acts : list action :=
  [CreateJob 1 "/up/a.mp3" "/up/v.mp4"; Work].

(** two jobs are created before the worker takes two turns *)
Definition demo_acts_two : list action :=
  [CreateJob 1 "/up/a.mp3" "/up/v.mp4"; CreateJob 2 "/up/missing.mp3" "/up/v.mp4";
   Work; Work].

(** a job on an audio file that is not there, and a turn of the worker *)
Definition demo_acts_failing : list action :=
  [CreateJob 1 "/up/missing.mp3" "/up/v.mp4"; Work].

(** two pipeline runs on the same audio file, one after the other *)
Definition demo_first : Res string * World :=
  process_job "/app" demo_env "/up/a.mp3" "/up/v.mp4" "/app/outputs" None "h" demo_world.
Definition demo_second : Res string * World :=
  process_job "/app" demo_env "/up/a.mp3" "/up/v.mp4" "/app/outputs" None "h"
              (snd demo_first).

Definition demo_output : string := "/app/outputs/final_20240102_030405_aaaa.mp4".

(** C8 as the specification words it: any two jobs that complete one after
    the other get different output paths, and the second does not write over
    an existing file. *)
Definition output_paths_always_fresh : Prop :=
  ∀ (BASE_DIR : string) (env : Env)
    (a1 v1 : string) (pc1 : option (Z → string → M unit)) (q1 : string)
    (a2 v2 : string) (pc2 : option (Z → string → M unit)) (q2 : string)
    (output_dir : string) (w w1 w2 : World) (p1 p2 : string),
    process_job BASE_DIR env a1 v1 output_dir pc1 q1 w = (Ok p1, w1) →
    process_job BASE_DIR env a2 v2 output_dir pc2 q2 w1 = (Ok p2, w2) →
    p1 ≠ p2 ∧ files w1 !! p2 = None.

(** two pipeline runs on the same audio file with the transcription engine
    that fails *)
Definition demo_failing_first : Res string * World :=
  process_job "/app" demo_env_failing "/up/a.mp3" "/up/v.mp4" "/app/outputs" None "h"
              demo_world.
Definition demo_failing_second : Res string * World :=
  process_job "/app" demo_env_failing "/up/a.mp3" "/up/v.mp4" "/app/outputs" None "h"
              (snd demo_failing_first).

(** the state after the first run of [demo_first], with the same audio
    uploaded once more under another name *)
Definition demo_world_again : World :=
  set_files (λ f, <["/up/b.mp3" := demo_audio]> f) (snd demo_first).

(** C1 as the specification words it: any two jobs on byte-identical audio,
    the first one starting without cache entries for the fingerprint and the
    second one where the first has ended, start Whisper exactly once and
    Librosa exactly once between them. *)
Definition identical_audio_always_once : Prop :=
  ∀ (BASE_DIR : string) (env : Env)
    (a1 v1 o1 : string) (pc1 : option (Z → string → M unit)) (q1 : string)
    (a2 v2 o2 : string) (pc2 : option (Z → string → M unit)) (q2 : string)
    (content : bytes) (w w1 w2 : World) (r1 r2 : Res string),
    reporter_quiet pc1 → reporter_quiet pc2 →
    files w !! a1 = Some content →
    files w !! seg_cache_path BASE_DIR (md5_hexdigest env content) = None →
    files w !! beats_cache_path BASE_DIR (md5_hexdigest env content) = None →
    process_job BASE_DIR env a1 v1 o1 pc1 q1 w = (r1, w1) →
    files w1 !! a2 = Some content →
    process_job BASE_DIR env a2 v2 o2 pc2 q2 w1 = (r2, w2) →
    invocations Whisper (calls w2) = S (invocations Whisper (calls w)) ∧
    invocations Librosa (calls w2) = S (invocations Librosa (calls w)).

(** * Further vocabulary *)

(** the pattern under which [_run_manim] looks for what manim has rendered *)
Definition manim_pattern (BASE_DIR : string) : string :=
  path_join (path_join (path_join (path_join (MEDIA_DIR BASE_DIR) "videos") MOTION_STEM) "*")
            (SCENE_NAME +:+ ".*").

(** the command line [_overlay_video] builds *)
Definition ffmpeg_cmd (base_video overlay_video audio output : string) : list string :=
  ["ffmpeg"; "-y"; "-stream_loop"; "-1"; "-i"; base_video;
   "-i"; overlay_video; "-i"; audio;
   "-filter_complex";
   "[1:v]scale=iw:-1[fg];[0:v][fg]overlay=(W-w)/2:(H-h)/2:format=auto[vout]";
   "-map"; "[vout]"; "-map"; "2:a";
   "-c:v"; "libx264"; "-c:a"; "aac"; "-shortest"; output].

(** where [process_job] puts its copy of the render in [output_dir] *)
Definition overlay_path (output_dir uid manim_out : string) : string :=
  path_join output_dir ("manim_" +:+ uid +:+ path_suffix manim_out).

(** [process_job] from the render stage on *)
Definition render_and_compose (BASE_DIR : string) (env : Env)
    (audio_path video_path output_dir : string)
    (progress_callback : option (Z → string → M unit)) (quality : string) : M string :=
  manim_out ← _run_manim BASE_DIR env quality;
  uid ← _unique_id env;
  let overlay_src := path_join output_dir ("manim_" +:+ uid +:+ path_suffix manim_out) in
  _ ← shutil_copy manim_out overlay_src;
  let final_output := path_join output_dir ("final_" +:+ uid +:+ ".mp4") in
  _ ← _update progress_callback 80 "ترکیب موشن با ویدیو اصلی (ffmpeg)...";
  _ ← _overlay_video env video_path overlay_src audio_path final_output;
  _ ← _update progress_callback 100 "تمام شد ✅";
  mret final_output.

(** the engine invocation [c] of a job on [audio_path] has failed with [e]:
    the library has raised, the process could not be started, or it has
    ended with a non-zero status *)
Definition engine_failed (env : Env) (audio_path : string) (c : Call) (e : exn) : Prop :=
  match call_engine c with
  | Whisper => env_whisper env (call_tick c) audio_path (call_files c) = inl e
  | Librosa => env_librosa env (call_tick c) audio_path (call_files c) = inl e
  | Manim =>
      env_manim env (call_tick c) (call_args c) (call_files c) = inl e ∨
      ∃ rc written,
        env_manim env (call_tick c) (call_args c) (call_files c) = inr (rc, written) ∧
        rc ≠ 0 ∧ e = CalledProcessError (call_args c) rc
  | Ffmpeg =>
      env_ffmpeg env (call_tick c) (call_args c) (call_files c) = inl e ∨
      ∃ rc data,
        env_ffmpeg env (call_tick c) (call_args c) (call_files c) = inr (rc, data) ∧
        rc ≠ 0 ∧ e = CalledProcessError (call_args c) rc
  end.

(** how the composite stage ends when started on the files [f5] with the
    render [manim_out] and the token [uid] *)
Inductive composed (env : Env) (audio_path video_path output_dir : string)
    (f5 : gmap string bytes) (manim_out uid : string)
    : list Call → Res string → gmap string bytes → Prop :=
  | composed_no_render :
      f5 !! manim_out = None →
      composed env audio_path video_path output_dir f5 manim_out uid
        [] (Raise (FileNotFoundError (errno2 manim_out))) f5
  | composed_same_file mdata :
      f5 !! manim_out = Some mdata →
      manim_out = overlay_path output_dir uid manim_out →
      composed env audio_path video_path output_dir f5 manim_out uid
        [] (Raise (SameFileError manim_out (overlay_path output_dir uid manim_out))) f5
  | composed_ffmpeg mdata t r f' :
      f5 !! manim_out = Some mdata →
      manim_out ≠ overlay_path output_dir uid manim_out →
      let overlay := overlay_path output_dir uid manim_out in
      let final := final_output_path output_dir uid in
      let cmd := ffmpeg_cmd video_path overlay audio_path final in
      let f6 := <[overlay := mdata]> f5 in
      match env_ffmpeg env t cmd f6 with
      | inl e => r = Raise e ∧ f' = f6
      | inr (rc, data) =>
          if bool_decide (rc = 0) then r = Ok final ∧ f' = <[final := data]> f6
          else r = Raise (CalledProcessError cmd rc) ∧ f' = f6
      end →
      composed env audio_path video_path output_dir f5 manim_out uid
        [mkCall Ffmpeg cmd t f6] r f'.

(** no invocation in [news] has failed *)
Definition all_succeeded (env : Env) (audio_path : string) (news : list Call) : Prop :=
  ∀ c e, c ∈ news → ¬ engine_failed env audio_path c e.

(** an invocation in [news] that has failed is the last one of [news], and
    its error is what the run [r] has raised *)
Definition failures_final (env : Env) (audio_path : string) (news : list Call)
    (r : Res string) : Prop :=
  ∀ c e, c ∈ news → engine_failed env audio_path c e →
    r = Raise e ∧ last news = Some c.

(** [news] is empty or one invocation of [eng] *)
Definition at_most_one (eng : Engine) (news : list Call) : Prop :=
  news = [] ∨ ∃ c, news = [c] ∧ call_engine c = eng.

(** The run of a job on [video_path] and [audio_path] from [w] to [w'] has
    written its final output [p] with the token [uid].  The token is the one
    [_unique_id] has drawn in this run: [cm] is the run's invocation of
    manim, the search for the render takes the next reading of the outside
    world, and the token is made of the two readings after that, of the clock
    and of the random source.  [p] is [final_<uid>.mp4] in [output_dir]; the
    last engine started is ffmpeg, with [-y] and with [p] as its output; and
    the file at [p] holds what ffmpeg has produced, whatever was there when
    the run started. *)
Definition output_written (env : Env) (video_path audio_path output_dir : string)
    (w : World) (p : string) (w' : World) (uid : string) : Prop :=
  ∃ news cm cf overlay data,
    calls w' = calls w ++ news ++ [cm; cf] ∧
    call_engine cm = Manim ∧ call_engine cf = Ffmpeg ∧
    uid = unique_id_at env (call_tick cm + 2) ∧
    p = final_output_path output_dir uid ∧
    call_args cf = ffmpeg_cmd video_path overlay audio_path p ∧
    env_ffmpeg env (call_tick cf) (call_args cf) (call_files cf) = inr (0, data) ∧
    files w' !! p = Some data.

(** two pipeline runs on the same audio file while the clock runs backwards *)
Definition demo_backwards_first : Res string * World :=
  process_job "/app" demo_env_backwards "/up/a.mp3" "/up/v.mp4" "/app/outputs" None "h"
              demo_world.
Definition demo_backwards_second : Res string * World :=
  process_job "/app" demo_env_backwards "/up/a.mp3" "/up/v.mp4" "/app/outputs" None "h"
              (snd demo_backwards_first).

(** the percentages [process_job] reports, in the order of the reports *)
Definition milestones : list Z := [5; 15; 35; 55; 80; 100].

(** since [w0] the job store has seen the first [n] reports of the pipeline
    for the row of [jid], and nothing else *)
Definition milestones_reported (jid : nat) (w0 : World) (n : nat) (w : World) : Prop :=
  is_Some (jobs w !! jid) ∧
  ∃ l, commits w = commits w0 ++ l ∧ job_progress <$> l = take n milestones.

(** a piece of the pipeline has ended after [n] reports in all: [k] of them
    when it has returned, and fewer than all six when it has raised *)
Definition ended_after {A} (jid : nat) (w0 : World) (k : nat)
    (r : Res A) (w : World) : Prop :=
  ∃ n, milestones_reported jid w0 n w ∧
       match r with Ok _ => n = k | Raise _ => (n ≤ k)%nat ∧ (n < 6)%nat end.

(** the media row [m] records the output of the job whose row was persisted
    as [c] when it was done *)
Definition media_of (m : Media) (c : Job) : Prop :=
  media_job_id m = Some (job_id c) ∧ media_project_id m = job_project_id c ∧
  job_output_path c = Some (media_file_path m) ∧ media_type m = "video".

(** the rows persisted with status done, oldest first *)
Definition done_log (l : list Job) : list Job :=
  filter (λ c, job_status c = "done") l.

(** * Further concrete installations *)

(** an installation whose media directory holds three renders, two of them
    equally recent *)
Definition demo_env_renders : Env :=
  mkEnv (md5_hexdigest demo_env) (env_now demo_env) (env_random demo_env)
        (env_uuid4 demo_env) (env_whisper demo_env) (env_librosa demo_env)
        (env_manim demo_env)
        (λ _ _, [("/app/media/videos/motion/480p15/FarsiKinetic.mp4", 9%nat);
                 (demo_manim_out, 9%nat);
                 ("/app/media/videos/motion/720p30/FarsiKinetic.mov", 3%nat)])
        (env_ffmpeg demo_env).

(** an installation whose renderer ends with status 1 *)
Definition demo_env_no_render : Env :=
  mkEnv (md5_hexdigest demo_env) (env_now demo_env) (env_random demo_env)
        (env_uuid4 demo_env) (env_whisper demo_env) (env_librosa demo_env)
        (λ _ _ _, inr (1, []))
        (env_glob demo_env) (env_ffmpeg demo_env).

(** an installation whose UUIDs all start with the same eight characters *)
Definition demo_env_same_uuid : Env :=
  mkEnv (md5_hexdigest demo_env) (env_now demo_env) (env_random demo_env)
        (λ t, "deadbeef-0000-4000-8000-" +:+ zfill 12 (pretty t))
        (env_whisper demo_env) (env_librosa demo_env) (env_manim demo_env)
        (env_glob demo_env) (env_ffmpeg demo_env).

(** a queue that holds the id of a row that is not in the table *)
Definition demo_system_vanished : System :=
  mkSystem (mkWorld ∅ ∅ 0 [] ∅ [] [7%nat] 1 []) true.

(** * The request handlers ([app.py]) *)

(** ** Uploaded files *)

(** an uploaded file as the handlers see it (werkzeug's [FileStorage]): the
    file name the client has sent and the content *)
Record FileStorage : Type := mkFileStorage {
  filename : string;
  stream : bytes
}.

(** [not file_obj or file_obj.filename == ""]; a [FileStorage] with an empty
    file name is falsy *)
Definition no_file (file_obj : option FileStorage) : bool :=
  match file_obj with
  | None => true
  | Some f => bool_decide (filename f = "")
  end.

Definition _save_upload (BASE_DIR : string) (file_obj : option FileStorage)
    (subdir : string) : M string :=
  match file_obj with
  | None => mret ""
  | Some f =>
      if bool_decide (filename f = "") then mret ""
      else
        let folder := path_join (UPLOAD_DIR BASE_DIR) subdir in
        _ ← os_makedirs folder;
        let path := path_join folder (filename f) in
        _ ← write_file path (stream f);          (* file_obj.save(path) *)
        mret path
  end.

(** ** The table of projects, flashed messages, responses *)

Record Project : Type := mkProject {
  prj_id : nat;
  prj_name : string;
  prj_audio_path : string;
  prj_video_path : string;
  prj_created_at : DateTime
}.

(** What a request handler works on: the world the worker works on, the
    table of projects, and the messages flashed to the user so far, each
    with its category. *)
Record Site : Type := mkSite {
  site_world : World;
  projects : gmap nat Project;
  flashes : list (string * string)
}.

(** the monad of the handlers *)
Definition H (A : Type) : Type := Site → Res A * Site.

Global Instance H_ret : MRet H := λ A a s, (Ok a, s).
Global Instance H_bind : MBind H := λ A B f m s,
  match m s with
  | (Ok a, s') => f a s'
  | (Raise e, s') => (Raise e, s')
  end.

(** code of the worker's world, run by a handler *)
Definition lift {A} (m : M A) : H A := λ s,
  match m (site_world s) with
  | (r, w') => (r, mkSite w' (projects s) (flashes s))
  end.

(** [flash(message, category)] *)
Definition flash (message category : string) : H unit := λ s,
  (Ok tt, mkSite (site_world s) (projects s) (flashes s ++ [(message, category)])).

(** [db.get(Project, project_id)] *)
Definition db_get_project (id : nat) : H (option Project) := λ s,
  (Ok (projects s !! id), s).

(** [db.add(project); db.commit(); db.refresh(project)]: the new row gets
    the primary key one more than the largest *)
Definition db_add_project (mk : nat → Project) : H Project := λ s,
  let p := mk (S (max_list (elements (dom (projects s))))) in
  (Ok p, mkSite (site_world s) (<[prj_id p := p]> (projects s)) (flashes s)).

Inductive JsonValue : Type :=
  | JNull
  | JInt (z : Z)
  | JStr (s : string).

(** what a handler returns *)
Inductive Response : Type :=
  (** [redirect(url_for(endpoint, **values))] *)
  | Redirect (endpoint : string) (values : list (string * nat))
  (** [render_template("projects.html", projects=projects)] *)
  | RenderProjects (projects : list Project)
  (** [render_template("job_detail.html", job=job)] *)
  | RenderJob (job : Job)
  (** [jsonify(body), status] *)
  | Jsonify (body : list (string * JsonValue)) (status : nat).

(** ** [Job.to_dict] ([models.py]) *)

(** [d.isoformat(sep=" ", timespec="seconds")] *)
Definition isoformat (d : DateTime) : string :=
  zfill 4 (pretty (year d)) +:+ "-" +:+ zfill 2 (pretty (month d)) +:+ "-" +:+
  zfill 2 (pretty (day d)) +:+ " " +:+ zfill 2 (pretty (hour d)) +:+ ":" +:+
  zfill 2 (pretty (minute d)) +:+ ":" +:+ zfill 2 (pretty (second d)).

Definition json_of_text (s : option string) : JsonValue :=
  match s with
  | Some s => JStr s
  | None => JNull
  end.

(** [d.isoformat(...) if d else None] *)
Definition json_of_time (d : option DateTime) : JsonValue :=
  match d with
  | Some d => JStr (isoformat d)
  | None => JNull
  end.

(** the rows the application creates always have both timestamps *)
Definition to_dict (self : Job) : list (string * JsonValue) :=
  [("id", JInt (Z.of_nat (job_id self)));
   ("uuid", JStr (job_uuid self));
   ("project_id", JInt (Z.of_nat (job_project_id self)));
   ("audio_path", JStr (job_audio_path self));
   ("video_path", JStr (job_video_path self));
   ("output_path", json_of_text (job_output_path self));
   ("status", JStr (job_status self));
   ("progress", JInt (job_progress self));
   ("message", JStr (job_message self));
   ("error", json_of_text (job_error self));
   ("created_at", json_of_time (Some (job_created_at self)));
   ("updated_at", json_of_time (Some (job_updated_at self)))].

(** the message flashed when a project has been created *)
Definition created_message (name : string) (job_id : nat) : string :=
  "پروژه '" +:+ name +:+ "' ساخته شد و جاب #" +:+ pretty job_id +:+ " به صف اضافه شد.".

(** ** The routes *)

Inductive Method : Type := GET | POST.

(** what the handlers read of a request: the method, the form field [name],
    and the uploaded files [audio] and [video] *)
Record Request : Type := mkRequest {
  method : Method;
  form_name : option string;
  files_audio : option FileStorage;
  files_video : option FileStorage
}.

(** [s or default] for an optional string *)
Definition or_default (s : option string) (default : string) : string :=
  match s with
  | Some s => if bool_decide (s = "") then default else s
  | None => default
  end.

Section Routes.

Variable BASE_DIR : string.
Variable env : Env.

(** what the database answers to
    [db.query(Project).order_by(Project.created_at.desc()).all()]; the order
    of rows with equal timestamps is up to the database *)
Variable newest_first : gmap nat Project → list Project.

(** [db.query(Project).order_by(Project.created_at.desc()).all()] *)
Definition db_query_projects : H (list Project) := λ s,
  (Ok (newest_first (projects s)), s).

(** [@app.route("/")] *)
Definition root : H Response := mret (Redirect "projects_list" []).

(** [@app.route("/projects", methods=["GET", "POST"])] *)
Definition projects_list (request : Request) : H Response :=
  match method request with
  | POST =>
      let name := or_default (form_name request) "پروژه بدون نام" in
      let audio_file := files_audio request in
      let video_file := files_video request in
      if no_file audio_file then
        _ ← flash "فایل صوتی را انتخاب کنید." "error";
        mret (Redirect "projects_list" [])
      else if no_file video_file then
        _ ← flash "فایل ویدیو را انتخاب کنید." "error";
        mret (Redirect "projects_list" [])
      else
        d ← lift (now env);
        let stamp := strftime d in
        let subdir := "project_" +:+ stamp in
        audio_path ← lift (_save_upload BASE_DIR audio_file subdir);
        video_path ← lift (_save_upload BASE_DIR video_file subdir);
        created_at ← lift (now env);
        project ← db_add_project (λ id, mkProject id name audio_path video_path created_at);
        job_id ← lift (enqueue_job env (prj_id project) audio_path video_path);
        _ ← flash (created_message (prj_name project) job_id) "success";
        mret (Redirect "project_detail" [("project_id", prj_id project)])
  | GET =>
      projects ← db_query_projects;
      mret (RenderProjects projects)
  end.

(** [@app.route("/projects/<int:project_id>/new-job", methods=["POST"])] *)
Definition project_new_job (project_id : nat) : H Response :=
  project ← db_get_project project_id;
  match project with
  | None =>
      _ ← flash "پروژه پیدا نشد." "error";
      mret (Redirect "projects_list" [])
  | Some project =>
      job_id ← lift (enqueue_job env (prj_id project) (prj_audio_path project)
                                 (prj_video_path project));
      _ ← flash ("جاب جدید #" +:+ pretty job_id +:+ " برای این پروژه ساخته شد.") "success";
      mret (Redirect "jobs_detail" [("job_id", job_id)])
  end.

(** [@app.route("/jobs/<int:job_id>")] *)
Definition jobs_detail (job_id : nat) : H Response :=
  job ← lift (db_get job_id);
  match job with
  | None =>
      _ ← flash "جاب پیدا نشد." "error";
      mret (Redirect "jobs_list" [])
  | Some job => mret (RenderJob job)
  end.

(** [@app.route("/jobs/<int:job_id>/json")] *)
Definition jobs_status_json (job_id : nat) : H Response :=
  job ← lift (db_get job_id);
  match job with
  | None => mret (Jsonify [("error", JStr "job not found")] 404)
  | Some job => mret (Jsonify (to_dict job) 200)
  end.

End Routes.

(** ** The application as its users drive it *)

(** a request to one of the routes *)
Inductive visit : Type :=
  | To_root
  | To_projects_list (request : Request)
  | To_project_new_job (project_id : nat)
  | To_jobs_detail (job_id : nat)
  | To_jobs_status_json (job_id : nat).

(** what happens to the application: a request, or a turn of the worker *)
Inductive event : Type :=
  | Visit (v : visit)
  | Turn.

Record Application : Type := mkApplication {
  site : Site;
  worker : bool          (* the worker thread has not died of an exception *)
}.

(** the part of the application the worker lives in *)
Definition system_of (a : Application) : System :=
  mkSystem (site_world (site a)) (worker a).

Section Serving.

Variable BASE_DIR : string.
Variable env : Env.
Variable newest_first : gmap nat Project → list Project.

(** the handler of a request *)
Definition handler (v : visit) : H Response :=
  match v with
  | To_root => root
  | To_projects_list request => projects_list BASE_DIR env newest_first request
  | To_project_new_job project_id => project_new_job env project_id
  | To_jobs_detail job_id => jobs_detail job_id
  | To_jobs_status_json job_id => jobs_status_json job_id
  end.

(** A request runs its handler to the end, whether it returns or raises
    (the client then gets a server error); a turn is one iteration of the
    worker's loop. *)
Definition serve (a : Application) (e : event) : Application :=
  match e with
  | Visit v => mkApplication (snd (handler v (site a))) (worker a)
  | Turn =>
      let s := step BASE_DIR env (system_of a) Work in
      mkApplication (mkSite (world s) (projects (site a)) (flashes (site a)))
                    (worker_alive s)
  end.

Definition serve_all (a : Application) (events : list event) : Application :=
  foldl serve a events.

End Serving.

(** every project is stored under its id *)
Definition projects_keyed (a : Application) : Prop :=
  ∀ k p, projects (site a) !! k = Some p → prj_id p = k.

(** the application right after start-up *)
Definition started (a : Application) : Prop :=
  initial (system_of a) ∧ projects_keyed a.

(** every job row persisted so far belongs to a project in the table *)
Definition jobs_have_projects (a : Application) : Prop :=
  ∀ c, c ∈ commits (site_world (site a)) →
       is_Some (projects (site a) !! job_project_id c).

(** what every state of the served application satisfies *)
Definition served (a : Application) : Prop :=
  Inv (system_of a) ∧ projects_keyed a ∧ jobs_have_projects a.

(** ** Requests to the concrete installation *)

Definition demo_audio_upload : FileStorage := mkFileStorage "a.mp3" demo_audio.
Definition demo_video_upload : FileStorage := mkFileStorage "v.mp4" [Byte.x00; Byte.x01].

(** an upload whose file name is an absolute path *)
Definition demo_absolute_upload : FileStorage :=
  mkFileStorage "/app/motion.py" [Byte.x23].

(** the form of a new project, filled in *)
Definition demo_request : Request :=
  mkRequest POST (Some "demo") (Some demo_audio_upload) (Some demo_video_upload).

(** the form with the video field left empty *)
Definition demo_request_no_video : Request :=
  mkRequest POST (Some "demo") (Some demo_audio_upload) (Some (mkFileStorage "" [])).

(** the form with an audio and a video that have the same file name *)
Definition demo_request_same_name : Request :=
  mkRequest POST None (Some (mkFileStorage "take.mp4" demo_audio))
            (Some (mkFileStorage "take.mp4" [Byte.x00; Byte.x01])).

(** a database that lists projects by descending id *)
Definition demo_newest_first (ps : gmap nat Project) : list Project :=
  reverse (snd <$> map_to_list ps).

Definition demo_site : Site := mkSite demo_world ∅ [].
Definition demo_application : Application := mkApplication demo_site true.

(** * The transcript and the scene ([transcribe.py], [motion.py])

    Texts are lists of code points.  The times of segments and beats are
    Python floats; they are modelled by rational numbers, so rounding is
    left out. *)

Definition text : Type := list N.

(** [c.isspace()]: the code points Python counts as whitespace *)
Definition isspace (c : N) : bool :=
  ((9 <=? c) && (c <=? 13) || (28 <=? c) && (c <=? 32) || (c =? 133) || (c =? 160) ||
   (c =? 5760) || (8192 <=? c) && (c <=? 8202) || (c =? 8232) || (c =? 8233) ||
   (c =? 8239) || (c =? 8287) || (c =? 12288))%N.

(** [s.lstrip()] *)
Fixpoint lstrip (s : text) : text :=
  match s with
  | c :: rest => if isspace c then lstrip rest else s
  | [] => []
  end.

(** [s.strip()] *)
Definition strip (s : text) : text := reverse (lstrip (reverse (lstrip s))).

(** a segment as Whisper returns it, with the keys the code reads *)
Record WhisperSegment : Type := mkWhisperSegment {
  ws_start : Q;
  ws_end : Q;
  ws_text : option text        (* [seg.get("text", "")] *)
}.

(** a segment as it is written to, and read from, [segments.json] *)
Record Segment : Type := mkSegment {
  seg_start : Q;
  seg_end : Q;
  seg_text : text
}.

(** the loop of [transcribe_audio] over [result.get("segments", [])] *)
Definition extract_segments (result_segments : option (list WhisperSegment))
    : list Segment :=
  (λ seg, mkSegment (ws_start seg) (ws_end seg) (strip (default [] (ws_text seg))))
    <$> default [] result_segments.

(** ** The scene *)

Definition MIN_WAIT : Q := (1 # 30)%Q.

Inductive animation : Type :=
  | Enter (line : text)     (* [line.animate.shift(0.3*UP).scale(1.08)] *)
  | Pulse (line : text)     (* the pulse of the line and the border on a beat *)
  | Exit (line : text).     (* [FadeOut(line, shift=UP * 0.4)] *)

(** what the scene asks of the renderer, in order *)
Inductive scene_event : Type :=
  | Wait (duration : Q)                      (* [self.wait(duration)] *)
  | Play (a : animation) (run_time : Q).     (* [self.play(..., run_time=...)] *)

(** [x < y] *)
Definition Qlt_bool (x y : Q) : bool := negb (Qle_bool y x).

#[global] Instance Qle_dec : RelDecision Qle := λ x y,
  match Qlt_le_dec y x with
  | left H => right (Qlt_not_le _ _ H)
  | right H => left H
  end.

(** [while beat_index < len(beats) and beats[beat_index] < hold_start - 0.01:
    beat_index += 1]; [fuel] bounds the number of iterations *)
Fixpoint skip_loop (fuel : nat) (beats : list Q) (beat_index : nat) (hold_start : Q) : nat :=
  match fuel with
  | O => beat_index
  | S k =>
      match beats !! beat_index with
      | Some b =>
          if Qlt_bool b (hold_start - (1 # 100))%Q
          then skip_loop k beats (S beat_index) hold_start
          else beat_index
      | None => beat_index
      end
  end.

(** [while j < len(beats) and beats[j] <= hold_end + 0.01: ...]: the pulses
    of one line.  The state is [current_time], [local_t] and what the scene
    has played so far. *)
Fixpoint pulse_loop (fuel : nat) (beats : list Q) (line : text) (hold_end : Q) (j : nat)
    (st : Q * Q * list scene_event) : Q * Q * list scene_event :=
  match fuel with
  | O => st
  | S k =>
      match beats !! j with
      | Some beat_time =>
          if Qle_bool beat_time (hold_end + (1 # 100))%Q then
            let '(current_time, local_t, played) := st in
            let dt := (beat_time - local_t)%Q in
            let '(current_time, local_t, played) :=
              if Qlt_bool MIN_WAIT dt
              then ((current_time + dt)%Q, (local_t + dt)%Q, played ++ [Wait dt])
              else (current_time, local_t, played) in
            let pulse_rt := (2 # 25)%Q in
            pulse_loop k beats line hold_end (S j)
              ((current_time + pulse_rt)%Q, (local_t + pulse_rt)%Q,
               played ++ [Play (Pulse line) pulse_rt])
          else st
      | None => st
      end
  end.

(** the body of [for seg in segments]; the state is [current_time],
    [beat_index] and what the scene has played so far *)
Definition show_segment (beats : list Q) (st : Q * nat * list scene_event)
    (seg : Segment) : Q * nat * list scene_event :=
  let '(current_time, beat_index, played) := st in
  let start := seg_start seg in
  let end_ := seg_end seg in
  let text := strip (seg_text seg) in
  match text with
  | [] => st                                       (* continue *)
  | _ :: _ =>
      let segment_duration := Qmax (2 # 5) (end_ - start)%Q in
      let gap := (start - current_time)%Q in
      let '(current_time, played) :=
        if Qlt_bool MIN_WAIT gap then ((current_time + gap)%Q, played ++ [Wait gap])
        else if Qlt_bool 0 gap then ((current_time + gap)%Q, played)
        else (current_time, played) in
      let intro_rt := Qmin (9 # 20) (segment_duration * (1 # 4))%Q in
      let outro_rt := Qmin (7 # 20) (segment_duration * (1 # 5))%Q in
      let used := (intro_rt + outro_rt)%Q in
      let hold_rt := Qmax (1 # 4) (segment_duration - used)%Q in
      let played := played ++ [Play (Enter text) intro_rt] in
      let current_time := (current_time + intro_rt)%Q in
      let hold_start := current_time in
      let hold_end := (hold_start + hold_rt)%Q in
      let local_t := hold_start in
      let beat_index := skip_loop (length beats) beats beat_index hold_start in
      let j := beat_index in
      let '(current_time, local_t, played) :=
        pulse_loop (length beats) beats text hold_end j (current_time, local_t, played) in
      let remaining := (hold_end - local_t)%Q in
      let '(current_time, played) :=
        if Qlt_bool MIN_WAIT remaining
        then ((current_time + remaining)%Q, played ++ [Wait remaining])
        else (current_time, played) in
      let played := played ++ [Play (Exit text) outro_rt] in
      let current_time := (current_time + outro_rt)%Q in
      (current_time, beat_index, played)
  end.

(** [FarsiKinetic.construct] on the content of [segments.json] and of
    [beats.json]; a missing beats file counts as no beats.  The border, which
    is added once and stays, is left out. *)
Definition construct (segments : list Segment) (beats_file : option (list Q))
    : list scene_event :=
  let beats := merge_sort Qle (default [] beats_file) in
  snd (foldl (show_segment beats) (0%Q, 0%nat, []) segments).

(** ** Vocabulary for the scene *)

(** the time an event takes *)
Definition duration (e : scene_event) : Q :=
  match e with
  | Wait d => d
  | Play _ run_time => run_time
  end.

(** the durations the renderer accepts and the code intends: waits longer
    than [MIN_WAIT], and run times within the bounds of each animation *)
Definition well_timed (e : scene_event) : Prop :=
  match e with
  | Wait d => (MIN_WAIT < d)%Q
  | Play (Enter _) run_time => (1 # 10 <= run_time)%Q ∧ (run_time <= 9 # 20)%Q
  | Play (Pulse _) run_time => run_time = (2 # 25)%Q
  | Play (Exit _) run_time => (2 # 25 <= run_time)%Q ∧ (run_time <= 7 # 20)%Q
  end.

(** the texts of the lines the scene shows for [segments], in order *)
Definition shown (segments : list Segment) : list text :=
  filter (λ t, t ≠ []) ((λ seg, strip (seg_text seg)) <$> segments).

(** between the entering and the exit of [line] the scene only waits and
    pulses that line *)
Definition holds_line (line : text) (e : scene_event) : Prop :=
  (∃ d, e = Wait d) ∨ (∃ run_time, e = Play (Pulse line) run_time).

(** what the scene plays for one line: at most one wait, the entering of the
    line, its hold, and its exit *)
Inductive line_block (line : text) : list scene_event → Prop :=
  | line_block_intro pre intro_rt hold outro_rt :
      (pre = [] ∨ ∃ d, pre = [Wait d]) →
      Forall (holds_line line) hold →
      line_block line
        (pre ++ Play (Enter line) intro_rt :: hold ++ [Play (Exit line) outro_rt]).

(** the time a list of events takes *)
Definition total (l : list scene_event) : Q :=
  foldr (λ e acc, (duration e + acc)%Q) 0%Q l.

(** the scene time after the events [l], when they start at [t] *)
Definition end_time (t : Q) (l : list scene_event) : Q :=
  foldl (λ t e, (t + duration e)%Q) t l.

(** the scene times at which the lines of [l] enter, when [l] starts at [t] *)
Fixpoint enter_times (t : Q) (l : list scene_event) : list Q :=
  match l with
  | [] => []
  | Play (Enter _) run_time :: l' => t :: enter_times (t + run_time)%Q l'
  | e :: l' => enter_times (t + duration e)%Q l'
  end.

(** the segments whose line is shown *)
Definition shown_segments (segments : list Segment) : list Segment :=
  filter (λ seg, strip (seg_text seg) ≠ []) segments.

(** The earliest the scene lets the lines of [segments] enter, when its
    [current_time] is at most [lead] ahead of the time it has played: the
    start of the segment, less the lead, which may grow by [MIN_WAIT] with
    every line. *)
Fixpoint earliest_enters (lead : Q) (segments : list Segment) : list Q :=
  match segments with
  | [] => []
  | seg :: rest =>
      (seg_start seg - (lead + MIN_WAIT))%Q :: earliest_enters (lead + MIN_WAIT)%Q rest
  end.

(** an event that is no pulse *)
Definition no_pulse (e : scene_event) : Prop :=
  match e with
  | Play (Pulse _) _ => False
  | _ => True
  end.

(** a transcript and a list of beats to try the scene on *)
Definition demo_whisper : list WhisperSegment :=
  [ mkWhisperSegment 0 (3 # 2) (Some [32; 1587; 1604; 1575; 1605; 32]%N);
    mkWhisperSegment (3 # 2) 2 (Some [32; 10]%N);
    mkWhisperSegment 2 4 None ].

Definition demo_beats : list Q := [(1 # 2)%Q; (1 # 1)%Q].

(** * Reasoning about effectful code *)

Lemma bind_run {A B} (m : M A) (f : A → M B) (w : World) :
  (m ≫= f) w =
  match m w with
  | (Ok a, w') => f a w'
  | (Raise e, w') => (Raise e, w')
  end.
Proof. reflexivity. Qed.

(** unfold the monad and the primitives that only move data around *)
Ltac mrun :=
  cbv beta iota delta
    [mbind M_bind mret M_ret raise gets modify next_tick now
     db_get db_set db_commit start_engine write_file queue_put].
Tactic Notation "mrun" "in" hyp(H) :=
  cbv beta iota delta
    [mbind M_bind mret M_ret raise gets modify next_tick now
     db_get db_set db_commit start_engine write_file queue_put] in H.

(** read fields of a world given by updates of another *)
Ltac wsimpl :=
  cbn [set_files set_dirs set_tick set_calls set_jobs set_medias set_queue
       set_unfinished set_commits
       files dirs tick calls jobs medias JOB_QUEUE unfinished_tasks commits
       fst snd] in *.

(** normalise updates of a world given by its fields *)
Ltac wreduce :=
  cbv beta iota delta
    [set_files set_dirs set_tick set_calls set_jobs set_medias set_queue
     set_unfinished set_commits
     files dirs tick calls jobs medias JOB_QUEUE unfinished_tasks commits
     fst snd] in *.

Lemma triple_ret {A} (P : World → Prop) (a : A) (Q : Res A → World → Prop) :
  (∀ w, P w → Q (Ok a) w) → triple P (mret a) Q.
Proof. intros H w r w' HP [= <- <-]. auto. Qed.

Lemma triple_raise {A} (P : World → Prop) (e : exn) (Q : Res A → World → Prop) :
  (∀ w, P w → Q (Raise e) w) → triple P (raise e) Q.
Proof. intros H w r w' HP [= <- <-]. auto. Qed.

Lemma triple_bind {A B} (P : World → Prop) (m : M A) (f : A → M B)
    (Q1 : Res A → World → Prop) (Q : Res B → World → Prop) :
  triple P m Q1 →
  (∀ a, triple (Q1 (Ok a)) (f a) Q) →
  (∀ e w, Q1 (Raise e) w → Q (Raise e) w) →
  triple P (m ≫= f) Q.
Proof.
  intros Hm Hf He w r w' HP. rewrite bind_run.
  destruct (m w) as [[a|e] w1] eqn:E; intros Hr.
  - eapply Hf; [eapply Hm|]; eauto.
  - injection Hr as <- <-. eapply He, Hm; eauto.
Qed.

Lemma triple_weaken {A} (P P' : World → Prop) (m : M A) (Q Q' : Res A → World → Prop) :
  triple P' m Q' → (∀ w, P w → P' w) → (∀ r w, Q' r w → Q r w) → triple P m Q.
Proof. intros H HP HQ w r w' Hw E. eapply HQ, H; eauto. Qed.

(** ** Code that leaves a part of the world alone *)

Section Keeps.
Context {X : Type} (π : World → X).

Lemma keeps_ret {A} (a : A) : keeps π (mret a).
Proof. by intros w r w' [= <- <-]. Qed.

Lemma keeps_raise {A} (e : exn) : keeps π (raise (A:=A) e).
Proof. by intros w r w' [= <- <-]. Qed.

Lemma keeps_gets {A} (f : World → A) : keeps π (gets f).
Proof. by intros w r w' [= <- <-]. Qed.

Lemma keeps_modify (f : World → World) :
  (∀ w, π (f w) = π w) → keeps π (modify f).
Proof. intros H w r w' [= <- <-]. apply H. Qed.

Lemma keeps_bind {A B} (m : M A) (f : A → M B) :
  keeps π m → (∀ a, keeps π (f a)) → keeps π (m ≫= f).
Proof.
  intros Hm Hf w r w'. rewrite bind_run.
  destruct (m w) as [[a|e] w1] eqn:E; intros Hr.
  - rewrite (Hf _ _ _ _ Hr). eauto.
  - injection Hr as <- <-. eauto.
Qed.

Lemma keeps_try_except {A} (body : M A) (handler : exn → M A) :
  keeps π body → (∀ e, keeps π (handler e)) → keeps π (try_except body handler).
Proof.
  intros Hm Hf w r w'. unfold try_except.
  destruct (body w) as [[a|e] w1] eqn:E; intros Hr.
  - injection Hr as <- <-. eauto.
  - rewrite (Hf _ _ _ _ Hr). eauto.
Qed.

Lemma keeps_triple {A} (m : M A) (x : X) :
  keeps π m → triple (λ w, π w = x) m (λ _ w, π w = x).
Proof. intros H w r w' <- E. eauto. Qed.
End Keeps.

Ltac keeps_step :=
  first
    [ apply keeps_ret | apply keeps_raise | apply keeps_gets
    | apply keeps_modify; intros; reflexivity
    | apply keeps_bind; [|intros ?]
    | apply keeps_try_except; [|intros ?] ].

Ltac keeps_auto :=
  repeat first
    [ keeps_step | assumption
    | match goal with
      | |- keeps _ (match ?x with _ => _ end) => destruct x
      | |- keeps _ (if ?x then _ else _) => destruct x
      | |- keeps _ (let '(_, _) := ?x in _) => destruct x
      end ].

Lemma next_tick_keeps_fs : keeps fs_part next_tick.
Proof. by intros w r w' [= <- <-]. Qed.
Lemma next_tick_keeps_db : keeps db_part next_tick.
Proof. by intros w r w' [= <- <-]. Qed.

Lemma os_makedirs_keeps_db path : keeps db_part (os_makedirs path).
Proof. intros w r w'. unfold os_makedirs. by case_match; intros [= <- <-]. Qed.

Lemma read_file_keeps {X} (π : World → X) path : keeps π (read_file path).
Proof. intros w r w'. unfold read_file. by case_match; intros [= <- <-]. Qed.

Lemma write_file_keeps_db path data : keeps db_part (write_file path data).
Proof. unfold write_file. keeps_auto. Qed.

Lemma shutil_copy_keeps_db src dst : keeps db_part (shutil_copy src dst).
Proof.
  unfold shutil_copy. keeps_auto; auto using read_file_keeps, write_file_keeps_db.
Qed.

Lemma start_engine_keeps_db e args : keeps db_part (start_engine e args).
Proof. by intros w r w' [= <- <-]. Qed.

Lemma os_path_exists_keeps {X} (π : World → X) path : keeps π (os_path_exists path).
Proof. apply keeps_gets. Qed.

Section PipelineFrame.
Variable BASE_DIR : string.
Variable env : Env.

Lemma now_keeps_fs : keeps fs_part (now env).
Proof. unfold now. keeps_auto. apply next_tick_keeps_fs. Qed.
Lemma now_keeps_db : keeps db_part (now env).
Proof. unfold now. keeps_auto. apply next_tick_keeps_db. Qed.

Lemma _hash_file_keeps {X} (π : World → X) path n : keeps π (_hash_file env path n).
Proof. unfold _hash_file. keeps_auto. apply read_file_keeps. Qed.

Lemma transcribe_audio_keeps_db a o : keeps db_part (transcribe_audio env a o).
Proof.
  unfold transcribe_audio.
  keeps_auto; auto using start_engine_keeps_db, next_tick_keeps_db, write_file_keeps_db.
Qed.

Lemma analyze_beats_keeps_db a o : keeps db_part (analyze_beats env a o).
Proof.
  unfold analyze_beats.
  keeps_auto; auto using start_engine_keeps_db, next_tick_keeps_db, write_file_keeps_db.
Qed.

Lemma _run_manim_keeps_db q : keeps db_part (_run_manim BASE_DIR env q).
Proof.
  unfold _run_manim, run_manim_process, glob_glob.
  keeps_auto; auto using start_engine_keeps_db, next_tick_keeps_db.
Qed.

Lemma _unique_id_keeps_db : keeps db_part (_unique_id env).
Proof.
  unfold _unique_id, random_choices.
  keeps_auto; auto using now_keeps_db, next_tick_keeps_db.
Qed.

Lemma _overlay_video_keeps_db b o a out : keeps db_part (_overlay_video env b o a out).
Proof.
  unfold _overlay_video.
  keeps_auto; auto using start_engine_keeps_db, next_tick_keeps_db, write_file_keeps_db.
Qed.
End PipelineFrame.

(** ** What the pipeline does to the job store *)

Lemma reported_row_mono j0 k k' j : k ≤ k' → reported_row j0 k j → reported_row j0 k' j.
Proof. intros Hk (p & m & d & -> & Hp). exists p, m, d. split; [done | lia]. Qed.

Lemma reported_row_refl j0 : reported_row j0 (job_progress j0) j0.
Proof.
  exists (job_progress j0), (job_message j0), (job_updated_at j0).
  split; [by destruct j0 | lia].
Qed.

Lemma reported_row_progress j0 k j :
  reported_row j0 k j → job_progress j0 ≤ job_progress j ≤ k.
Proof. by intros (p & m & d & -> & Hp). Qed.

Lemma reporting_mono jid j0 w0 k k' w :
  k ≤ k' → reporting jid j0 w0 k w → reporting jid j0 w0 k' w.
Proof.
  intros Hk [H1 H2 H3 H4 (j & Hj & Hr) (l & Hl & Hall & Hs)].
  split; try done.
  - exists j. eauto using reported_row_mono.
  - exists l. split_and!; try done.
    eapply Forall_impl; [exact Hall|]. intros; by eapply reported_row_mono.
Qed.

Lemma reporting_start jid j0 w0 :
  jobs w0 !! jid = Some j0 → reporting jid j0 w0 (job_progress j0) w0.
Proof.
  intros Hj. split; try done.
  - exists j0. split; [done | apply reported_row_refl].
  - exists []. rewrite app_nil_r. split_and!; [done | constructor | constructor].
Qed.

Lemma reporting_db_part jid j0 w0 k w w' :
  db_part w' = db_part w → reporting jid j0 w0 k w → reporting jid j0 w0 k w'.
Proof.
  unfold db_part. intros [= E1 E2 E3 E4 E5] [H1 H2 H3 H4 H5 H6].
  split; rewrite ?E1, ?E2, ?E3, ?E4, ?E5; done.
Qed.

Lemma holds_bind {A B} (P Q R : World → Prop) (m : M A) (f : A → M B) :
  holds P m Q → (∀ a, holds Q (f a) R) → (∀ w, Q w → R w) → holds P (m ≫= f) R.
Proof. intros Hm Hf HQ. eapply triple_bind; [exact Hm | exact Hf | auto]. Qed.

Lemma holds_weaken {A} (P P' Q Q' : World → Prop) (m : M A) :
  holds P' m Q' → (∀ w, P w → P' w) → (∀ w, Q' w → Q w) → holds P m Q.
Proof. intros H HP HQ. eapply triple_weaken; [exact H | exact HP | auto]. Qed.

Lemma holds_keeps_db {A} jid j0 w0 k (m : M A) :
  keeps db_part m → holds (reporting jid j0 w0 k) m (reporting jid j0 w0 k).
Proof. intros Hk w r w' HP E. eapply reporting_db_part; [|exact HP]. eauto. Qed.

Lemma alter_alter_row (f g : Job → Job) (jid : nat) (js : gmap nat Job) :
  alter f jid (alter g jid js) = alter (f ∘ g) jid js.
Proof.
  apply map_eq. intros i. destruct (decide (i = jid)) as [->|Hne].
  - rewrite !lookup_alter_eq. by destruct (js !! jid).
  - by rewrite !lookup_alter_ne.
Qed.

Lemma alter_row (f : Job → Job) (jid : nat) (js : gmap nat Job) (j : Job) :
  js !! jid = Some j → alter f jid js = <[jid := f j]> js.
Proof.
  intros Hj. apply map_eq. intros i. destruct (decide (i = jid)) as [->|Hne].
  - by rewrite lookup_alter_eq, lookup_insert_eq, Hj.
  - by rewrite lookup_alter_ne, lookup_insert_ne.
Qed.

Section ProgressCallback.
Variable BASE_DIR : string.
Variable env : Env.

Lemma set_columns_again j0 p m d p' m' d' :
  set_updated_at d' (set_message m' (set_progress p'
    (set_updated_at d (set_message m (set_progress p j0))))) =
  set_updated_at d' (set_message m' (set_progress p' j0)).
Proof. reflexivity. Qed.

(** what one call of the callback does, when the row is there *)
Lemma progress_callback_run jid percent msg w j :
  jobs w !! jid = Some j →
  progress_callback env jid percent msg w =
  let j' := set_updated_at (env_now env (tick w))
              (set_message msg (set_progress (Z.max 0 (Z.min 100 percent)) j)) in
  (Ok tt, set_commits (λ l, l ++ [j']) (set_jobs (<[jid := j']>) (set_tick S w))).
Proof.
  intros Hj. destruct w. unfold progress_callback. mrun. wreduce. rewrite Hj.
  rewrite !alter_alter_row, lookup_alter_eq, Hj, (alter_row _ _ _ _ Hj). done.
Qed.

Lemma progress_callback_absent jid percent msg w :
  jobs w !! jid = None → progress_callback env jid percent msg w = (Ok tt, w).
Proof.
  intros Hj. unfold progress_callback. mrun. by rewrite Hj.
Qed.

Lemma progress_callback_reporting jid j0 w0 k p msg :
  k ≤ p → 0 ≤ p ≤ 100 →
  holds (reporting jid j0 w0 k) (progress_callback env jid p msg)
        (reporting jid j0 w0 p).
Proof.
  intros Hk Hp w r w' [H1 H2 H3 H4 (j & Hj & Hr) (l & Hl & Hall & Hs)].
  rewrite (progress_callback_run _ _ _ _ _ Hj). cbn -[Z.max Z.min].
  intros [= <- <-].
  assert (Z.max 0 (Z.min 100 p) = p) as -> by lia.
  pose proof (reported_row_progress _ _ _ Hr) as Hj0.
  assert (reported_row j0 p
            (set_updated_at (env_now env (tick w)) (set_message msg (set_progress p j)))) as Hnew.
  { destruct Hr as (p1 & m1 & d1 & -> & Hp1).
    rewrite set_columns_again. eexists _, _, _. split; [done | lia]. }
  split; cbn; try done.
  - intros i Hi. rewrite lookup_insert_ne by done. auto.
  - eexists. rewrite lookup_insert_eq. split; [done | exact Hnew].
  - exists (l ++ [set_updated_at (env_now env (tick w))
                    (set_message msg (set_progress p j))]).
    rewrite Hl, <- app_assoc. split_and!; [done | |].
    + apply Forall_app. split; [|by repeat constructor].
      eapply Forall_impl; [exact Hall|]. intros; by eapply reported_row_mono.
    + rewrite fmap_app. apply StronglySorted_app.
      split_and!; [| done | repeat constructor].
      intros x1 x2 Hx1 Hx2. apply list_elem_of_fmap in Hx1 as (c & -> & Hc).
      apply list_elem_of_singleton in Hx2 as ->. cbn.
      rewrite Forall_forall in Hall. apply Hall, reported_row_progress in Hc. lia.
Qed.
End ProgressCallback.

Section PipelineReporting.
Variable BASE_DIR : string.
Variable env : Env.
Variables (jid : nat) (j0 : Job) (w0 : World).

Local Abbreviation R := (reporting jid j0 w0).
Local Abbreviation upd := (_update (Some (progress_callback env jid))).

Lemma _update_reporting k p msg :
  k ≤ p → 0 ≤ p ≤ 100 → holds (R k) (upd p msg) (R p).
Proof. intros. by apply progress_callback_reporting. Qed.

(** a step that leaves the job store alone, inside a run that ends at [k'] *)
Lemma holds_silent_then {A B} k k' (m : M A) (f : A → M B) :
  keeps db_part m → k ≤ k' →
  (∀ a, holds (R k) (f a) (R k')) → holds (R k) (m ≫= f) (R k').
Proof.
  intros Hm Hk Hf. eapply holds_bind; [by apply holds_keeps_db | exact Hf |].
  intros w. by apply reporting_mono.
Qed.

Lemma holds_update_then {B} k p k' msg (f : unit → M B) :
  k ≤ p → 0 ≤ p ≤ 100 → p ≤ k' →
  (∀ a, holds (R p) (f a) (R k')) → holds (R k) (upd p msg ≫= f) (R k').
Proof.
  intros Hk Hp Hk' Hf. eapply holds_bind; [by apply _update_reporting | exact Hf |].
  intros w. by apply reporting_mono.
Qed.

Lemma holds_silent {A} k k' (m : M A) :
  keeps db_part m → k ≤ k' → holds (R k) m (R k').
Proof.
  intros Hm Hk. eapply holds_weaken; [by apply (holds_keeps_db jid j0 w0 k) | done |].
  intros w. by apply reporting_mono.
Qed.

Lemma segments_stage_reporting k a c :
  k ≤ 15 → holds (R k) (segments_stage BASE_DIR env upd a c) (R 15).
Proof.
  intros Hk. unfold segments_stage.
  apply holds_silent_then; [apply os_path_exists_keeps | done |]. intros [].
  - apply holds_update_then; [lia..|]. intros _.
    apply holds_silent; [apply shutil_copy_keeps_db | lia].
  - apply holds_update_then; [lia..|]. intros _.
    apply holds_silent_then; [apply transcribe_audio_keeps_db | lia |]. intros _.
    apply holds_silent; [apply shutil_copy_keeps_db | lia].
Qed.

Lemma beats_stage_reporting k a c :
  k ≤ 35 → holds (R k) (beats_stage BASE_DIR env upd a c) (R 35).
Proof.
  intros Hk. unfold beats_stage.
  apply holds_silent_then; [apply os_path_exists_keeps | done |]. intros [].
  - apply holds_update_then; [lia..|]. intros _.
    apply holds_silent; [apply shutil_copy_keeps_db | lia].
  - apply holds_update_then; [lia..|]. intros _.
    apply holds_silent_then; [apply analyze_beats_keeps_db | lia |]. intros _.
    apply holds_silent; [apply shutil_copy_keeps_db | lia].
Qed.

(** Whatever the pipeline does and however it ends, the job store has only
    seen progress reports for [jid], in non-decreasing order, up to 100. *)
Lemma process_job_reporting k a v o q :
  k ≤ 5 →
  holds (R k)
    (process_job BASE_DIR env a v o (Some (progress_callback env jid)) q)
    (R 100).
Proof.
  intros Hk. unfold process_job.
  apply holds_silent_then; [apply os_makedirs_keeps_db | lia |]. intros _.
  apply holds_update_then; [lia..|]. intros _.
  apply holds_silent_then; [apply _hash_file_keeps | lia |]. intros h.
  eapply holds_bind; [apply (segments_stage_reporting 5); lia | |].
  2: { intros w. apply reporting_mono. lia. }
  intros _.
  eapply holds_bind; [apply (beats_stage_reporting 15); lia | |].
  2: { intros w. apply reporting_mono. lia. }
  intros _.
  apply holds_update_then; [lia..|]. intros _.
  apply holds_silent_then; [apply _run_manim_keeps_db | lia |]. intros manim_out.
  apply holds_silent_then; [apply _unique_id_keeps_db | lia |]. intros uid.
  apply holds_silent_then; [apply shutil_copy_keeps_db | lia |]. intros _.
  apply holds_update_then; [lia..|]. intros _.
  apply holds_silent_then; [apply _overlay_video_keeps_db | lia |]. intros _.
  apply holds_update_then; [lia..|]. intros _.
  apply holds_silent; [apply keeps_ret | lia].
Qed.
End PipelineReporting.

(** ** One iteration of the worker, step by step *)

Section WorkerSteps.
Variable BASE_DIR : string.
Variable env : Env.

Lemma mark_running_run jid w job :
  jobs w !! jid = Some job →
  mark_running env jid w =
  let j := running_of (env_now env (tick w)) job in
  (Ok tt, set_commits (λ l, l ++ [j]) (set_jobs (<[jid := j]>) (set_tick S w))).
Proof.
  intros Hj. destruct w. unfold mark_running. mrun. wreduce.
  rewrite !alter_alter_row, lookup_alter_eq, Hj, (alter_row _ _ _ _ Hj). done.
Qed.

Lemma on_success_run jid job output_path w j :
  jobs w !! jid = Some j →
  on_success env jid job output_path w =
  let j' := done_of (env_now env (S (tick w))) output_path j in
  (Ok tt,
   set_commits (λ l, l ++ [j'])
     (set_jobs (<[jid := j']>)
        (set_medias (λ l, l ++ [mkMedia (job_project_id job) (Some (job_id job))
                                   output_path "video" (env_now env (tick w))])
           (set_tick (λ t, S (S t)) w)))).
Proof.
  intros Hj. destruct w. unfold on_success. mrun. wreduce.
  rewrite !alter_alter_row, lookup_alter_eq, Hj, (alter_row _ _ _ _ Hj). done.
Qed.

Lemma on_error_run jid e w j :
  jobs w !! jid = Some j →
  on_error env jid e w =
  let j' := error_of (env_now env (tick w)) e j in
  (Ok tt, set_commits (λ l, l ++ [j']) (set_jobs (<[jid := j']>) (set_tick S w))).
Proof.
  intros Hj. destruct w. unfold on_error. mrun. wreduce.
  rewrite !alter_alter_row, lookup_alter_eq, Hj, (alter_row _ _ _ _ Hj). done.
Qed.

Lemma task_done_run w :
  1 ≤ unfinished_tasks w →
  task_done w = (Ok tt, set_unfinished (λ _, unfinished_tasks w - 1) w).
Proof. intros H. unfold task_done. by rewrite bool_decide_eq_false_2 by lia. Qed.
End WorkerSteps.

(** ** The rows a job goes through *)

Section WorkerIteration.
Variable BASE_DIR : string.
Variable env : Env.

Lemma reported_running job d j :
  reported_row (running_of d job) 100 j → running_row job j.
Proof.
  intros (p & m & d' & -> & Hp). cbn in Hp. repeat split; cbn; try done; lia.
Qed.

(** An iteration on an existing row always returns.  It leaves one block of
    persisted rows, and the last of them is the row as it stays in the
    table; which terminal row it is follows the outcome of the pipeline. *)
Lemma worker_iteration_spec jid w job :
  jobs w !! jid = Some job → 1 ≤ unfinished_tasks w →
  ∃ w1 r w2 w' block fin,
    mark_running env jid w = (Ok tt, w1) ∧
    run_pipeline BASE_DIR env jid job w1 = (r, w2) ∧
    worker_iteration BASE_DIR env jid w = (Ok tt, w') ∧
    jobs w' !! jid = Some fin ∧
    (∀ i, i ≠ jid → jobs w' !! i = jobs w !! i) ∧
    JOB_QUEUE w' = JOB_QUEUE w ∧
    unfinished_tasks w' = unfinished_tasks w - 1 ∧
    commits w' = commits w ++ block ∧
    job_block job block ∧ last block = Some fin ∧
    match r with
    | Ok output_path =>
        done_row job fin ∧ job_output_path fin = Some output_path ∧
        medias w' = medias w ++
          [mkMedia (job_project_id job) (Some (job_id job)) output_path "video"
                   (env_now env (tick w2))]
    | Raise e =>
        error_row job fin ∧ job_error fin = Some (str e) ∧ medias w' = medias w
    end.
Proof.
  intros Hjob Hun.
  pose proof (mark_running_run env jid w job Hjob) as Hmark. cbn zeta in Hmark.
  set (j0 := running_of (env_now env (tick w)) job) in *.
  set (w1 := set_commits _ _) in Hmark.
  assert (jobs w1 !! jid = Some j0) as Hj0 by (subst w1; wsimpl; apply lookup_insert_eq).
  destruct (run_pipeline BASE_DIR env jid job w1) as [r w2] eqn:Hrun.
  pose proof (process_job_reporting BASE_DIR env jid j0 w1 5 _ _ _ _ ltac:(done)
                w1 r w2 (reporting_start jid j0 w1 Hj0) Hrun)
    as [Hm Hq Hu Ho (j & Hj & Hrow) (l & Hl & Hall & Hsort)].
  assert (Forall (running_row job) l) as Hall'.
  { eapply Forall_impl; [exact Hall|]. intros ?. apply reported_running. }
  assert (running_row job j0 ∧ job_progress j0 = 5) as [Hr0 Hp0] by (by repeat split).
  assert (StronglySorted Z.le (job_progress <$> j0 :: l)) as Hsort'.
  { cbn [fmap list_fmap]. constructor; [done|].
    apply Forall_fmap. eapply Forall_impl; [exact Hall|].
    intros c Hc. apply reported_row_progress in Hc. cbn in *. lia. }
  assert (unfinished_tasks w2 = unfinished_tasks w) as Hu2 by (rewrite Hu; subst w1; by wsimpl).
  assert (JOB_QUEUE w2 = JOB_QUEUE w) as Hq2 by (rewrite Hq; subst w1; by wsimpl).
  assert (medias w2 = medias w) as Hm2 by (rewrite Hm; subst w1; by wsimpl).
  assert (∀ i, i ≠ jid → jobs w2 !! i = jobs w !! i) as Ho2.
  { intros i Hi. rewrite Ho by done. subst w1; wsimpl. by rewrite lookup_insert_ne. }
  assert (commits w2 = commits w ++ j0 :: l) as Hc2.
  { rewrite Hl. subst w1; wsimpl. by rewrite <- app_assoc. }
  apply reported_running in Hrow as Hjrun.
  destruct Hjrun as (Hsame & Hst & Hpr & Hout & Herr).
  destruct r as [output_path|e].
  - pose proof (on_success_run env jid job output_path w2 j Hj) as Hfin.
    cbn zeta in Hfin. set (fin := done_of _ _ j) in Hfin.
    set (w3 := set_commits _ _) in Hfin.
    assert (done_row job fin) as Hdone.
    { subst fin. destruct Hsame as (?&?&?&?&?&?). repeat split; cbn; eauto. }
    exists w1, (Ok output_path), w2, (set_unfinished (λ _, unfinished_tasks w - 1) w3),
      (j0 :: l ++ [fin]), fin.
    split_and!; try done.
    + unfold worker_iteration, try_finally. mrun. rewrite Hjob.
      fold (mark_running env jid). rewrite Hmark. unfold try_except.
      fold (run_pipeline BASE_DIR env jid job). rewrite Hrun.
      fold (on_success env jid job output_path). rewrite Hfin.
      rewrite task_done_run by (subst w3; wsimpl; lia).
      subst w3; wsimpl. by rewrite Hu2.
    + subst w3; wsimpl. apply lookup_insert_eq.
    + intros i Hi. subst w3; wsimpl. rewrite lookup_insert_ne by done. auto.
    + subst w3; wsimpl. by rewrite Hc2, <- app_assoc.
    + exists j0, l, fin. split_and!; try done. by left.
    + by rewrite app_comm_cons, last_snoc.
    + subst w3; wsimpl. by rewrite Hm2.
  - pose proof (on_error_run env jid e w2 j Hj) as Hfin.
    cbn zeta in Hfin. set (fin := error_of _ _ j) in Hfin.
    set (w3 := set_commits _ _) in Hfin.
    assert (error_row job fin) as Hdone.
    { subst fin. destruct Hsame as (?&?&?&?&?&?). repeat split; cbn; eauto. }
    exists w1, (Raise e), w2, (set_unfinished (λ _, unfinished_tasks w - 1) w3),
      (j0 :: l ++ [fin]), fin.
    split_and!; try done.
    + unfold worker_iteration, try_finally. mrun. rewrite Hjob.
      fold (mark_running env jid). rewrite Hmark. unfold try_except.
      fold (run_pipeline BASE_DIR env jid job). rewrite Hrun.
      fold (on_error env jid e). rewrite Hfin.
      rewrite task_done_run by (subst w3; wsimpl; lia).
      subst w3; wsimpl. by rewrite Hu2.
    + subst w3; wsimpl. apply lookup_insert_eq.
    + intros i Hi. subst w3; wsimpl. rewrite lookup_insert_ne by done. auto.
    + subst w3; wsimpl. by rewrite Hc2, <- app_assoc.
    + exists j0, l, fin. split_and!; try done. by right.
    + by rewrite app_comm_cons, last_snoc.
Qed.
End WorkerIteration.

(** ** The application as a whole: what every reachable state satisfies *)

Lemma fresh_job_id_fresh (js : gmap nat Job) : js !! fresh_job_id js = None.
Proof.
  apply not_elem_of_dom. intros Hin. apply elem_of_elements in Hin.
  apply max_list_elem_of_le in Hin. unfold fresh_job_id in Hin. lia.
Qed.

Lemma job_block_rows job b :
  job_block job b →
  Forall (λ c, job_id c = job_id job ∧ job_status c ≠ "queued") b.
Proof.
  intros (start & mid & fin & -> & Hs & _ & _ & Hmid & _ & Hfin).
  assert (∀ c, running_row job c → job_id c = job_id job ∧ job_status c ≠ "queued") as Hrun.
  { intros c ((?&_) & Hst & _). by rewrite Hst. }
  constructor; [by apply Hrun|]. apply Forall_app. split.
  - eapply Forall_impl; [exact Hmid | exact Hrun].
  - constructor; [|constructor].
    destruct Hfin as [((?&_) & Hst & _) | ((?&_) & Hst & _)]; by rewrite Hst.
Qed.

Lemma history_app k l1 l2 : history k (l1 ++ l2) = history k l1 ++ history k l2.
Proof. apply filter_app. Qed.

Lemma filter_all {A} (P : A → Prop) `{∀ x, Decision (P x)} (l : list A) :
  Forall P l → filter P l = l.
Proof.
  induction 1 as [|x l Hx _ IH]; [done|].
  by rewrite filter_cons_True, IH.
Qed.

Lemma filter_none {A} (P : A → Prop) `{∀ x, Decision (P x)} (l : list A) :
  Forall (λ x, ¬ P x) l → filter P l = [].
Proof.
  induction 1 as [|x l Hx _ IH]; [done|].
  by rewrite filter_cons_False, IH.
Qed.

Section Enqueue.
Variable env : Env.

Lemma enqueue_job_spec project_id audio_path video_path w r w' :
  enqueue_job env project_id audio_path video_path w = (r, w') →
  db_part w' = db_part w ∨
  ∃ j, r = Ok (job_id j) ∧ job_id j = fresh_job_id (jobs w) ∧ queued_row j ∧
       job_audio_path j = audio_path ∧ job_video_path j = video_path ∧
       job_project_id j = project_id ∧
       jobs w' = <[job_id j := j]> (jobs w) ∧
       commits w' = commits w ++ [j] ∧
       JOB_QUEUE w' = JOB_QUEUE w ++ [job_id j] ∧
       unfinished_tasks w' = unfinished_tasks w + 1.
Proof.
  destruct w. unfold enqueue_job, db_add_job. mrun. wsimpl.
  case_bool_decide; intros [= <- <-]; [by left | right].
  eexists (mkJob _ _ _ _ _ _ _ _ _ _ _ _). split; [reflexivity|]. done.
Qed.
End Enqueue.

Lemma history_same k l b :
  Forall (λ c, job_id c = k) b → history k (l ++ b) = history k l ++ b.
Proof. intros H. unfold history. by rewrite filter_app, (filter_all _ b). Qed.

Lemma history_other k k' l b :
  k ≠ k' → Forall (λ c, job_id c = k') b → history k (l ++ b) = history k l.
Proof.
  intros Hne H. unfold history. rewrite filter_app, (filter_none _ b), app_nil_r; [done|].
  eapply Forall_impl; [exact H|]. cbn. intros c -> ?. done.
Qed.

Lemma history_absent k l (js : gmap nat Job) :
  (∀ c, c ∈ l → is_Some (js !! job_id c)) → js !! k = None → history k l = [].
Proof.
  intros Hall Hk. apply filter_none, Forall_forall. intros c Hc Heq.
  apply Hall in Hc as [? Hc]. congruence.
Qed.

Lemma enqueued_worker_rows l b :
  Forall (λ c, job_status c ≠ "queued") b → enqueued (l ++ b) = enqueued l.
Proof.
  intros H. unfold enqueued. rewrite filter_app, (filter_none _ b), app_nil_r; [done|].
  eapply Forall_impl; [exact H|]. done.
Qed.

Lemma worker_log_worker_rows l b :
  Forall (λ c, job_status c ≠ "queued") b → worker_log (l ++ b) = worker_log l ++ b.
Proof. intros H. unfold worker_log. by rewrite filter_app, (filter_all _ b). Qed.

Lemma enqueued_queued_row l j :
  job_status j = "queued" → enqueued (l ++ [j]) = enqueued l ++ [job_id j].
Proof.
  intros H. unfold enqueued.
  by rewrite filter_app, (filter_all _ [j]), fmap_app by (by repeat constructor).
Qed.

Lemma worker_log_queued_row l j :
  job_status j = "queued" → worker_log (l ++ [j]) = worker_log l.
Proof.
  intros H. unfold worker_log. rewrite filter_app, (filter_none _ [j]), app_nil_r; [done|].
  constructor; [|constructor]. cbn. auto.
Qed.

Section Invariant.
Variable BASE_DIR : string.
Variable env : Env.

Lemma Inv_initial s : initial s → Inv s.
Proof.
  destruct s as [w alive]. intros (Hq & Hc & Hu & Ha & Hrows). cbn in *.
  split; cbn; rewrite ?Hq, ?Hc, ?Hu; try done.
  - constructor.
  - intros k j Hj. by apply Hrows in Hj as [? _].
  - intros c Hc'. by apply elem_of_nil in Hc'.
  - intros k Hk. by apply elem_of_nil in Hk.
  - intros k j Hj _. left. split; [done|]. by apply Hrows in Hj as [_ ?].
  - constructor.
  - exists [], []. split_and!; [done | done | constructor].
Qed.

Lemma Inv_db_part s w' :
  db_part w' = db_part (world s) → Inv s → Inv (mkSystem w' (worker_alive s)).
Proof.
  unfold db_part. intros [= E1 E2 E3 E4 E5] [H1 H2 H3 H4 H5 H6 H7 H8 H9].
  split; cbn; rewrite ?E1, ?E2, ?E3, ?E4, ?E5; done.
Qed.

Lemma Inv_create s project_id audio_path video_path :
  Inv s → Inv (step BASE_DIR env s (CreateJob project_id audio_path video_path)).
Proof.
  intros HI. cbn [step].
  destruct (enqueue_job env project_id audio_path video_path (world s))
    as [r w'] eqn:E. cbn [snd].
  apply enqueue_job_spec in E as [E | (j & -> & Hid & Hq & _ & _ & _ & Hjobs & Hcom & Hqueue & Hun)].
  { by apply Inv_db_part. }
  destruct HI as [H1 H2 H3 H4 H5 H6 H7 H8 (processed & blocks & Hp1 & Hp2 & Hp3)].
  pose proof (fresh_job_id_fresh (jobs (world s))) as Hfresh. rewrite <- Hid in Hfresh.
  assert (job_id j ∉ JOB_QUEUE (world s)) as Hnotin.
  { intros Hin. apply H6 in Hin as (? & ? & _). congruence. }
  assert (job_status j = "queued") as Hst by apply Hq.
  split; cbn [world worker_alive]; rewrite ?Hjobs, ?Hcom, ?Hqueue, ?Hun.
  - done.
  - rewrite length_app. cbn. lia.
  - apply NoDup_app. split_and!; [done | | apply NoDup_singleton].
    intros x Hx ->%list_elem_of_singleton. done.
  - intros k j' [[<- <-]|[Hne Hj']]%lookup_insert_Some; eauto.
  - intros c [Hc| ->%list_elem_of_singleton]%elem_of_app.
    + apply lookup_insert_is_Some'. right. auto.
    + rewrite lookup_insert_eq. eauto.
  - intros k [Hk| ->%list_elem_of_singleton]%elem_of_app.
    + assert (k ≠ job_id j) as Hne by (intros ->; done).
      destruct (H6 k Hk) as (j' & Hj' & Hq' & Hh).
      exists j'. rewrite lookup_insert_ne by done. split_and!; try done.
      rewrite (history_other k (job_id j)); [done | done | by repeat constructor].
    + exists j. rewrite lookup_insert_eq. split_and!; try done.
      rewrite history_same by (by repeat constructor).
      by rewrite (history_absent _ _ _ H5 Hfresh).
  - intros k j' Hj' Hk.
    assert (k ≠ job_id j) as Hne.
    { intros ->. apply Hk, elem_of_app. right. by apply list_elem_of_singleton. }
    rewrite lookup_insert_ne in Hj' by done.
    rewrite (history_other k (job_id j)); [| done | by repeat constructor].
    apply H7; [done|]. intros Hin. apply Hk, elem_of_app. by left.
  - rewrite enqueued_queued_row by done. apply NoDup_app. split_and!.
    + done.
    + intros x Hx ->%list_elem_of_singleton.
      apply list_elem_of_fmap in Hx as (c & Hid' & Hc).
      apply list_elem_of_filter in Hc as [_ Hc]. apply H5 in Hc as [? Hc]. congruence.
    + apply NoDup_singleton.
  - exists processed, blocks. split_and!; [| |done].
    + by rewrite enqueued_queued_row, app_assoc, Hp1.
    + by rewrite worker_log_queued_row.
Qed.
End Invariant.

Section InvariantWork.
Variable BASE_DIR : string.
Variable env : Env.

(** what a turn of the worker does in a state satisfying the invariant *)
Lemma work_spec s jid rest :
  Inv s → JOB_QUEUE (world s) = jid :: rest →
  ∃ job w1 r w2 w' block fin,
    jobs (world s) !! jid = Some job ∧ queued_row job ∧
    history jid (commits (world s)) = [job] ∧
    mark_running env jid (set_queue (λ _, rest) (world s)) = (Ok tt, w1) ∧
    run_pipeline BASE_DIR env jid job w1 = (r, w2) ∧
    step BASE_DIR env s Work = mkSystem w' true ∧
    jobs w' !! jid = Some fin ∧
    (∀ i, i ≠ jid → jobs w' !! i = jobs (world s) !! i) ∧
    JOB_QUEUE w' = rest ∧
    unfinished_tasks w' = Z.of_nat (length rest) ∧
    commits w' = commits (world s) ++ block ∧
    job_block job block ∧ last block = Some fin ∧
    match r with
    | Ok output_path => done_row job fin ∧ job_output_path fin = Some output_path
    | Raise e => error_row job fin ∧ job_error fin = Some (str e)
    end.
Proof.
  intros HI Hq.
  destruct (inv_queue s HI jid) as (job & Hjob & Hqr & Hh).
  { rewrite Hq. by left. }
  pose proof (inv_unfinished s HI) as Hun. rewrite Hq in Hun. cbn [length] in Hun.
  destruct (worker_iteration_spec BASE_DIR env jid
              (set_queue (λ _, rest) (world s)) job)
    as (w1 & r & w2 & w' & block & fin & Hmark & Hrun & Hit & Hfin & Hoth & Hqueue
        & Hunf & Hcom & Hblock & Hlast & Hres).
  { by wsimpl. } { wsimpl. lia. }
  cbn [set_queue jobs JOB_QUEUE unfinished_tasks commits] in Hoth, Hqueue, Hunf, Hcom.
  exists job, w1, r, w2, w', block, fin. split_and!; try done.
  - cbn [step]. rewrite (inv_alive s HI). cbn [worker_loop].
    rewrite Hq, bind_run, Hit. done.
  - lia.
  - destruct r; [destruct Hres as (? & ? & _) | destruct Hres as (? & ? & _)]; done.
Qed.

Lemma Inv_work s : Inv s → Inv (step BASE_DIR env s Work).
Proof.
  intros HI. destruct (JOB_QUEUE (world s)) as [|jid rest] eqn:Hq.
  { cbn [step]. rewrite (inv_alive s HI). cbn [worker_loop]. rewrite Hq.
    destruct s; cbn in *. by rewrite <- (inv_alive _ HI). }
  destruct (work_spec s jid rest HI Hq)
    as (job & w1 & r & w2 & w' & block & fin & Hjob & Hqr & Hh & _ & _ & -> & Hfin
        & Hoth & Hqueue & Hunf & Hcom & Hblock & Hlast & Hres).
  pose proof (job_block_rows _ _ Hblock) as Hrows.
  assert (job_id job = jid) as Hjid by (by eapply inv_keys).
  rewrite Hjid in Hrows.
  assert (Forall (λ c, job_id c = jid) block) as Hids.
  { eapply Forall_impl; [exact Hrows|]. by intros ? [? _]. }
  assert (Forall (λ c, job_status c ≠ "queued") block) as Hsts.
  { eapply Forall_impl; [exact Hrows|]. by intros ? [_ ?]. }
  assert (job_id fin = jid) as Hfid.
  { destruct r; destruct Hres as [((-> & _) & _) _]; done. }
  pose proof (inv_nodup s HI) as Hnd. rewrite Hq in Hnd.
  apply NoDup_cons in Hnd as [Hnotin Hnd].
  destruct HI as [H1 H2 H3 H4 H5 H6 H7 H8 (processed & blocks & Hp1 & Hp2 & Hp3)].
  split; cbn [world worker_alive]; rewrite ?Hqueue, ?Hcom.
  - done.
  - done.
  - done.
  - intros k j Hj. destruct (decide (k = jid)) as [->|Hne].
    + congruence.
    + rewrite Hoth in Hj by done. eauto.
  - intros c [Hc|Hc]%elem_of_app.
    + destruct (decide (job_id c = jid)) as [->|Hne]; [by rewrite Hfin|].
      rewrite Hoth by done. auto.
    + rewrite Forall_forall in Hids. rewrite (Hids c Hc), Hfin. eauto.
  - intros k Hk.
    assert (k ≠ jid) as Hne by (intros ->; done).
    destruct (H6 k) as (j & Hj & Hjq & Hjh); [rewrite Hq; by right|].
    exists j. rewrite Hoth by done. split_and!; try done.
    by rewrite (history_other k jid).
  - intros k j Hj Hk. destruct (decide (k = jid)) as [->|Hne].
    + right. exists job, block. rewrite history_same, Hh by done.
      split_and!; try done. congruence.
    + rewrite Hoth in Hj by done. rewrite (history_other k jid) by done.
      apply H7; [done|]. rewrite Hq. intros [?|?]%elem_of_cons; done.
  - by rewrite enqueued_worker_rows.
  - exists (processed ++ [jid]), (blocks ++ [block]). split_and!.
    + rewrite enqueued_worker_rows, <- Hp1, Hq, <- app_assoc by done. done.
    + rewrite worker_log_worker_rows, Hp2, concat_app by done. cbn.
      by rewrite app_nil_r.
    + apply Forall2_app; [done|]. constructor; [|constructor]. by exists job.
Qed.

Lemma Inv_step s a : Inv s → Inv (step BASE_DIR env s a).
Proof.
  destruct a as [p a v|path data|].
  - apply Inv_create.
  - intros HI. cbn [step]. apply Inv_db_part; [|done]. by wsimpl.
  - apply Inv_work.
Qed.

Lemma Inv_run acts : ∀ s, Inv s → Inv (run BASE_DIR env s acts).
Proof.
  induction acts as [|a acts IH]; intros s HI; [done|].
  cbn. apply IH. by apply Inv_step.
Qed.

Lemma Inv_reachable s acts : initial s → Inv (run BASE_DIR env s acts).
Proof. intros. by apply Inv_run, Inv_initial. Qed.
End InvariantWork.

(** * Properties of the worker and the job store *)

Lemma job_block_last job block j :
  job_block job block → last block = Some j → done_row job j ∨ error_row job j.
Proof.
  intros (start & mid & fin & -> & _ & _ & _ & _ & _ & Hfin).
  rewrite app_comm_cons, last_snoc. by intros [= <-].
Qed.

Lemma queued_row_consistent j : queued_row j → row_consistent j.
Proof.
  intros (Hst & Hp & Ho & He). unfold row_consistent. rewrite Hst, Ho, He.
  split_and!; try done. all: split; [by intros [? ?] | done].
Qed.

Lemma terminal_row_of_queued c j :
  queued_row c → done_row c j ∨ error_row c j →
  row_consistent j ∧ (job_status j = "done" ∨ job_status j = "error").
Proof.
  intros (_ & _ & Ho & He)
    [(_ & Hst & Hp & Hout & Herr) | (_ & Hst & Hp & Herr & Hout & _)].
  - unfold row_consistent. rewrite Hst, Herr, He. split_and!; try done; eauto.
    all: split; [by intros [? ?] | done].
  - unfold row_consistent. rewrite Hst, Hout, Ho. split_and!; try done; eauto.
    all: split; [by intros [? ?] | done].
Qed.

Section WorkerProperties.
Variable BASE_DIR : string.
Variable env : Env.

(** C2.  In every state the application can reach, a job that this process
    has taken from the queue has status done or error.  A done row has
    progress 100, an output path and no error detail; an error row has
    progress 0, an error detail and no output path.  Over all rows, the
    output path is set exactly when the status is done and the error detail
    exactly when it is error. *)
Theorem terminal_row_consistent (s0 : System) (acts : list action) (k : nat) (j : Job) :
  initial s0 →
  jobs (world (run BASE_DIR env s0 acts)) !! k = Some j →
  (k ∉ JOB_QUEUE (world (run BASE_DIR env s0 acts)) →
   history k (commits (world (run BASE_DIR env s0 acts))) ≠ [] →
     job_status j = "done" ∨ job_status j = "error") ∧
  (job_status j = "done" →
     job_progress j = 100 ∧ is_Some (job_output_path j) ∧ job_error j = None) ∧
  (job_status j = "error" →
     job_progress j = 0 ∧ is_Some (job_error j) ∧ job_output_path j = None) ∧
  (is_Some (job_output_path j) ↔ job_status j = "done") ∧
  (is_Some (job_error j) ↔ job_status j = "error").
Proof.
  intros Hinit Hj.
  pose proof (Inv_reachable BASE_DIR env s0 acts Hinit) as HI.
  set (s := run BASE_DIR env s0 acts) in *.
  destruct (decide (k ∈ JOB_QUEUE (world s))) as [Hin|Hout].
  - destruct (inv_queue s HI k Hin) as (j' & Hj' & Hq & _).
    assert (j' = j) as -> by congruence.
    split; [done | by apply queued_row_consistent].
  - destruct (inv_done s HI k j Hj Hout)
      as [[Hh Hrow] | (c & block & _ & Hq & _ & Hblock & Hlast)].
    + split; [by intros _ ? | exact Hrow].
    + destruct (terminal_row_of_queued c j Hq (job_block_last _ _ _ Hblock Hlast))
        as [Hrow Hst].
      split; [done | exact Hrow].
Qed.

(** C3.  The callback persists the reported percentage clamped into
    [0,100].  In every reachable state the persisted rows of a job start with
    the queued row at progress 0, continue with running rows whose progress
    never decreases, and end, once the job has been processed, with one
    terminal row: progress 100 with status done, or progress 0 with status
    error. *)
Theorem progress_monotone (s0 : System) (acts : list action) (k : nat) :
  initial s0 →
  (∀ w jid j percent msg, jobs w !! jid = Some j →
     ∃ w' j', progress_callback env jid percent msg w = (Ok tt, w') ∧
              jobs w' !! jid = Some j' ∧ commits w' = commits w ++ [j'] ∧
              job_progress j' = Z.max 0 (Z.min 100 percent) ∧
              0 ≤ job_progress j' ≤ 100) ∧
  (history k (commits (world (run BASE_DIR env s0 acts))) = [] ∨
   ∃ c pre term,
     history k (commits (world (run BASE_DIR env s0 acts))) = c :: pre ++ term ∧
     job_status c = "queued" ∧ job_progress c = 0 ∧
     Forall (λ r, job_status r = "running") pre ∧
     StronglySorted Z.le (job_progress <$> c :: pre) ∧
     Forall (λ r, 0 ≤ job_progress r ≤ 100) (c :: pre ++ term) ∧
     (term = [] ∨
      ∃ fin, term = [fin] ∧
             ((job_status fin = "done" ∧ job_progress fin = 100) ∨
              (job_status fin = "error" ∧ job_progress fin = 0)))).
Proof.
  intros Hinit. split.
  { intros w jid j percent msg Hj.
    rewrite (progress_callback_run env jid percent msg w j Hj). cbn zeta.
    eexists _, _. split; [reflexivity|]. wsimpl.
    rewrite lookup_insert_eq. split_and!; try done; cbn; lia. }
  pose proof (Inv_reachable BASE_DIR env s0 acts Hinit) as HI.
  set (s := run BASE_DIR env s0 acts) in *.
  destruct (jobs (world s) !! k) as [j|] eqn:Hj.
  2: { left. eapply history_absent; [apply (inv_commits s HI) | done]. }
  destruct (decide (k ∈ JOB_QUEUE (world s))) as [Hin|Hout].
  - right. destruct (inv_queue s HI k Hin) as (j' & Hj' & (Hst & Hp & _) & Hh).
    exists j', [], []. rewrite Hh, Hp. cbn.
    split_and!; try done; repeat constructor; lia.
  - destruct (inv_done s HI k j Hj Hout)
      as [[Hh _] | (c & block & Hh & (Hst & Hp & _) & _ & Hblock & Hlast)];
      [by left | right].
    destruct Hblock
      as (start & mid & fin & -> & Hs & Hs5 & _ & Hmid & Hsort & Hfin).
    exists c, (start :: mid), [fin]. rewrite Hh.
    assert (Forall (λ r, 5 ≤ job_progress r ≤ 100) (start :: mid)) as Hbounds.
    { constructor; [lia|]. eapply Forall_impl; [exact Hmid|].
      by intros r (_ & _ & ? & _). }
    split_and!; try done.
    + constructor; [apply Hs|]. eapply Forall_impl; [exact Hmid|].
      by intros r (_ & ? & _).
    + cbn [fmap list_fmap]. constructor; [exact Hsort|].
      rewrite Hp. change (Forall (Z.le 0) (job_progress <$> start :: mid)).
      apply Forall_fmap. eapply Forall_impl; [exact Hbounds|].
      cbn. intros; lia.
    + constructor; [lia|]. change (Forall (λ r, 0 ≤ job_progress r ≤ 100) ((start :: mid) ++ [fin])).
      apply Forall_app. split.
      * eapply Forall_impl; [exact Hbounds|]. cbn. intros; lia.
      * constructor; [|constructor].
        destruct Hfin as [(_ & _ & -> & _) | (_ & _ & -> & _)]; lia.
    + right. exists fin. split; [done|].
      destruct Hfin as [(_ & ? & ? & _) | (_ & ? & ? & _)]; auto.
Qed.

(** what has been persisted stays *)
Lemma step_commits_grow (s : System) (a : action) :
  Inv s → ∃ l, commits (world (step BASE_DIR env s a)) = commits (world s) ++ l.
Proof.
  intros HI. destruct a as [p a v|path data|].
  - cbn [step world]. destruct (enqueue_job env p a v (world s)) as [r w'] eqn:E.
    apply enqueue_job_spec in E as [E | (j & _ & _ & _ & _ & _ & _ & _ & Hc & _)].
    + unfold db_part in E. injection E as _ _ _ _ E. cbn [snd]. rewrite E.
      exists []. by rewrite app_nil_r.
    + cbn [snd]. eauto.
  - exists []. by rewrite app_nil_r.
  - destruct (JOB_QUEUE (world s)) as [|jid rest] eqn:Hq.
    { cbn [step]. rewrite (inv_alive s HI). cbn [worker_loop]. rewrite Hq.
      exists []. by rewrite app_nil_r. }
    destruct (work_spec BASE_DIR env s jid rest HI Hq)
      as (? & ? & ? & ? & ? & block & ? & _ & _ & _ & _ & _ & -> & _ & _ & _ & _ & Hc & _).
    cbn. eauto.
Qed.

Lemma run_commits_grow (acts : list action) : ∀ (s : System),
  Inv s → ∃ l, commits (world (run BASE_DIR env s acts)) = commits (world s) ++ l.
Proof.
  induction acts as [|a acts IH]; intros s HI.
  { exists []. by rewrite app_nil_r. }
  destruct (step_commits_grow s a HI) as [l1 Hl1].
  destruct (IH _ (Inv_step BASE_DIR env s a HI)) as [l2 Hl2].
  exists (l1 ++ l2).
  change (run BASE_DIR env s (a :: acts))
    with (run BASE_DIR env (step BASE_DIR env s a) acts).
  by rewrite Hl2, Hl1, app_assoc.
Qed.

(** rows are never deleted *)
Lemma step_keeps_rows (s : System) (a : action) (k : nat) :
  Inv s → is_Some (jobs (world s) !! k) →
  is_Some (jobs (world (step BASE_DIR env s a)) !! k).
Proof.
  intros HI Hk. destruct a as [p a v|path data|].
  - cbn [step world]. destruct (enqueue_job env p a v (world s)) as [r w'] eqn:E.
    apply enqueue_job_spec in E as [E | (j & _ & _ & _ & _ & _ & _ & Hjobs & _)].
    + unfold db_part in E. injection E as E _ _ _ _. cbn [snd]. by rewrite E.
    + cbn [snd]. rewrite Hjobs. apply lookup_insert_is_Some'. by right.
  - done.
  - destruct (JOB_QUEUE (world s)) as [|jid rest] eqn:Hq.
    { cbn [step]. rewrite (inv_alive s HI). cbn [worker_loop]. by rewrite Hq. }
    destruct (work_spec BASE_DIR env s jid rest HI Hq)
      as (? & ? & ? & ? & ? & ? & ? & _ & _ & _ & _ & _ & -> & Hf & Ho & _).
    cbn. destruct (decide (k = jid)) as [->|Hne]; [by rewrite Hf|]. by rewrite Ho.
Qed.

Lemma run_keeps_rows (acts : list action) : ∀ (s : System) (k : nat),
  Inv s → is_Some (jobs (world s) !! k) →
  is_Some (jobs (world (run BASE_DIR env s acts)) !! k).
Proof.
  induction acts as [|a acts IH]; intros s k HI Hk; [done|].
  cbn. apply IH; [by apply Inv_step | by apply step_keeps_rows].
Qed.

Lemma run_cons (s : System) (a : action) (acts : list action) :
  run BASE_DIR env s (a :: acts) = run BASE_DIR env (step BASE_DIR env s a) acts.
Proof. reflexivity. Qed.

(** draining the queue: as many turns of the worker as there are entries *)
Lemma drain_spec (n : nat) : ∀ s,
  Inv s → length (JOB_QUEUE (world s)) = n →
  worker_alive (run BASE_DIR env s (replicate n Work)) = true ∧
  JOB_QUEUE (world (run BASE_DIR env s (replicate n Work))) = [] ∧
  ∀ k, k ∈ JOB_QUEUE (world s) →
    ∃ j, jobs (world (run BASE_DIR env s (replicate n Work))) !! k = Some j ∧
         (job_status j = "done" ∨ job_status j = "error").
Proof.
  induction n as [|n IH]; intros s HI Hlen.
  - cbn. destruct (JOB_QUEUE (world s)) eqn:Hq; [|done].
    split_and!; [apply HI | done |]. intros k Hk. by apply elem_of_nil in Hk.
  - destruct (JOB_QUEUE (world s)) as [|jid rest] eqn:Hq; [done|].
    pose proof (Inv_work BASE_DIR env s HI) as HI'.
    destruct (work_spec BASE_DIR env s jid rest HI Hq)
      as (job & w1 & r & w2 & w' & block & fin & Hjob & _ & _ & _ & _ & Hstep & Hfin
          & _ & Hqueue & _).
    change (replicate (S n) Work) with (Work :: replicate n Work).
    rewrite run_cons.
    remember (step BASE_DIR env s Work) as s1 eqn:Es1.
    assert (JOB_QUEUE (world s1) = rest) as Hq1 by (by rewrite Hstep).
    assert (jobs (world s1) !! jid = Some fin) as Hfin1 by (by rewrite Hstep).
    destruct (IH s1 HI') as (Ha & He & Hall).
    { rewrite Hq1. cbn in Hlen. lia. }
    split_and!; [done | done |].
    intros k [->|Hk]%elem_of_cons.
    + pose proof (Inv_run BASE_DIR env (replicate n Work) _ HI') as HI''.
      (* the row of [jid] is terminal after its turn and nobody touches it again *)
      destruct (run_keeps_rows (replicate n Work) s1 jid HI') as [j Hj]; [eauto|].
      exists j. split; [done|].
      destruct (inv_done _ HI'' jid j Hj) as [[Hh _] | (c & b & _ & _ & _ & Hb & Hl)].
      { rewrite He. apply not_elem_of_nil. }
      { (* [jid] was created by this process: its history is not empty *)
        exfalso.
        destruct (inv_queue s HI jid) as (j0 & _ & _ & Hh0); [rewrite Hq; by left|].
        destruct (step_commits_grow s Work HI) as [l1 Hl1]. rewrite <- Es1 in Hl1.
        destruct (run_commits_grow (replicate n Work) s1 HI') as [l2 Hl2].
        rewrite Hl2, Hl1, !history_app, Hh0 in Hh. done. }
      destruct (job_block_last _ _ _ Hb Hl) as [(_ & ? & _) | (_ & ? & _)]; auto.
    + apply Hall. by rewrite Hq1.
Qed.

(** C5.  No failure of a job ends the worker.  In every reachable state the
    worker is alive; its next turn takes the head of the queue, returns
    whatever the pipeline does, and when the pipeline raised [e] the row of
    that job becomes an error row whose detail is [str e]; the turns after
    it process the rest of the queue, until it is empty and every job that
    was in it is done or error. *)
Theorem job_failure_confined (s0 : System) (acts : list action) :
  initial s0 →
  let s := run BASE_DIR env s0 acts in
  worker_alive s = true ∧
  (∀ jid rest, JOB_QUEUE (world s) = jid :: rest →
     ∃ job w1 r w2 fin,
       jobs (world s) !! jid = Some job ∧
       mark_running env jid (set_queue (λ _, rest) (world s)) = (Ok tt, w1) ∧
       run_pipeline BASE_DIR env jid job w1 = (r, w2) ∧
       worker_alive (step BASE_DIR env s Work) = true ∧
       JOB_QUEUE (world (step BASE_DIR env s Work)) = rest ∧
       jobs (world (step BASE_DIR env s Work)) !! jid = Some fin ∧
       (∀ e, r = Raise e →
          job_status fin = "error" ∧ job_progress fin = 0 ∧
          job_error fin = Some (str e) ∧
          job_message fin = "خطا در اجرای جاب")) ∧
  (let s' := run BASE_DIR env s (replicate (length (JOB_QUEUE (world s))) Work) in
   worker_alive s' = true ∧ JOB_QUEUE (world s') = [] ∧
   ∀ k, k ∈ JOB_QUEUE (world s) →
     ∃ j, jobs (world s') !! k = Some j ∧
          (job_status j = "done" ∨ job_status j = "error")).
Proof.
  intros Hinit s.
  pose proof (Inv_reachable BASE_DIR env s0 acts Hinit) as HI. fold s in HI.
  split_and!.
  - apply HI.
  - intros jid rest Hq.
    destruct (work_spec BASE_DIR env s jid rest HI Hq)
      as (job & w1 & r & w2 & w' & block & fin & Hjob & _ & _ & Hmark & Hrun & Hstep
          & Hfin & _ & Hqueue & _ & _ & _ & _ & Hres).
    exists job, w1, r, w2, fin. rewrite Hstep. cbn [world worker_alive].
    split_and!; try done.
    intros e ->. destruct Hres as ((_ & ? & ? & _ & _ & ?) & ?). done.
  - cbn zeta. by apply drain_spec.
Qed.

(** C6.  In every reachable state the jobs the worker has taken so far,
    followed by the queue, are the jobs in the order they were enqueued; and
    the rows the worker has persisted are, job after job in that order, one
    block per job, from its first running row to its terminal row. *)
Theorem fifo_no_interleaving (s0 : System) (acts : list action) :
  initial s0 →
  let s := run BASE_DIR env s0 acts in
  ∃ processed blocks,
    processed ++ JOB_QUEUE (world s) = enqueued (commits (world s)) ∧
    NoDup (enqueued (commits (world s))) ∧
    worker_log (commits (world s)) = concat blocks ∧
    Forall2 block_of processed blocks.
Proof.
  intros Hinit s.
  pose proof (Inv_reachable BASE_DIR env s0 acts Hinit) as HI. fold s in HI.
  destruct (inv_order s HI) as (processed & blocks & H1 & H2 & H3).
  exists processed, blocks. split_and!; try done. apply HI.
Qed.

End WorkerProperties.

(** * Properties of the pipeline *)

(** ** Where the pipeline keeps its files *)

Lemma append_cons (x : ascii) (a b : string) :
  String x a +:+ b = String x (a +:+ b).
Proof. reflexivity. Qed.

Lemma append_assoc (a b c : string) : (a +:+ b) +:+ c = a +:+ (b +:+ c).
Proof. induction a as [|x a IH]; [done|]. rewrite !append_cons. by f_equal. Qed.

Lemma append_inv_head (a b c : string) : a +:+ b = a +:+ c → b = c.
Proof. induction a as [|x a IH]; [done|]. rewrite !append_cons. intros [= H]. auto. Qed.

Lemma length_append (a b : string) :
  String.length (a +:+ b) = (String.length a + String.length b)%nat.
Proof.
  induction a as [|x a IH]; [done|]. rewrite append_cons.
  cbn [String.length]. by rewrite IH.
Qed.

Lemma append_inv_tail (a b c : string) : a +:+ c = b +:+ c → a = b.
Proof.
  revert b. induction a as [|x a IH]; intros [|y b]; rewrite ?append_cons.
  - done.
  - intros H. apply (f_equal String.length) in H.
    change ("" +:+ c) with c in H. cbn [String.length] in H.
    rewrite length_append in H. lia.
  - intros H. apply (f_equal String.length) in H.
    change ("" +:+ c) with c in H. cbn [String.length] in H.
    rewrite length_append in H. lia.
  - intros [= -> H]. f_equal. auto.
Qed.

Lemma endswith_slash_append (a b : string) :
  b ≠ "" → endswith_slash (a +:+ b) = endswith_slash b.
Proof.
  intros Hb. induction a as [|x a IH]; [done|].
  rewrite append_cons. cbn [endswith_slash]. rewrite IH.
  destruct (a +:+ b) eqn:E; [|done].
  destruct a; [done | discriminate].
Qed.

Lemma path_join_relative (a b : string) :
  startswith_slash b = false → path_join a b = a +:+ sep a +:+ b.
Proof.
  intros Hb. unfold path_join, sep. rewrite Hb.
  by destruct (bool_decide (a = "") || endswith_slash a).
Qed.

Section Paths.
Variable BASE_DIR : string.

Lemma CACHE_DIR_eq : CACHE_DIR BASE_DIR = ROOT BASE_DIR +:+ "cache".
Proof.
  unfold CACHE_DIR, ROOT. rewrite path_join_relative by done.
  by rewrite append_assoc.
Qed.

Lemma sep_CACHE_DIR : sep (CACHE_DIR BASE_DIR) = "/".
Proof.
  rewrite CACHE_DIR_eq. unfold sep.
  rewrite endswith_slash_append by done.
  rewrite bool_decide_eq_false_2; [done|].
  intros H. apply (f_equal String.length) in H. rewrite length_append in H.
  cbn in H. lia.
Qed.

Lemma cache_file_eq (name : string) :
  startswith_slash name = false →
  path_join (CACHE_DIR BASE_DIR) name = ROOT BASE_DIR +:+ "cache/" +:+ name.
Proof.
  intros H. rewrite path_join_relative, sep_CACHE_DIR, CACHE_DIR_eq by done.
  by rewrite append_assoc.
Qed.

Lemma seg_cache_path_eq (h : string) :
  seg_cache_path BASE_DIR h = ROOT BASE_DIR +:+ "cache/segments_" +:+ h +:+ ".json".
Proof. unfold seg_cache_path. by rewrite cache_file_eq. Qed.

Lemma beats_cache_path_eq (h : string) :
  beats_cache_path BASE_DIR h = ROOT BASE_DIR +:+ "cache/beats_" +:+ h +:+ ".json".
Proof. unfold beats_cache_path. by rewrite cache_file_eq. Qed.

Lemma segments_json_eq : segments_json BASE_DIR = ROOT BASE_DIR +:+ "segments.json".
Proof.
  unfold segments_json, ROOT. rewrite path_join_relative by done.
  by rewrite append_assoc.
Qed.

Lemma beats_json_eq : beats_json BASE_DIR = ROOT BASE_DIR +:+ "beats.json".
Proof.
  unfold beats_json, ROOT. rewrite path_join_relative by done.
  by rewrite append_assoc.
Qed.

(** The two cache files of a fingerprint and the two workspace files are
    four different paths, wherever the application is installed. *)
Lemma pipeline_paths_distinct (h h' : string) :
  seg_cache_path BASE_DIR h ≠ beats_cache_path BASE_DIR h' ∧
  seg_cache_path BASE_DIR h ≠ segments_json BASE_DIR ∧
  seg_cache_path BASE_DIR h ≠ beats_json BASE_DIR ∧
  beats_cache_path BASE_DIR h ≠ segments_json BASE_DIR ∧
  beats_cache_path BASE_DIR h ≠ beats_json BASE_DIR ∧
  segments_json BASE_DIR ≠ beats_json BASE_DIR.
Proof.
  rewrite !seg_cache_path_eq, !beats_cache_path_eq, segments_json_eq, beats_json_eq.
  split_and!; intros H%append_inv_head; discriminate.
Qed.

Lemma seg_cache_path_inj (h h' : string) :
  seg_cache_path BASE_DIR h = seg_cache_path BASE_DIR h' → h = h'.
Proof.
  rewrite !seg_cache_path_eq. intros H%append_inv_head.
  cbn in H. injection H as H. change ("" +:+ ?x) with x in H.
  by apply append_inv_tail in H.
Qed.

End Paths.

(** ** Progress callbacks that stay out of the pipeline's way *)

Lemma _update_quiet pc : reporter_quiet pc → callback_quiet (_update pc).
Proof.
  intros H p msg w. destruct pc as [cb|]; cbn; [apply H|]. by exists w.
Qed.

Lemma progress_callback_quiet (env : Env) (jid : nat) :
  callback_quiet (progress_callback env jid).
Proof.
  intros p msg w. destruct (jobs w !! jid) as [j|] eqn:Hj.
  - rewrite (progress_callback_run env jid p msg w j Hj). cbn zeta.
    eexists. split; [reflexivity|]. done.
  - rewrite (progress_callback_absent env jid p msg w Hj). by exists w.
Qed.

(** ** The two cached stages *)

Lemma shutil_copy_run src dst w :
  shutil_copy src dst w =
  match files w !! src with
  | Some data =>
      if bool_decide (src = dst) then (Raise (SameFileError src dst), w)
      else (Ok dst, set_files (<[dst := data]>) w)
  | None => (Raise (FileNotFoundError (errno2 src)), w)
  end.
Proof.
  unfold shutil_copy, read_file. mrun.
  destruct (files w !! src); [|done]. by case_bool_decide.
Qed.

Section Stages.
Variable BASE_DIR : string.
Variable env : Env.

Lemma segments_stage_spec upd audio_path c w r w' :
  callback_quiet upd → c ≠ segments_json BASE_DIR →
  segments_stage BASE_DIR env upd audio_path c w = (r, w') →
  dirs w' = dirs w ∧
  stage_outcome Whisper (env_whisper env) audio_path c (segments_json BASE_DIR) w r w'.
Proof.
  intros Hupd Hne. unfold segments_stage. rewrite bind_run.
  unfold os_path_exists, gets.
  destruct (files w !! c) as [data|] eqn:Hc.
  - rewrite bool_decide_eq_true_2 by eauto. cbn [orb]. rewrite bind_run.
    destruct (Hupd 15 "استفاده از کش متن..." w) as (w1 & -> & [= Hf Hd Hcalls]).
    rewrite shutil_copy_run, Hf, Hc, bool_decide_eq_false_2 by done.
    intros [= <- <-]. wsimpl. split; [done|].
    eapply stage_hit; [exact Hc | done | by wsimpl | wsimpl; by rewrite Hf].
  - rewrite bool_decide_eq_false_2 by (by intros [? ?]). cbn [orb].
    case_bool_decide as Hdir.
    + rewrite bind_run.
      destruct (Hupd 15 "استفاده از کش متن..." w) as (w1 & -> & [= Hf Hd Hcalls]).
      rewrite shutil_copy_run, Hf, Hc. intros [= <- <-]. split; [done|].
      eapply stage_directory; [done | done | done | done | done].
    + rewrite bind_run.
      destruct (Hupd 15 "تبدیل صوت به متن (Whisper)..." w)
        as (w1 & -> & [= Hf Hd Hcalls]).
      rewrite bind_run. unfold transcribe_audio at 1. mrun.
      destruct (env_whisper env (tick w1) audio_path (files w1)) as [e|data] eqn:Ho.
      * intros [= <- <-]. wsimpl. split; [done|]. rewrite Hf in Ho.
        eapply stage_engine_failed; [done | done | | exact Ho | done | done].
        wsimpl. by rewrite Hcalls, Hf.
      * rewrite shutil_copy_run. wsimpl. rewrite lookup_insert_eq.
        rewrite bool_decide_eq_false_2 by done.
        intros [= <- <-]. wsimpl. split; [done|]. rewrite Hf in Ho.
        eapply stage_computed; [done | done | | exact Ho | done | ].
        -- wsimpl. by rewrite Hcalls, Hf.
        -- wsimpl. by rewrite Hf.
Qed.

Lemma beats_stage_spec upd audio_path c w r w' :
  callback_quiet upd → c ≠ beats_json BASE_DIR →
  beats_stage BASE_DIR env upd audio_path c w = (r, w') →
  dirs w' = dirs w ∧
  stage_outcome Librosa (env_librosa env) audio_path c (beats_json BASE_DIR) w r w'.
Proof.
  intros Hupd Hne. unfold beats_stage. rewrite bind_run.
  unfold os_path_exists, gets.
  destruct (files w !! c) as [data|] eqn:Hc.
  - rewrite bool_decide_eq_true_2 by eauto. cbn [orb]. rewrite bind_run.
    destruct (Hupd 35 "استفاده از کش ضرب‌ها..." w) as (w1 & -> & [= Hf Hd Hcalls]).
    rewrite shutil_copy_run, Hf, Hc, bool_decide_eq_false_2 by done.
    intros [= <- <-]. wsimpl. split; [done|].
    eapply stage_hit; [exact Hc | done | by wsimpl | wsimpl; by rewrite Hf].
  - rewrite bool_decide_eq_false_2 by (by intros [? ?]). cbn [orb].
    case_bool_decide as Hdir.
    + rewrite bind_run.
      destruct (Hupd 35 "استفاده از کش ضرب‌ها..." w) as (w1 & -> & [= Hf Hd Hcalls]).
      rewrite shutil_copy_run, Hf, Hc. intros [= <- <-]. split; [done|].
      eapply stage_directory; [done | done | done | done | done].
    + rewrite bind_run.
      destruct (Hupd 35 "تحلیل ضرب آهنگ (Librosa)..." w)
        as (w1 & -> & [= Hf Hd Hcalls]).
      rewrite bind_run. unfold analyze_beats at 1. mrun.
      destruct (env_librosa env (tick w1) audio_path (files w1)) as [e|data] eqn:Ho.
      * intros [= <- <-]. wsimpl. split; [done|]. rewrite Hf in Ho.
        eapply stage_engine_failed; [done | done | | exact Ho | done | done].
        wsimpl. by rewrite Hcalls, Hf.
      * rewrite shutil_copy_run. wsimpl. rewrite lookup_insert_eq.
        rewrite bool_decide_eq_false_2 by done.
        intros [= <- <-]. wsimpl. split; [done|]. rewrite Hf in Ho.
        eapply stage_computed; [done | done | | exact Ho | done | ].
        -- wsimpl. by rewrite Hcalls, Hf.
        -- wsimpl. by rewrite Hf.
Qed.

End Stages.

(** ** Fingerprinting *)

Lemma hash_loop_all (chunk_size : Z) : 0 < chunk_size →
  ∀ (fuel : nat) (f md5 : bytes),
    (length f < fuel)%nat → hash_loop fuel chunk_size f md5 = md5 ++ f.
Proof.
  intros Hpos. induction fuel as [|k IH]; intros f md5 Hlen; [lia|].
  cbn [hash_loop]. unfold read_chunk. rewrite bool_decide_eq_false_2 by lia.
  destruct (take (Z.to_nat chunk_size) f) as [|b data] eqn:Ht.
  - destruct f as [|b f]; [by rewrite app_nil_r|].
    destruct (Z.to_nat chunk_size) eqn:E; [lia | done].
  - rewrite IH.
    + by rewrite <- app_assoc, <- Ht, take_drop.
    + rewrite length_drop.
      assert (Z.to_nat chunk_size ≠ 0%nat) by lia.
      destruct f; [by rewrite take_nil in Ht|]. cbn [length] in *. lia.
Qed.

(** The chunked loop feeds the whole file to the hash object: the
    fingerprint depends on the content of the file and on nothing else. *)
Lemma _hash_file_run (env : Env) (path : string) (w : World) :
  _hash_file env path 8192 w =
  match files w !! path with
  | Some f => (Ok (md5_hexdigest env f), w)
  | None => (Raise (FileNotFoundError (errno2 path)), w)
  end.
Proof.
  unfold _hash_file, read_file. mrun.
  destruct (files w !! path) as [f|]; [|done].
  rewrite hash_loop_all by lia. done.
Qed.

(** ** Code that moves the world along a preorder *)

Section Respects.
Context (R : World → World → Prop) `{!Reflexive R} `{!Transitive R}.

Lemma respects_ret {A} (a : A) : respects R (mret a).
Proof. by intros w r w' [= <- <-]. Qed.

Lemma respects_raise {A} (e : exn) : respects R (raise (A:=A) e).
Proof. by intros w r w' [= <- <-]. Qed.

Lemma respects_gets {A} (f : World → A) : respects R (gets f).
Proof. by intros w r w' [= <- <-]. Qed.

Lemma respects_modify (f : World → World) :
  (∀ w, R w (f w)) → respects R (modify f).
Proof. intros H w r w' [= <- <-]. apply H. Qed.

Lemma respects_bind {A B} (m : M A) (f : A → M B) :
  respects R m → (∀ a, respects R (f a)) → respects R (m ≫= f).
Proof.
  intros Hm Hf w r w'. rewrite bind_run.
  destruct (m w) as [[a|e] w1] eqn:E; intros Hr.
  - etrans; [eapply Hm | eapply Hf]; eauto.
  - injection Hr as <- <-. eauto.
Qed.
End Respects.

Lemma bind_assoc {A B C} (m : M A) (f : A → M B) (g : B → M C) (w : World) :
  ((m ≫= f) ≫= g) w = (m ≫= λ a, f a ≫= g) w.
Proof. rewrite !bind_run. by destruct (m w) as [[a|e] w1]. Qed.

Global Instance after_render_start_refl : Reflexive after_render_start.
Proof. intros w. split; [done|]. exists []. by rewrite app_nil_r. Qed.

Global Instance after_render_start_trans : Transitive after_render_start.
Proof.
  intros w1 w2 w3 [Hf1 (l1 & Hl1 & Ha1)] [Hf2 (l2 & Hl2 & Ha2)]. split; [auto|].
  exists (l1 ++ l2). rewrite Hl2, Hl1, <- app_assoc. split; [done|].
  by apply Forall_app.
Qed.

Lemma after_render_start_fs w w' :
  fs_part w' = fs_part w → after_render_start w w'.
Proof.
  intros [= Hf _ Hc]. split; [by rewrite Hf|]. exists []. by rewrite app_nil_r.
Qed.

Lemma after_render_start_insert w (f : gmap string bytes → gmap string bytes) :
  (∀ m p, is_Some (m !! p) → is_Some (f m !! p)) →
  after_render_start w (set_files f w).
Proof. intros H. split; [apply H|]. exists []. by rewrite app_nil_r. Qed.

Lemma insert_keeps_files (path : string) (data : bytes) (m : gmap string bytes) p :
  is_Some (m !! p) → is_Some (<[path := data]> m !! p).
Proof. intros H. apply lookup_insert_is_Some'. by right. Qed.

Lemma foldl_insert_keeps_files (written : list (string * bytes)) :
  ∀ (m : gmap string bytes) p, is_Some (m !! p) →
    is_Some (foldl (λ acc '(p, data), <[p := data]> acc) m written !! p).
Proof.
  induction written as [|[q d] l IH]; intros m p H; [done|].
  cbn. apply IH. by apply insert_keeps_files.
Qed.

Ltac respects_step :=
  first
    [ apply respects_ret; apply _ | apply respects_raise; apply _
    | apply respects_gets; apply _
    | apply respects_bind; [apply _ | | intros ?] ].

Ltac respects_auto :=
  repeat first
    [ respects_step | assumption
    | match goal with
      | |- respects _ (match ?x with _ => _ end) => destruct x
      | |- respects _ (if ?x then _ else _) => destruct x
      | |- respects _ (let '(_, _) := ?x in _) => destruct x
      end ].

Section RenderTail.
Variable BASE_DIR : string.
Variable env : Env.

Lemma quiet_respects cb p msg :
  callback_quiet cb → respects after_render_start (cb p msg).
Proof.
  intros H w r w' E. destruct (H p msg w) as (w1 & E1 & Hfs).
  rewrite E1 in E. injection E as <- <-. by apply after_render_start_fs.
Qed.

Lemma next_tick_respects : respects after_render_start next_tick.
Proof. intros w r w' [= <- <-]. by apply after_render_start_fs. Qed.

Lemma write_file_respects path data :
  respects after_render_start (write_file path data).
Proof.
  intros w r w' [= <- <-]. apply after_render_start_insert.
  intros. by apply insert_keeps_files.
Qed.

Lemma read_file_respects path : respects after_render_start (read_file path).
Proof.
  intros w r w'. unfold read_file. by case_match; intros [= <- <-].
Qed.

Lemma shutil_copy_respects src dst : respects after_render_start (shutil_copy src dst).
Proof.
  unfold shutil_copy.
  respects_auto; auto using read_file_respects, write_file_respects.
Qed.

Lemma _unique_id_respects : respects after_render_start (_unique_id env).
Proof.
  unfold _unique_id, random_choices, now.
  respects_auto; apply next_tick_respects.
Qed.

Lemma glob_glob_respects pattern : respects after_render_start (glob_glob env pattern).
Proof. unfold glob_glob. respects_auto. apply next_tick_respects. Qed.

Lemma start_ffmpeg_respects cmd : respects after_render_start (start_engine Ffmpeg cmd).
Proof.
  intros w r w' [= <- <-]. split; [done|].
  eexists [_]. split; [reflexivity|]. by repeat constructor.
Qed.

Lemma _overlay_video_respects b o a out :
  respects after_render_start (_overlay_video env b o a out).
Proof.
  unfold _overlay_video.
  respects_auto; auto using start_ffmpeg_respects, write_file_respects.
Qed.

End RenderTail.

(** ** The course of one pipeline run, as far as files and engines go *)

Section PipelineRun.
Variable BASE_DIR : string.
Variable env : Env.

Lemma render_tail_respects (q : string) (K : string → M string) (w4 : World) r w' :
  (∀ manim_out, respects after_render_start (K manim_out)) →
  (_run_manim BASE_DIR env q ≫= K) w4 = (r, w') →
  ∃ w5,
    calls w5 = calls w4 ++ [mkCall Manim (manim_cmd q) (tick w4) (files w4)] ∧
    files w5 = files w4 ∧ after_render_start w5 w'.
Proof.
  intros HK. unfold _run_manim. cbv zeta.
  rewrite bind_assoc. unfold run_manim_process. rewrite bind_assoc.
  rewrite bind_run. unfold start_engine at 1.
  cbv beta iota. intros E.
  match type of E with
  | ?m ?w5 = _ =>
      assert (respects after_render_start m) as Hr;
        [|exists w5; split_and!; [by wsimpl | by wsimpl | exact (Hr _ _ _ E)]]
  end.
  respects_auto; auto using glob_glob_respects, next_tick_respects.
  all: apply respects_modify; intros w; apply after_render_start_insert.
  all: intros; by apply foldl_insert_keeps_files.
Qed.

(** Every run of [process_job] with a quiet callback ends before any stage,
    or goes through the stages in order. *)
Lemma process_job_fs_spec audio_path video_path output_dir pc quality w r w' :
  reporter_quiet pc →
  process_job BASE_DIR env audio_path video_path output_dir pc quality w = (r, w') →
  no_stage_run audio_path output_dir w r w' ∨ stages_run BASE_DIR env audio_path quality w r w'.
Proof.
  intros Hpc. pose proof (_update_quiet pc Hpc) as Hupd.
  destruct (pipeline_paths_distinct BASE_DIR (md5_hexdigest env []) (md5_hexdigest env []))
    as (_ & _ & _ & _ & _ & _).
  unfold process_job. cbv zeta. rewrite bind_run. unfold os_makedirs at 1.
  destruct (files w !! output_dir) as [x|] eqn:Ho.
  { intros [= <- <-]. left. eexists. split_and!; eauto. }
  rewrite bind_run.
  match goal with
  | |- context [_update pc 5 ?msg ?w0] =>
      destruct (Hupd 5 msg w0) as (w1 & -> & [= Hf1 Hd1 Hc1])
  end.
  wsimpl. rewrite bind_run, _hash_file_run, Hf1.
  destruct (files w !! audio_path) as [content|] eqn:Ha.
  2: { intros [= <- <-]. left. eexists. split_and!; eauto. }
  intros E. right. set (h := md5_hexdigest env content) in *.
  rewrite bind_run in E.
  destruct (segments_stage BASE_DIR env (_update pc) audio_path
              (seg_cache_path BASE_DIR h) w1) as [r1 w2] eqn:E1.
  apply segments_stage_spec in E1 as [Hd2 Hs1];
    [|done|apply (pipeline_paths_distinct BASE_DIR h h)].
  exists content, w1, r1, w2. split_and!; try done.
  destruct r1 as [x1|e1]; [|by injection E as <- <-].
  rewrite bind_run in E.
  destruct (beats_stage BASE_DIR env (_update pc) audio_path
              (beats_cache_path BASE_DIR h) w2) as [r2 w3] eqn:E2.
  apply beats_stage_spec in E2 as [Hd3 Hs2];
    [|done|apply (pipeline_paths_distinct BASE_DIR h h)].
  exists r2, w3. split; [done|].
  destruct r2 as [x2|e2]; [|by injection E as <- <-].
  rewrite bind_run in E.
  match type of E with
  | context [_update pc 55 ?msg ?w0] =>
      destruct (Hupd 55 msg w0) as (w4 & Hu & [= Hf4 Hd4 Hc4]); rewrite Hu in E
  end.
  apply render_tail_respects in E as (w5 & Hc5 & Hf5 & Hafter).
  - exists (tick w4), w5. split_and!; [by rewrite Hc5, Hc4, Hf4 | by rewrite Hf5 | done].
  - intros manim_out.
    respects_auto;
      auto using _unique_id_respects, shutil_copy_respects, _overlay_video_respects,
                 next_tick_respects, read_file_respects, write_file_respects,
                 start_ffmpeg_respects.
    all: apply (quiet_respects (_update pc)); exact Hupd.
Qed.

End PipelineRun.

(** ** The same, in terms of files and invocations only *)

Lemma stage_outcome_step eng oracle a c ws w r w' :
  stage_outcome eng oracle a c ws w r w' →
  ∃ news o,
    stage_step eng oracle a c ws (files w) news o ∧
    calls w' = calls w ++ news ∧
    match o with
    | Some f' => files w' = f' ∧ ¬ is_Raise r
    | None => files w' = files w ∧ is_Raise r
    end.
Proof.
  intros [data Hhit -> Hcalls Hfiles | e Hnone Hdir -> Hcalls Hfiles
         | t e Hnone Hdir Hcalls Ho -> Hfiles
         | t data Hnone Hdir Hcalls Ho -> Hfiles].
  - exists [], (Some (<[ws := data]> (files w))).
    rewrite app_nil_r. split_and!; [by constructor | done | done | by intros []].
  - exists [], None. rewrite app_nil_r. split_and!; [by constructor | done..].
  - eexists [_], None. split_and!; [by econstructor | done..].
  - eexists [_], (Some _). split_and!; [by econstructor | done | done | by intros []].
Qed.

Lemma stage_step_computed_inv eng oracle a c ws f n f' :
  stage_step eng oracle a c ws f n (Some f') → f !! c = None →
  ∃ t data, n = [mkCall eng [a] t f] ∧ oracle t a f = inr data ∧
            f' = <[ws := data]> (<[c := data]> f).
Proof. inversion 1; subst; [congruence|]. eauto. Qed.

Lemma stage_step_hit_inv eng oracle a c ws f n f' :
  stage_step eng oracle a c ws f n (Some f') → is_Some (f !! c) →
  ∃ data, n = [] ∧ f !! c = Some data ∧ f' = <[ws := data]> f.
Proof. inversion 1; subst; [eauto|]. intros [? ?]. congruence. Qed.

Lemma stage_step_other eng oracle a c ws f n f' p :
  stage_step eng oracle a c ws f n (Some f') → p ≠ c → p ≠ ws → f' !! p = f !! p.
Proof.
  inversion 1; subst; intros Hc Hws.
  - by rewrite lookup_insert_ne.
  - by rewrite !lookup_insert_ne.
Qed.

Lemma stage_step_published eng oracle a c ws f n f' :
  stage_step eng oracle a c ws f n (Some f') → c ≠ ws →
  ∃ data, f' !! c = Some data ∧ f' !! ws = Some data ∧
          (∀ t, mkCall eng [a] t f ∈ n → oracle t a f = inr data).
Proof.
  inversion 1; subst; intros Hne.
  - exists data. rewrite lookup_insert_eq, lookup_insert_ne by done.
    split_and!; [done | done |]. intros t Hin. by apply elem_of_nil in Hin.
  - exists data. rewrite lookup_insert_eq, lookup_insert_ne, lookup_insert_eq by done.
    split_and!; [done | done |]. intros t' Hin.
    apply list_elem_of_singleton in Hin. injection Hin as ->. done.
Qed.

Lemma stage_step_calls eng oracle a c ws f n o x :
  stage_step eng oracle a c ws f n o → x ∈ n → ∃ t, x = mkCall eng [a] t f.
Proof.
  inversion 1; subst; intros Hx.
  - by apply elem_of_nil in Hx.
  - by apply elem_of_nil in Hx.
  - apply list_elem_of_singleton in Hx. eauto.
  - apply list_elem_of_singleton in Hx. eauto.
Qed.

Section PipelineFlat.
Variable BASE_DIR : string.
Variable env : Env.

Lemma process_job_steps audio_path video_path output_dir pc quality w r w' content :
  reporter_quiet pc →
  files w !! audio_path = Some content →
  process_job BASE_DIR env audio_path video_path output_dir pc quality w = (r, w') →
  (is_Raise r ∧ files w' = files w ∧ calls w' = calls w) ∨
  ∃ news ok,
    pipeline_steps BASE_DIR env audio_path (md5_hexdigest env content) quality (files w)
                   news (files w') ok ∧
    calls w' = calls w ++ news ∧
    (ok = false → is_Raise r).
Proof.
  intros Hpc Ha E.
  destruct (process_job_fs_spec BASE_DIR env _ _ _ _ _ _ _ _ Hpc E)
    as [(e & -> & Hf & Hc & _) | (content' & w1 & r1 & w2 & Ha' & Hf1 & Hc1 & Hs1 & Hrest)].
  { by left. }
  right. assert (content' = content) as -> by congruence.
  apply stage_outcome_step in Hs1 as (n1 & o1 & Hst1 & Hcalls1 & Ho1).
  rewrite Hf1 in *. rewrite Hc1 in *.
  destruct o1 as [f2|]; destruct Ho1 as [Hf2 Hr1].
  2: { destruct r1; [done|]. destruct Hrest as (-> & Hf & Hc).
       exists n1, false. rewrite Hf, Hc, Hf2. split_and!; [by constructor | done..]. }
  destruct r1 as [x1|]; [|by destruct Hr1].
  destruct Hrest as (r2 & w3 & Hs2 & Hrest).
  apply stage_outcome_step in Hs2 as (n2 & o2 & Hst2 & Hcalls2 & Ho2).
  rewrite Hf2 in *. rewrite Hcalls1 in *.
  destruct o2 as [f3|]; destruct Ho2 as [Hf3 Hr2].
  2: { destruct r2; [done|]. destruct Hrest as (-> & Hf & Hc).
       exists (n1 ++ n2), false. rewrite Hf, Hc, Hf3, Hcalls2, <- app_assoc.
       split_and!; [by econstructor | done..]. }
  destruct r2 as [x2|]; [|by destruct Hr2].
  destruct Hrest as (t & w4 & Hc4 & Hf4 & Hkeep & (l & Hl & Hall)).
  exists (n1 ++ n2 ++ mkCall Manim (manim_cmd quality) t f3 :: l), true.
  split_and!; [| |done].
  - econstructor; [done..|]. exists t, l. split_and!; try done.
    intros p. rewrite <- Hf3, <- Hf4. apply Hkeep.
  - rewrite Hl, Hc4, Hcalls2, Hf3, <- !app_assoc. done.
Qed.

End PipelineFlat.

Lemma invocations_app e l1 l2 :
  invocations e (l1 ++ l2) = (invocations e l1 + invocations e l2)%nat.
Proof. unfold invocations. by rewrite filter_app, length_app. Qed.

Lemma invocations_cons e c l :
  invocations e (c :: l) = (invocations e [c] + invocations e l)%nat.
Proof. apply (invocations_app e [c] l). Qed.

Lemma invocations_other e e' l :
  e ≠ e' → Forall (λ c, call_engine c = e') l → invocations e l = 0%nat.
Proof.
  intros Hne Hall. unfold invocations. rewrite filter_none; [done|].
  eapply Forall_impl; [exact Hall|]. cbn. intros c -> ?. done.
Qed.

Lemma stage_step_engine eng oracle a c ws f n o :
  stage_step eng oracle a c ws f n o → Forall (λ x, call_engine x = eng) n.
Proof.
  intros H. apply Forall_forall. intros x Hx.
  by apply (stage_step_calls _ _ _ _ _ _ _ _ _ H) in Hx as [t ->].
Qed.

(** * The pipeline claims *)

Section PipelineProperties.
Variable BASE_DIR : string.
Variable env : Env.

(** C7.  When the audio file cannot be read the pipeline raises, no engine
    has been started and no file has changed, so neither cache namespace has
    a new or modified entry for any fingerprint.  Unless already
    [os.makedirs] failed, the exception is the one raised by [open] in
    [_hash_file]. *)
Theorem unreadable_audio_fails_early
    (audio_path video_path output_dir : string)
    (pc : option (Z → string → M unit)) (quality : string) (w : World) :
  reporter_quiet pc →
  files w !! audio_path = None →
  ∃ e w',
    process_job BASE_DIR env audio_path video_path output_dir pc quality w
      = (Raise e, w') ∧
    calls w' = calls w ∧ files w' = files w ∧
    (∀ h, files w' !! seg_cache_path BASE_DIR h = files w !! seg_cache_path BASE_DIR h ∧
          files w' !! beats_cache_path BASE_DIR h = files w !! beats_cache_path BASE_DIR h) ∧
    (files w !! output_dir = None → e = FileNotFoundError (errno2 audio_path)).
Proof.
  intros Hpc Ha.
  destruct (process_job BASE_DIR env audio_path video_path output_dir pc quality w)
    as [r w'] eqn:E.
  destruct (process_job_fs_spec BASE_DIR env _ _ _ _ _ _ _ _ Hpc E)
    as [(e & -> & Hf & Hc & Hwhy) | Hrun].
  - exists e, w'. split_and!; try done.
    + intros h. by rewrite Hf.
    + intros Ho. destruct Hwhy as [[x Hx] | [_ ->]]; [congruence | done].
  - destruct Hrun as (content & _ & _ & _ & Hsome & _). congruence.
Qed.

(** C10.  A quality flag outside l, m, h, p, k is replaced by h: the render
    stage, and with it the whole pipeline, then behaves exactly as it does
    for h, and manim is started with -qh.  So no value of the flag is the
    reason for an exception. *)
Theorem invalid_quality_means_h (quality : string) :
  quality ∉ ["l"; "m"; "h"; "p"; "k"] →
  (∀ w, _run_manim BASE_DIR env quality w = _run_manim BASE_DIR env "h" w) ∧
  (∀ audio_path video_path output_dir pc w,
     process_job BASE_DIR env audio_path video_path output_dir pc quality w =
     process_job BASE_DIR env audio_path video_path output_dir pc "h" w) ∧
  (∀ w r w', _run_manim BASE_DIR env quality w = (r, w') →
     ∃ rest, calls w' = calls w ++
       mkCall Manim ["manim"; "-qh"; "-t"; "motion.py"; "FarsiKinetic"]
              (tick w) (files w) :: rest).
Proof.
  intros Hq.
  assert (_run_manim BASE_DIR env quality = _run_manim BASE_DIR env "h") as Heq.
  { unfold _run_manim. by rewrite bool_decide_eq_false_2 by done. }
  split_and!.
  - intros w. by rewrite Heq.
  - intros. unfold process_job. by rewrite Heq.
  - intros w r w'. rewrite Heq. clear Heq.
    intros E. pose proof (render_tail_respects BASE_DIR env "h" mret w r w') as H.
    destruct H as (w5 & Hc & _ & _ & (l & Hl & _)).
    + intros ?. apply respects_ret. apply _.
    + rewrite bind_run. rewrite E. by destruct r.
    + exists l. by rewrite Hl, Hc, <- app_assoc.
Qed.

(** C4.  A cache file of the job's fingerprint that is absent when the
    pipeline starts is still absent when it ends, however it ends, unless an
    invocation of the stage's engine during this run returned a result: the
    only write to the cache comes after the engine's answer. *)
Theorem cache_written_only_after_success
    (audio_path video_path output_dir : string)
    (pc : option (Z → string → M unit)) (quality : string)
    (w : World) (content : bytes) (r : Res string) (w' : World) :
  reporter_quiet pc →
  files w !! audio_path = Some content →
  process_job BASE_DIR env audio_path video_path output_dir pc quality w = (r, w') →
  ∃ news, calls w' = calls w ++ news ∧
    (files w !! seg_cache_path BASE_DIR (md5_hexdigest env content) = None →
     (∀ c, c ∈ news → call_engine c = Whisper →
        ∃ e, env_whisper env (call_tick c) audio_path (call_files c) = inl e) →
     files w' !! seg_cache_path BASE_DIR (md5_hexdigest env content) = None) ∧
    (files w !! beats_cache_path BASE_DIR (md5_hexdigest env content) = None →
     (∀ c, c ∈ news → call_engine c = Librosa →
        ∃ e, env_librosa env (call_tick c) audio_path (call_files c) = inl e) →
     files w' !! beats_cache_path BASE_DIR (md5_hexdigest env content) = None).
Proof.
  intros Hpc Ha E. set (h := md5_hexdigest env content).
  destruct (pipeline_paths_distinct BASE_DIR h h) as (Hsb & Hss & Hsbj & Hbs & Hbb & _).
  destruct (process_job_steps BASE_DIR env _ _ _ _ _ _ _ _ _ Hpc Ha E)
    as [(_ & Hf & Hc) | (news & ok & Hsteps & Hcalls & _)].
  { exists []. rewrite app_nil_r, Hf. by split_and!. }
  fold h in Hsteps. exists news. split; [done|]. split.
  - (* transcript *)
    intros Hmiss Hfail.
    assert (∀ n1 f2, n1 ⊆ news →
              ¬ stage_step Whisper (env_whisper env) audio_path
                  (seg_cache_path BASE_DIR h) (segments_json BASE_DIR)
                  (files w) n1 (Some f2)) as Hno.
    { intros n1 f2 Hsub Hst.
      apply stage_step_computed_inv in Hst as (t & data & -> & Ho & _); [|done].
      destruct (Hfail (mkCall Whisper [audio_path] t (files w))) as [e He]; [|done|].
      - apply Hsub. by left.
      - cbn in He. congruence. }
    inversion Hsteps as [n1 Hst1 | n1 f2 n2 Hst1 Hst2 | n1 f2 n2 f3 n3 f' ok' Hst1 Hst2 Hr];
      subst.
    + congruence.
    + exfalso. eapply Hno; [|exact Hst1]. set_solver.
    + exfalso. eapply Hno; [|exact Hst1]. set_solver.
  - (* beats *)
    intros Hmiss Hfail.
    inversion Hsteps as [n1 Hst1 | n1 f2 n2 Hst1 Hst2 | n1 f2 n2 f3 n3 f' ok' Hst1 Hst2 Hr];
      subst.
    + congruence.
    + rewrite (stage_step_other _ _ _ _ _ _ _ _ _ Hst1) by done. done.
    + exfalso.
      assert (f2 !! beats_cache_path BASE_DIR h = None) as Hmiss2.
      { rewrite (stage_step_other _ _ _ _ _ _ _ _ _ Hst1) by done. done. }
      apply stage_step_computed_inv in Hst2 as (t & data & -> & Ho & _); [|done].
      destruct (Hfail (mkCall Librosa [audio_path] t f2)) as [e He]; [|done|].
      * set_solver.
      * cbn in He. congruence.
Qed.

(** C9.  Whenever the pipeline starts the renderer, the file system it is
    started on has, at [segments.json] and [beats.json] of the source
    directory, the content of the two cache files of the job's fingerprint;
    and where the run invoked an engine for a stage (cache miss), that content
    is what the engine returned in this run.  Whatever was at the workspace
    paths before the run does not matter. *)
Theorem workspace_published_before_render
    (audio_path video_path output_dir : string)
    (pc : option (Z → string → M unit)) (quality : string)
    (w : World) (content : bytes) (r : Res string) (w' : World) :
  reporter_quiet pc →
  files w !! audio_path = Some content →
  process_job BASE_DIR env audio_path video_path output_dir pc quality w = (r, w') →
  ∃ news, calls w' = calls w ++ news ∧
    ∀ c, c ∈ news → call_engine c = Manim →
      ∃ segments beats,
        call_files c !! seg_cache_path BASE_DIR (md5_hexdigest env content) = Some segments ∧
        call_files c !! segments_json BASE_DIR = Some segments ∧
        call_files c !! beats_cache_path BASE_DIR (md5_hexdigest env content) = Some beats ∧
        call_files c !! beats_json BASE_DIR = Some beats ∧
        (∀ cw, cw ∈ news → call_engine cw = Whisper →
           env_whisper env (call_tick cw) audio_path (call_files cw) = inr segments) ∧
        (∀ cl, cl ∈ news → call_engine cl = Librosa →
           env_librosa env (call_tick cl) audio_path (call_files cl) = inr beats).
Proof.
  intros Hpc Ha E. set (h := md5_hexdigest env content).
  destruct (pipeline_paths_distinct BASE_DIR h h) as (Hsb & Hss & Hsbj & Hbs & Hbb & Hsj).
  destruct (process_job_steps BASE_DIR env _ _ _ _ _ _ _ _ _ Hpc Ha E)
    as [(_ & Hf & Hc) | (news & ok & Hsteps & Hcalls & _)].
  { exists []. rewrite app_nil_r. split; [done|]. intros c Hc'. by apply elem_of_nil in Hc'. }
  fold h in Hsteps. exists news. split; [done|]. intros c Hc Hmanim.
  inversion Hsteps as [n1 Hst1 | n1 f2 n2 Hst1 Hst2 | n1 f2 n2 f3 n3 f' ok' Hst1 Hst2 Hr];
    subst.
  - apply (stage_step_calls _ _ _ _ _ _ _ _ _ Hst1) in Hc as [t ->]. done.
  - apply elem_of_app in Hc as [Hc|Hc].
    + apply (stage_step_calls _ _ _ _ _ _ _ _ _ Hst1) in Hc as [t ->]. done.
    + apply (stage_step_calls _ _ _ _ _ _ _ _ _ Hst2) in Hc as [t ->]. done.
  - destruct Hr as (t & tail & -> & Htail & _).
    assert (c = mkCall Manim (manim_cmd quality) t f3) as ->.
    { apply elem_of_app in Hc as [Hc|Hc].
      { apply (stage_step_calls _ _ _ _ _ _ _ _ _ Hst1) in Hc as [? ->]. done. }
      apply elem_of_app in Hc as [Hc|Hc].
      { apply (stage_step_calls _ _ _ _ _ _ _ _ _ Hst2) in Hc as [? ->]. done. }
      apply elem_of_cons in Hc as [->|Hc]; [done|].
      rewrite Forall_forall in Htail. apply Htail in Hc. congruence. }
    destruct (stage_step_published _ _ _ _ _ _ _ _ Hst1 Hss) as (segments & Hs1 & Hs2 & Hs3).
    destruct (stage_step_published _ _ _ _ _ _ _ _ Hst2 Hbb) as (beats & Hb1 & Hb2 & Hb3).
    exists segments, beats. cbn [call_files].
    rewrite !(stage_step_other _ _ _ _ _ _ _ _ _ Hst2) by done.
    split_and!; try done.
    + intros cw Hcw Hw.
      apply elem_of_app in Hcw as [Hcw|Hcw].
      { pose proof Hcw as Hcw'.
        apply (stage_step_calls _ _ _ _ _ _ _ _ _ Hst1) in Hcw as [t' ->].
        cbn. by apply Hs3. }
      apply elem_of_app in Hcw as [Hcw|Hcw].
      { apply (stage_step_calls _ _ _ _ _ _ _ _ _ Hst2) in Hcw as [? ->]. done. }
      apply elem_of_cons in Hcw as [->|Hcw]; [done|].
      rewrite Forall_forall in Htail. apply Htail in Hcw. congruence.
    + intros cl Hcl Hl.
      apply elem_of_app in Hcl as [Hcl|Hcl].
      { apply (stage_step_calls _ _ _ _ _ _ _ _ _ Hst1) in Hcl as [? ->]. done. }
      apply elem_of_app in Hcl as [Hcl|Hcl].
      { pose proof Hcl as Hcl'.
        apply (stage_step_calls _ _ _ _ _ _ _ _ _ Hst2) in Hcl as [t' ->].
        cbn. by apply Hb3. }
      apply elem_of_cons in Hcl as [->|Hcl]; [done|].
      rewrite Forall_forall in Htail. apply Htail in Hcl. congruence.
Qed.

(** C1, as the code has it.  Two jobs on byte-identical audio: the first
    one starts without cache entries for the fingerprint and gets as far as
    starting the renderer; the second one starts at any later time, on any
    path, as long as the cache entries the first has left are still there.
    Over the two runs Whisper is started exactly once and Librosa exactly
    once, both times by the first job, which leaves both cache entries
    behind; the second job starts neither. *)
Theorem identical_audio_computed_once
    (a1 v1 o1 : string) (pc1 : option (Z → string → M unit)) (q1 : string)
    (a2 v2 o2 : string) (pc2 : option (Z → string → M unit)) (q2 : string)
    (content : bytes) (w w1 wb w2 : World) (r1 r2 : Res string) :
  reporter_quiet pc1 → reporter_quiet pc2 →
  files w !! a1 = Some content →
  files w !! seg_cache_path BASE_DIR (md5_hexdigest env content) = None →
  files w !! beats_cache_path BASE_DIR (md5_hexdigest env content) = None →
  process_job BASE_DIR env a1 v1 o1 pc1 q1 w = (r1, w1) →
  (invocations Manim (calls w) < invocations Manim (calls w1))%nat →
  (is_Some (files w1 !! seg_cache_path BASE_DIR (md5_hexdigest env content)) →
   is_Some (files wb !! seg_cache_path BASE_DIR (md5_hexdigest env content))) →
  (is_Some (files w1 !! beats_cache_path BASE_DIR (md5_hexdigest env content)) →
   is_Some (files wb !! beats_cache_path BASE_DIR (md5_hexdigest env content))) →
  files wb !! a2 = Some content →
  process_job BASE_DIR env a2 v2 o2 pc2 q2 wb = (r2, w2) →
  ∃ news1 news2,
    calls w1 = calls w ++ news1 ∧ calls w2 = calls wb ++ news2 ∧
    invocations Whisper (news1 ++ news2) = 1%nat ∧
    invocations Librosa (news1 ++ news2) = 1%nat ∧
    invocations Whisper news2 = 0%nat ∧ invocations Librosa news2 = 0%nat ∧
    is_Some (files w1 !! seg_cache_path BASE_DIR (md5_hexdigest env content)) ∧
    is_Some (files w1 !! beats_cache_path BASE_DIR (md5_hexdigest env content)).
Proof.
  intros Hpc1 Hpc2 Ha1 Hmiss_s Hmiss_b E1 Hrender Hkeep_s Hkeep_b Ha2 E2.
  set (h := md5_hexdigest env content) in *.
  destruct (pipeline_paths_distinct BASE_DIR h h) as (Hsb & Hss & Hsbj & Hbs & Hbb & Hsj).
  (* the first job *)
  assert (∃ news1, calls w1 = calls w ++ news1 ∧
                   invocations Whisper news1 = 1%nat ∧
                   invocations Librosa news1 = 1%nat ∧
                   is_Some (files w1 !! seg_cache_path BASE_DIR h) ∧
                   is_Some (files w1 !! beats_cache_path BASE_DIR h))
    as (news1 & Hc1 & Hw1 & Hl1 & Hs1 & Hb1).
  { destruct (process_job_steps BASE_DIR env _ _ _ _ _ _ _ _ _ Hpc1 Ha1 E1)
      as [(_ & _ & Hc) | (news & ok & Hsteps & Hcalls & _)].
    { rewrite Hc in Hrender. lia. }
    fold h in Hsteps. rewrite Hcalls, invocations_app in Hrender.
    inversion Hsteps as [n1 Hst1 | n1 f2 n2 Hst1 Hst2 | n1 f2 n2 f3 n3 f' ok' Hst1 Hst2 Hr];
      subst.
    - pose proof (invocations_other Manim Whisper _ ltac:(done)
                    (stage_step_engine _ _ _ _ _ _ _ _ Hst1)). lia.
    - rewrite invocations_app in Hrender.
      pose proof (invocations_other Manim Whisper _ ltac:(done)
                    (stage_step_engine _ _ _ _ _ _ _ _ Hst1)).
      pose proof (invocations_other Manim Librosa _ ltac:(done)
                    (stage_step_engine _ _ _ _ _ _ _ _ Hst2)). lia.
    - apply stage_step_computed_inv in Hst1 as (t1 & d1 & -> & _ & ->); [|done].
      apply stage_step_computed_inv in Hst2 as (t2 & d2 & -> & _ & ->).
      2: { by rewrite !lookup_insert_ne. }
      destruct Hr as (t & tail & -> & Htail & Hkeep).
      pose proof (invocations_other Whisper Ffmpeg _ ltac:(done) Htail) as HW.
      pose proof (invocations_other Librosa Ffmpeg _ ltac:(done) Htail) as HL.
      eexists. split; [done|].
      rewrite !invocations_app, !(invocations_cons _ _ tail), HW, HL.
      split_and!; [done | done | |].
      + apply Hkeep. rewrite !lookup_insert_ne by done.
        rewrite lookup_insert_eq. eauto.
      + apply Hkeep. rewrite lookup_insert_ne by done.
        rewrite lookup_insert_eq. eauto. }
  (* the second job *)
  assert (∃ news2, calls w2 = calls wb ++ news2 ∧
                   invocations Whisper news2 = 0%nat ∧
                   invocations Librosa news2 = 0%nat)
    as (news2 & Hc2 & Hw2 & Hl2).
  { apply Hkeep_s in Hs1. apply Hkeep_b in Hb1.
    destruct (process_job_steps BASE_DIR env _ _ _ _ _ _ _ _ _ Hpc2 Ha2 E2)
      as [(_ & _ & Hc) | (news & ok & Hsteps & Hcalls & _)].
    { exists []. by rewrite app_nil_r. }
    fold h in Hsteps. exists news. split; [done|].
    assert (∀ n1 f2, stage_step Whisper (env_whisper env) a2
              (seg_cache_path BASE_DIR h) (segments_json BASE_DIR) (files wb) n1 (Some f2) →
              n1 = [] ∧ is_Some (f2 !! beats_cache_path BASE_DIR h)) as Hhit1.
    { intros n1 f2 Hst. apply stage_step_hit_inv in Hst as (d & -> & _ & ->); [|done].
      by rewrite lookup_insert_ne. }
    inversion Hsteps as [n1 Hst1 | n1 f2 n2 Hst1 Hst2 | n1 f2 n2 f3 n3 f' ok' Hst1 Hst2 Hr];
      subst.
    - destruct Hs1 as [? Hs1]. inversion Hst1; congruence.
    - apply Hhit1 in Hst1 as [-> [? Hb2]]. inversion Hst2; congruence.
    - apply Hhit1 in Hst1 as [-> Hb2].
      apply stage_step_hit_inv in Hst2 as (d & -> & _ & ->); [|done].
      destruct Hr as (t & tail & -> & Htail & _). cbn [app].
      pose proof (invocations_other Whisper Ffmpeg _ ltac:(done) Htail) as HW.
      pose proof (invocations_other Librosa Ffmpeg _ ltac:(done) Htail) as HL.
      rewrite !(invocations_cons _ _ tail), HW, HL. done. }
  exists news1, news2. rewrite !invocations_app, Hw1, Hl1, Hw2, Hl2.
  by split_and!.
Qed.

Lemma _unique_id_run (w : World) :
  _unique_id env w = (Ok (unique_id_at env (tick w)), set_tick (λ t, S (S t)) w).
Proof. destruct w. reflexivity. Qed.

Lemma final_output_path_inj (output_dir u1 u2 : string) :
  final_output_path output_dir u1 = final_output_path output_dir u2 → u1 = u2.
Proof.
  unfold final_output_path. rewrite !path_join_relative by done.
  intros H. do 2 apply append_inv_head in H.
  change ("final_" +:+ ?u +:+ ".mp4") with ("final_" +:+ (u +:+ ".mp4")) in H.
  apply append_inv_head in H. by apply append_inv_tail in H.
Qed.

End PipelineProperties.

(** * A concrete installation *)

Example demo_first_returns : fst demo_first = Ok demo_output.
Proof. vm_compute. reflexivity. Qed.

Example demo_second_returns : fst demo_second = Ok demo_output.
Proof. vm_compute. reflexivity. Qed.

Example demo_invocations :
  map call_engine (calls (snd demo_second)) =
  [Whisper; Librosa; Manim; Ffmpeg; Manim; Ffmpeg].
Proof. vm_compute. reflexivity. Qed.

Example demo_commits :
  map (λ j, (job_id j, job_status j, job_progress j))
      (commits (world (run "/app" demo_env demo_system demo_acts))) =
  [(1%nat, "queued", 0); (1%nat, "running", 5); (1%nat, "running", 5);
   (1%nat, "running", 15); (1%nat, "running", 35); (1%nat, "running", 55);
   (1%nat, "running", 80); (1%nat, "running", 100); (1%nat, "done", 100)].
Proof. vm_compute. reflexivity. Qed.

Example demo_commits_failing :
  map (λ j, (job_id j, job_status j, job_progress j, job_error j))
      (commits (world (run "/app" demo_env demo_system demo_acts_failing))) =
  [(1%nat, "queued", 0, None); (1%nat, "running", 5, None);
   (1%nat, "running", 5, None);
   (1%nat, "error", 0,
    Some "[Errno 2] No such file or directory: '/up/missing.mp3'")].
Proof. vm_compute. reflexivity. Qed.

(** Two jobs whose creation times are in reverse order are still run in the
    order they were enqueued, one after the other. *)
Example demo_backwards_clock :
  map (λ j, (job_id j, year (job_created_at j), job_status j))
      (commits (world (run "/app" demo_env_backwards demo_system demo_acts_two))) =
  [(1%nat, 2023%nat, "queued"); (2%nat, 2020%nat, "queued");
   (1%nat, 2023%nat, "running"); (1%nat, 2023%nat, "running");
   (1%nat, 2023%nat, "running"); (1%nat, 2023%nat, "running");
   (1%nat, 2023%nat, "running"); (1%nat, 2023%nat, "running");
   (1%nat, 2023%nat, "running"); (1%nat, 2023%nat, "done");
   (2%nat, 2020%nat, "running"); (2%nat, 2020%nat, "running");
   (2%nat, 2020%nat, "error")].
Proof. vm_compute. reflexivity. Qed.

(** The branch of [worker_loop] for a row that is not there calls
    [task_done] twice.  With one unfinished task the second call raises, and
    the exception leaves the loop.  The application never deletes a row, so
    no reachable state gets there. *)
Remark absent_row_ends_worker (BASE_DIR : string) (env : Env) (jid : nat) (w : World) :
  jobs w !! jid = None → unfinished_tasks w = 1 →
  worker_iteration BASE_DIR env jid w =
  (Raise (ValueError "task_done() called too many times"),
   set_unfinished (λ _, 0) w).
Proof.
  intros Hj Hu. unfold worker_iteration, try_finally. mrun. rewrite Hj.
  unfold task_done. rewrite Hu.
  rewrite (bool_decide_eq_false_2 (1 - 1 < 0)) by lia. wsimpl.
  rewrite bool_decide_eq_true_2 by lia. done.
Qed.

(** * The claims on the concrete installation *)

(** C1 fails as worded: when the transcription engine fails in the first
    job, nothing is cached and the job ends there; the second job on the
    same audio starts Whisper again, and Librosa is started by neither. *)
Lemma failed_transcription_runs_twice :
  fst demo_failing_first = Raise (EngineError "CUDA out of memory") ∧
  fst demo_failing_second = Raise (EngineError "CUDA out of memory") ∧
  call_engine <$> calls (snd demo_failing_first) = [Whisper] ∧
  call_engine <$> calls (snd demo_failing_second) = [Whisper; Whisper] ∧
  files (snd demo_failing_first)
    !! seg_cache_path "/app" (md5_hexdigest demo_env_failing demo_audio) = None.
Proof. vm_compute. by repeat split. Qed.

(** so the claim as worded does not hold of the code *)
Lemma identical_audio_not_always_once : ¬ identical_audio_always_once.
Proof.
  intros H.
  destruct (H "/app" demo_env_failing "/up/a.mp3" "/up/v.mp4" "/app/outputs" None "h"
              "/up/a.mp3" "/up/v.mp4" "/app/outputs" None "h"
              demo_audio demo_world (snd demo_failing_first) (snd demo_failing_second)
              (fst demo_failing_first) (fst demo_failing_second)) as [Hw _].
  - exact I.
  - exact I.
  - reflexivity.
  - vm_compute. reflexivity.
  - vm_compute. reflexivity.
  - apply surjective_pairing.
  - vm_compute. reflexivity.
  - apply surjective_pairing.
  - vm_compute in Hw. discriminate Hw.
Qed.

(** C8 fails: two jobs completing within the same second with the same
    random draw return the same output path, and the second writes over the
    file the first has left there. *)
Lemma output_path_collision :
  fst demo_first = Ok demo_output ∧ fst demo_second = Ok demo_output ∧
  files (snd demo_first) !! demo_output = Some [Byte.x66] ∧
  files (snd demo_second) !! demo_output = Some [Byte.x66].
Proof. vm_compute. by repeat split. Qed.

(** so the claim as worded does not hold of the code *)
Lemma output_paths_not_always_fresh : ¬ output_paths_always_fresh.
Proof.
  intros H.
  destruct (H "/app" demo_env "/up/a.mp3" "/up/v.mp4" None "h"
              "/up/a.mp3" "/up/v.mp4" None "h" "/app/outputs"
              demo_world (snd demo_first) (snd demo_second)
              demo_output demo_output) as [Hne _].
  - rewrite <- demo_first_returns. apply surjective_pairing.
  - rewrite <- demo_second_returns. apply surjective_pairing.
  - by apply Hne.
Qed.

Lemma identical_audio_computed_once_witness :
  ∃ news1 news2,
    calls (snd demo_first) = calls demo_world ++ news1 ∧
    calls (snd (process_job "/app" demo_env "/up/b.mp3" "/up/v.mp4" "/app/outputs"
                  None "h" demo_world_again))
      = calls demo_world_again ++ news2 ∧
    invocations Whisper (news1 ++ news2) = 1%nat ∧
    invocations Librosa (news1 ++ news2) = 1%nat ∧
    invocations Whisper news2 = 0%nat ∧ invocations Librosa news2 = 0%nat ∧
    is_Some (files (snd demo_first)
               !! seg_cache_path "/app" (md5_hexdigest demo_env demo_audio)) ∧
    is_Some (files (snd demo_first)
               !! beats_cache_path "/app" (md5_hexdigest demo_env demo_audio)).
Proof.
  apply (identical_audio_computed_once "/app" demo_env
           "/up/a.mp3" "/up/v.mp4" "/app/outputs" None "h"
           "/up/b.mp3" "/up/v.mp4" "/app/outputs" None "h"
           demo_audio demo_world (snd demo_first) demo_world_again
           (snd (process_job "/app" demo_env "/up/b.mp3" "/up/v.mp4" "/app/outputs"
                   None "h" demo_world_again))
           (fst demo_first)
           (fst (process_job "/app" demo_env "/up/b.mp3" "/up/v.mp4" "/app/outputs"
                   None "h" demo_world_again))).
  - exact I.
  - exact I.
  - reflexivity.
  - vm_compute. reflexivity.
  - vm_compute. reflexivity.
  - apply surjective_pairing.
  - vm_compute. lia.
  - intros _. vm_compute. eauto.
  - intros _. vm_compute. eauto.
  - vm_compute. reflexivity.
  - apply surjective_pairing.
Defined.

Lemma terminal_row_consistent_witness :
  ∃ j, jobs (world (run "/app" demo_env demo_system demo_acts)) !! 1%nat = Some j ∧
       job_status j = "done" ∧ job_progress j = 100 ∧
       is_Some (job_output_path j) ∧ job_error j = None.
Proof.
  destruct (jobs (world (run "/app" demo_env demo_system demo_acts)) !! 1%nat)
    as [j|] eqn:Hj; [|by vm_compute in Hj].
  assert (job_status j = "done") as Hst.
  { vm_compute in Hj. by injection Hj as <-. }
  exists j. split; [done|]. split; [done|].
  apply (terminal_row_consistent "/app" demo_env demo_system demo_acts 1 j);
    [by repeat split | exact Hj | exact Hst].
Defined.

Lemma progress_monotone_witness :
  (∀ w jid j percent msg, jobs w !! jid = Some j →
     ∃ w' j', progress_callback demo_env jid percent msg w = (Ok tt, w') ∧
              jobs w' !! jid = Some j' ∧ commits w' = commits w ++ [j'] ∧
              job_progress j' = Z.max 0 (Z.min 100 percent) ∧
              0 ≤ job_progress j' ≤ 100) ∧
  (history 1 (commits (world (run "/app" demo_env demo_system demo_acts))) = [] ∨
   ∃ c pre term,
     history 1 (commits (world (run "/app" demo_env demo_system demo_acts)))
       = c :: pre ++ term ∧
     job_status c = "queued" ∧ job_progress c = 0 ∧
     Forall (λ r, job_status r = "running") pre ∧
     StronglySorted Z.le (job_progress <$> c :: pre) ∧
     Forall (λ r, 0 ≤ job_progress r ≤ 100) (c :: pre ++ term) ∧
     (term = [] ∨
      ∃ fin, term = [fin] ∧
             ((job_status fin = "done" ∧ job_progress fin = 100) ∨
              (job_status fin = "error" ∧ job_progress fin = 0)))).
Proof.
  apply (progress_monotone "/app" demo_env demo_system demo_acts 1).
  by repeat split.
Defined.

Lemma cache_written_only_after_success_witness :
  ∃ news,
    calls (snd (process_job "/app" demo_env_failing "/up/a.mp3" "/up/v.mp4"
                  "/app/outputs" None "h" demo_world)) = calls demo_world ++ news ∧
    (files demo_world
       !! seg_cache_path "/app" (md5_hexdigest demo_env_failing demo_audio) = None →
     (∀ c, c ∈ news → call_engine c = Whisper →
        ∃ e, env_whisper demo_env_failing (call_tick c) "/up/a.mp3" (call_files c) = inl e) →
     files (snd (process_job "/app" demo_env_failing "/up/a.mp3" "/up/v.mp4"
                   "/app/outputs" None "h" demo_world))
       !! seg_cache_path "/app" (md5_hexdigest demo_env_failing demo_audio) = None) ∧
    (files demo_world
       !! beats_cache_path "/app" (md5_hexdigest demo_env_failing demo_audio) = None →
     (∀ c, c ∈ news → call_engine c = Librosa →
        ∃ e, env_librosa demo_env_failing (call_tick c) "/up/a.mp3" (call_files c) = inl e) →
     files (snd (process_job "/app" demo_env_failing "/up/a.mp3" "/up/v.mp4"
                   "/app/outputs" None "h" demo_world))
       !! beats_cache_path "/app" (md5_hexdigest demo_env_failing demo_audio) = None).
Proof.
  apply (cache_written_only_after_success "/app" demo_env_failing
           "/up/a.mp3" "/up/v.mp4" "/app/outputs" None "h" demo_world demo_audio
           (fst (process_job "/app" demo_env_failing "/up/a.mp3" "/up/v.mp4"
                   "/app/outputs" None "h" demo_world))).
  - exact I.
  - reflexivity.
  - apply surjective_pairing.
Defined.

Lemma job_failure_confined_witness :
  let s := run "/app" demo_env demo_system [CreateJob 1 "/up/missing.mp3" "/up/v.mp4"] in
  worker_alive s = true ∧
  (∀ jid rest, JOB_QUEUE (world s) = jid :: rest →
     ∃ job w1 r w2 fin,
       jobs (world s) !! jid = Some job ∧
       mark_running demo_env jid (set_queue (λ _, rest) (world s)) = (Ok tt, w1) ∧
       run_pipeline "/app" demo_env jid job w1 = (r, w2) ∧
       worker_alive (step "/app" demo_env s Work) = true ∧
       JOB_QUEUE (world (step "/app" demo_env s Work)) = rest ∧
       jobs (world (step "/app" demo_env s Work)) !! jid = Some fin ∧
       (∀ e, r = Raise e →
          job_status fin = "error" ∧ job_progress fin = 0 ∧
          job_error fin = Some (str e) ∧
          job_message fin = "خطا در اجرای جاب")) ∧
  (let s' := run "/app" demo_env s (replicate (length (JOB_QUEUE (world s))) Work) in
   worker_alive s' = true ∧ JOB_QUEUE (world s') = [] ∧
   ∀ k, k ∈ JOB_QUEUE (world s) →
     ∃ j, jobs (world s') !! k = Some j ∧
          (job_status j = "done" ∨ job_status j = "error")).
Proof.
  apply (job_failure_confined "/app" demo_env demo_system
           [CreateJob 1 "/up/missing.mp3" "/up/v.mp4"]).
  by repeat split.
Defined.

Lemma fifo_no_interleaving_witness :
  let s := run "/app" demo_env demo_system demo_acts in
  ∃ processed blocks,
    processed ++ JOB_QUEUE (world s) = enqueued (commits (world s)) ∧
    NoDup (enqueued (commits (world s))) ∧
    worker_log (commits (world s)) = concat blocks ∧
    Forall2 block_of processed blocks.
Proof.
  apply (fifo_no_interleaving "/app" demo_env demo_system demo_acts).
  by repeat split.
Defined.

Lemma unreadable_audio_fails_early_witness :
  ∃ e w',
    process_job "/app" demo_env "/up/missing.mp3" "/up/v.mp4" "/app/outputs" None "h"
                demo_world = (Raise e, w') ∧
    calls w' = calls demo_world ∧ files w' = files demo_world ∧
    (∀ h, files w' !! seg_cache_path "/app" h = files demo_world !! seg_cache_path "/app" h ∧
          files w' !! beats_cache_path "/app" h
            = files demo_world !! beats_cache_path "/app" h) ∧
    (files demo_world !! "/app/outputs" = None →
     e = FileNotFoundError (errno2 "/up/missing.mp3")).
Proof.
  apply (unreadable_audio_fails_early "/app" demo_env "/up/missing.mp3" "/up/v.mp4"
           "/app/outputs" None "h" demo_world).
  - exact I.
  - reflexivity.
Defined.

Lemma workspace_published_before_render_witness :
  ∃ news, calls (snd demo_first) = calls demo_world ++ news ∧
    ∀ c, c ∈ news → call_engine c = Manim →
      ∃ segments beats,
        call_files c !! seg_cache_path "/app" (md5_hexdigest demo_env demo_audio)
          = Some segments ∧
        call_files c !! segments_json "/app" = Some segments ∧
        call_files c !! beats_cache_path "/app" (md5_hexdigest demo_env demo_audio)
          = Some beats ∧
        call_files c !! beats_json "/app" = Some beats ∧
        (∀ cw, cw ∈ news → call_engine cw = Whisper →
           env_whisper demo_env (call_tick cw) "/up/a.mp3" (call_files cw) = inr segments) ∧
        (∀ cl, cl ∈ news → call_engine cl = Librosa →
           env_librosa demo_env (call_tick cl) "/up/a.mp3" (call_files cl) = inr beats).
Proof.
  apply (workspace_published_before_render "/app" demo_env
           "/up/a.mp3" "/up/v.mp4" "/app/outputs" None "h" demo_world demo_audio
           (fst demo_first)).
  - exact I.
  - reflexivity.
  - apply surjective_pairing.
Defined.

Lemma invalid_quality_means_h_witness :
  (∀ w, _run_manim "/app" demo_env "ultra" w = _run_manim "/app" demo_env "h" w) ∧
  (∀ audio_path video_path output_dir pc w,
     process_job "/app" demo_env audio_path video_path output_dir pc "ultra" w =
     process_job "/app" demo_env audio_path video_path output_dir pc "h" w) ∧
  (∀ w r w', _run_manim "/app" demo_env "ultra" w = (r, w') →
     ∃ rest, calls w' = calls w ++
       mkCall Manim ["manim"; "-qh"; "-t"; "motion.py"; "FarsiKinetic"]
              (tick w) (files w) :: rest).
Proof.
  apply (invalid_quality_means_h "/app" demo_env "ultra").
  intros H. repeat (apply elem_of_cons in H as [H|H]; [discriminate H|]).
  by apply elem_of_nil in H.
Defined.

(** * More about the stages of the pipeline *)

(** ** The fingerprint *)

Lemma hash_loop_zero (fuel : nat) (f md5 : bytes) : hash_loop fuel 0 f md5 = md5.
Proof.
  destruct fuel as [|k]; [done|]. cbn [hash_loop]. unfold read_chunk.
  rewrite bool_decide_eq_false_2 by lia. by rewrite take_0.
Qed.

(** The chunked read loop of [_hash_file] feeds the whole file to the hash
    object whatever the positive chunk size, and changes nothing.  With a
    chunk size of 0 the first read is empty and ends the loop: every file
    then gets the fingerprint of no data at all. *)
Theorem fingerprint_of_whole_file (env : Env) (path : string) (chunk_size : Z)
    (w : World) (content : bytes) :
  files w !! path = Some content → 0 < chunk_size →
  _hash_file env path chunk_size w = (Ok (md5_hexdigest env content), w) ∧
  _hash_file env path 0 w = (Ok (md5_hexdigest env []), w).
Proof.
  intros Hf Hpos. unfold _hash_file, read_file. mrun. rewrite Hf.
  rewrite hash_loop_all by (done || lia). by rewrite hash_loop_zero.
Qed.

(** ** The render stage *)

Lemma newest_spec (matches : list (string * nat)) : ∀ (best : string * nat),
  ∃ before after,
    best :: matches = before ++ newest best matches :: after ∧
    Forall (λ m, (snd m ≤ snd (newest best matches))%nat) before ∧
    Forall (λ m, (snd m < snd (newest best matches))%nat) after.
Proof.
  induction matches as [|m rest IH]; intros best; cbn [newest].
  { exists [], []. by repeat constructor. }
  case_bool_decide as Hle.
  - destruct (IH m) as (before & after & E & Hb & Ha).
    exists (best :: before), after. rewrite E. split_and!; [done| |done].
    constructor; [|done].
    assert (m ∈ before ++ newest m rest :: after) as Hin by (rewrite <- E; left).
    apply elem_of_app in Hin as [Hin|Hin].
    + rewrite Forall_forall in Hb. specialize (Hb _ Hin). cbv beta in Hb. lia.
    + apply elem_of_cons in Hin as [Hm|Hin]; [rewrite <- Hm; lia|].
      rewrite Forall_forall in Ha. specialize (Ha _ Hin). cbv beta in Ha. lia.
  - destruct (IH best) as (before & after & E & Hb & Ha).
    destruct before as [|b before]; cbn [app] in E.
    + injection E as E1 E2. exists [], (m :: rest). cbn [app].
      rewrite <- E1 in *. split_and!; [done | done |].
      constructor; [cbv beta; lia|]. by rewrite E2.
    + injection E as <- E2. exists (best :: m :: before), after. cbn [app].
      split_and!; [by rewrite <- E2 | | done].
      apply Forall_cons in Hb as [Hb1 Hb2].
      repeat constructor; [done | cbv beta in *; lia | done].
Qed.

Section RenderStage.
Variable BASE_DIR : string.
Variable env : Env.

Lemma _run_manim_run (quality : string) (w : World) :
  _run_manim BASE_DIR env quality w =
  let cmd := manim_cmd quality in
  let w1 := set_tick S (set_calls (λ l, l ++ [mkCall Manim cmd (tick w) (files w)]) w) in
  match env_manim env (tick w) cmd (files w) with
  | inl e => (Raise e, w1)
  | inr (rc, written) =>
      let w2 := set_files (λ f, foldl (λ acc '(p, data), <[p := data]> acc) f written) w1 in
      if bool_decide (rc = 0) then
        match env_glob env (S (tick w)) (manim_pattern BASE_DIR) with
        | [] => (Raise (FileNotFoundError ("Could not find Manim output with pattern: "
                                            +:+ manim_pattern BASE_DIR)),
                 set_tick S w2)
        | m :: rest => (Ok (fst (newest m rest)), set_tick S w2)
        end
      else (Raise (CalledProcessError cmd rc), w2)
  end.
Proof.
  destruct w. unfold _run_manim, run_manim_process, glob_glob, manim_cmd, manim_pattern.
  mrun. wreduce.
  destruct (env_manim _ _ _ _) as [e|[rc written]]; [done|].
  case_bool_decide; [|done].
  by destruct (env_glob _ _ _).
Qed.

(** What [_run_manim] returns is one of the files the pattern matches, none
    of the matches is more recent, and of several equally recent ones it is
    the one listed last. *)
Theorem _run_manim_returns_newest (quality : string) (w : World) (p : string) (w' : World) :
  _run_manim BASE_DIR env quality w = (Ok p, w') →
  ∃ before mtime after,
    env_glob env (S (tick w)) (manim_pattern BASE_DIR) = before ++ (p, mtime) :: after ∧
    Forall (λ m, (snd m ≤ mtime)%nat) before ∧
    Forall (λ m, (snd m < mtime)%nat) after.
Proof.
  rewrite _run_manim_run. cbv zeta.
  destruct (env_manim _ _ _ _) as [e|[rc written]]; [done|].
  case_bool_decide; [|done].
  destruct (env_glob _ _ _) as [|m rest]; [done|]. intros [= <- <-].
  destruct (newest_spec rest m) as (before & after & E & Hb & Ha).
  exists before, (snd (newest m rest)), after.
  by rewrite <- surjective_pairing.
Qed.

(** [_run_manim] raises in three cases only: the process cannot be started,
    it ends with a non-zero status, or it ends with status 0 and nothing
    matches the pattern.  A non-zero status is an error even when rendered
    files are there. *)
Theorem _run_manim_raises (quality : string) (w : World) (e : exn) (w' : World) :
  _run_manim BASE_DIR env quality w = (Raise e, w') →
  env_manim env (tick w) (manim_cmd quality) (files w) = inl e ∨
  (∃ rc written,
     env_manim env (tick w) (manim_cmd quality) (files w) = inr (rc, written) ∧
     rc ≠ 0 ∧ e = CalledProcessError (manim_cmd quality) rc ∧ tick w' = S (tick w)) ∨
  (∃ written,
     env_manim env (tick w) (manim_cmd quality) (files w) = inr (0, written) ∧
     env_glob env (S (tick w)) (manim_pattern BASE_DIR) = [] ∧
     e = FileNotFoundError ("Could not find Manim output with pattern: "
                            +:+ manim_pattern BASE_DIR)).
Proof.
  rewrite _run_manim_run. cbv zeta.
  destruct (env_manim _ _ _ _) as [e'|[rc written]].
  { intros [= <- <-]. by left. }
  case_bool_decide as Hrc.
  - destruct (env_glob _ _ _) as [|m rest] eqn:Hg; [|done].
    intros [= <- <-]. right. right. exists written. by rewrite Hrc.
  - intros [= <- <-]. right. left. exists rc, written. by wsimpl.
Qed.

End RenderStage.

(** ** From the render stage to the end of the job *)

Section Compose.
Variable BASE_DIR : string.
Variable env : Env.

Lemma _overlay_video_run (b o a out : string) (w : World) :
  _overlay_video env b o a out w =
  let cmd := ffmpeg_cmd b o a out in
  let w1 := set_tick S (set_calls (λ l, l ++ [mkCall Ffmpeg cmd (tick w) (files w)]) w) in
  match env_ffmpeg env (tick w) cmd (files w) with
  | inl e => (Raise e, w1)
  | inr (rc, data) =>
      if bool_decide (rc = 0) then (Ok tt, set_files (<[out := data]>) w1)
      else (Raise (CalledProcessError cmd rc), w1)
  end.
Proof.
  destruct w. unfold _overlay_video, ffmpeg_cmd. mrun. wreduce.
  destruct (env_ffmpeg _ _ _ _) as [e|[rc data]]; [done|].
  by case_bool_decide.
Qed.

Lemma process_job_unfold audio_path video_path output_dir pc quality :
  process_job BASE_DIR env audio_path video_path output_dir pc quality =
  (_ ← os_makedirs output_dir;
   _ ← _update pc 5 "محاسبه‌ی هش فایل صوتی...";
   audio_hash ← _hash_file env audio_path 8192;
   _ ← segments_stage BASE_DIR env (_update pc) audio_path
         (seg_cache_path BASE_DIR audio_hash);
   _ ← beats_stage BASE_DIR env (_update pc) audio_path
         (beats_cache_path BASE_DIR audio_hash);
   _ ← _update pc 55 "رندر موشن با Manim...";
   render_and_compose BASE_DIR env audio_path video_path output_dir pc quality).
Proof. reflexivity. Qed.

(** the render and composite stages, step by step *)
Lemma render_and_compose_spec audio_path video_path output_dir pc quality w4 r w' :
  reporter_quiet pc →
  render_and_compose BASE_DIR env audio_path video_path output_dir pc quality w4 = (r, w') →
  ∃ rm w5, _run_manim BASE_DIR env quality w4 = (rm, w5) ∧
    match rm with
    | Raise e => r = Raise e ∧ files w' = files w5 ∧ calls w' = calls w5
    | Ok manim_out =>
        ∃ news,
          composed env audio_path video_path output_dir (files w5) manim_out
                   (unique_id_at env (tick w5)) news r (files w') ∧
          calls w' = calls w5 ++ news
    end.
Proof.
  intros Hpc. pose proof (_update_quiet pc Hpc) as Hupd.
  unfold render_and_compose. rewrite bind_run.
  destruct (_run_manim BASE_DIR env quality w4) as [[manim_out|e] w5] eqn:Em.
  2: { intros [= <- <-]. by exists (Raise e), w5. }
  intros E. exists (Ok manim_out), w5. split; [done|].
  rewrite bind_run, _unique_id_run in E. cbv zeta in E.
  rewrite bind_run, shutil_copy_run in E. wsimpl.
  set (uid := unique_id_at env (tick w5)) in *.
  fold (overlay_path output_dir uid manim_out) in E.
  fold (final_output_path output_dir uid) in E.
  destruct (files w5 !! manim_out) as [mdata|] eqn:Hm.
  2: { injection E as <- <-. exists []. wsimpl. rewrite app_nil_r.
       split; [by constructor | done]. }
  case_bool_decide as Hsame.
  { injection E as <- <-. exists []. wsimpl. rewrite app_nil_r.
    split; [|done]. by eapply composed_same_file. }
  rewrite bind_run in E.
  match type of E with
  | context [_update pc 80 ?msg ?w0] =>
      destruct (Hupd 80 msg w0) as (w7 & Hu & [= Hf7 Hd7 Hc7]); rewrite Hu in E
  end.
  wsimpl. rewrite bind_run, _overlay_video_run in E. cbv zeta in E.
  rewrite Hf7 in E.
  eexists [_]. split.
  - eapply (composed_ffmpeg _ _ _ _ _ _ _ mdata (tick w7)); [done | done |].
    cbv zeta.
    destruct (env_ffmpeg _ _ _ _) as [e|[rc data]].
    { injection E as <- <-. by wsimpl. }
    case_bool_decide.
    + rewrite bind_run in E.
      match type of E with
      | context [_update pc 100 ?msg ?w0] =>
          destruct (Hupd 100 msg w0) as (w9 & Hu9 & [= Hf9 Hd9 Hc9]); rewrite Hu9 in E
      end.
      injection E as <- <-. wsimpl. by rewrite Hf9, Hf7.
    + injection E as <- <-. by wsimpl.
  - destruct (env_ffmpeg _ _ _ _) as [e|[rc data]].
    { injection E as <- <-. wsimpl. by rewrite Hc7. }
    case_bool_decide.
    + rewrite bind_run in E.
      match type of E with
      | context [_update pc 100 ?msg ?w0] =>
          destruct (Hupd 100 msg w0) as (w9 & Hu9 & [= Hf9 Hd9 Hc9]); rewrite Hu9 in E
      end.
      injection E as <- <-. wsimpl. by rewrite Hc9, Hc7.
    + injection E as <- <-. wsimpl. by rewrite Hc7.
Qed.

End Compose.

(** ** The course of a job, invocation by invocation *)

Lemma failures_final_clean env a news r :
  all_succeeded env a news → failures_final env a news r.
Proof. intros H c e Hc Hf. by destruct (H c e). Qed.

Lemma failures_final_app env a n1 n2 r :
  all_succeeded env a n1 → failures_final env a n2 r →
  failures_final env a (n1 ++ n2) r.
Proof.
  intros H1 H2 c e [Hc|Hc]%elem_of_app Hf; [by destruct (H1 c e)|].
  destruct (H2 c e Hc Hf) as [-> Hl]. split; [done|].
  rewrite last_app, Hl. done.
Qed.

Lemma all_succeeded_nil env a : all_succeeded env a [].
Proof. intros c e Hc. by apply elem_of_nil in Hc. Qed.

Lemma all_succeeded_app env a n1 n2 :
  all_succeeded env a n1 → all_succeeded env a n2 → all_succeeded env a (n1 ++ n2).
Proof. intros H1 H2 c e [Hc|Hc]%elem_of_app; eauto. Qed.

Lemma at_most_one_sublist eng news :
  at_most_one eng news → call_engine <$> news = [] ∨ call_engine <$> news = [eng].
Proof. intros [->|(c & -> & <-)]; [by left | by right]. Qed.

(** what a cached stage contributes to the record of invocations *)
Lemma stage_outcome_calls env eng oracle a c ws w r w' :
  (∀ t f e, engine_failed env a (mkCall eng [a] t f) e ↔ oracle t a f = inl e) →
  stage_outcome eng oracle a c ws w r w' →
  ∃ news, calls w' = calls w ++ news ∧ at_most_one eng news ∧
    match r with
    | Ok _ => all_succeeded env a news
    | Raise _ => failures_final env a news r
    end.
Proof.
  intros Hfail [data Hhit -> Hcalls Hfiles | e Hnone Hdir -> Hcalls Hfiles
               | t e Hnone Hdir Hcalls Ho -> Hfiles
               | t data Hnone Hdir Hcalls Ho -> Hfiles].
  - exists []. rewrite app_nil_r. split_and!; [done | by left | apply all_succeeded_nil].
  - exists []. rewrite app_nil_r.
    split_and!; [done | by left | apply failures_final_clean, all_succeeded_nil].
  - eexists [_]. split_and!; [done | right; eauto |].
    intros c' e' ->%list_elem_of_singleton Hf. apply Hfail in Hf.
    split; [congruence | done].
  - eexists [_]. split_and!; [done | right; eauto |].
    intros c' e' ->%list_elem_of_singleton Hf. apply Hfail in Hf. congruence.
Qed.

Section Course.
Variable BASE_DIR : string.
Variable env : Env.

(** Every run of [process_job] with a quiet callback ends before any stage,
    or goes through the two cached stages and then through the render and
    composite stages. *)
Lemma process_job_course audio_path video_path output_dir pc quality w r w' :
  reporter_quiet pc →
  process_job BASE_DIR env audio_path video_path output_dir pc quality w = (r, w') →
  no_stage_run audio_path output_dir w r w' ∨
  ∃ content w1 r1 w2,
    files w !! audio_path = Some content ∧ files w1 = files w ∧ calls w1 = calls w ∧
    stage_outcome Whisper (env_whisper env) audio_path
      (seg_cache_path BASE_DIR (md5_hexdigest env content))
      (segments_json BASE_DIR) w1 r1 w2 ∧
    match r1 with
    | Raise e => r = Raise e ∧ files w' = files w2 ∧ calls w' = calls w2
    | Ok _ =>
        ∃ r2 w3,
          stage_outcome Librosa (env_librosa env) audio_path
            (beats_cache_path BASE_DIR (md5_hexdigest env content))
            (beats_json BASE_DIR) w2 r2 w3 ∧
          match r2 with
          | Raise e => r = Raise e ∧ files w' = files w3 ∧ calls w' = calls w3
          | Ok _ =>
              ∃ w4, files w4 = files w3 ∧ calls w4 = calls w3 ∧
                render_and_compose BASE_DIR env audio_path video_path output_dir
                                   pc quality w4 = (r, w')
          end
    end.
Proof.
  intros Hpc. pose proof (_update_quiet pc Hpc) as Hupd.
  rewrite process_job_unfold. rewrite bind_run. unfold os_makedirs at 1.
  destruct (files w !! output_dir) as [x|] eqn:Ho.
  { intros [= <- <-]. left. eexists. split_and!; eauto. }
  rewrite bind_run.
  match goal with
  | |- context [_update pc 5 ?msg ?w0] =>
      destruct (Hupd 5 msg w0) as (w1 & -> & [= Hf1 Hd1 Hc1])
  end.
  wsimpl. rewrite bind_run, _hash_file_run, Hf1.
  destruct (files w !! audio_path) as [content|] eqn:Ha.
  2: { intros [= <- <-]. left. eexists. split_and!; eauto. }
  intros E. right. set (h := md5_hexdigest env content) in *.
  rewrite bind_run in E.
  destruct (segments_stage BASE_DIR env (_update pc) audio_path
              (seg_cache_path BASE_DIR h) w1) as [r1 w2] eqn:E1.
  apply segments_stage_spec in E1 as [Hd2 Hs1];
    [|done|apply (pipeline_paths_distinct BASE_DIR h h)].
  exists content, w1, r1, w2. split_and!; try done.
  destruct r1 as [x1|e1]; [|by injection E as <- <-].
  rewrite bind_run in E.
  destruct (beats_stage BASE_DIR env (_update pc) audio_path
              (beats_cache_path BASE_DIR h) w2) as [r2 w3] eqn:E2.
  apply beats_stage_spec in E2 as [Hd3 Hs2];
    [|done|apply (pipeline_paths_distinct BASE_DIR h h)].
  exists r2, w3. split; [done|].
  destruct r2 as [x2|e2]; [|by injection E as <- <-].
  rewrite bind_run in E.
  match type of E with
  | context [_update pc 55 ?msg ?w0] =>
      destruct (Hupd 55 msg w0) as (w4 & Hu & [= Hf4 Hd4 Hc4]); rewrite Hu in E
  end.
  by exists w4.
Qed.

(** what the render stage contributes to the record of invocations *)
Lemma _run_manim_calls audio_path quality w4 rm w5 :
  _run_manim BASE_DIR env quality w4 = (rm, w5) →
  ∃ cm, calls w5 = calls w4 ++ [cm] ∧ call_engine cm = Manim ∧
    match rm with
    | Ok _ => all_succeeded env audio_path [cm]
    | Raise _ => failures_final env audio_path [cm] rm
    end.
Proof.
  rewrite _run_manim_run. cbv zeta. intros E.
  exists (mkCall Manim (manim_cmd quality) (tick w4) (files w4)). revert E.
  destruct (env_manim env (tick w4) (manim_cmd quality) (files w4))
    as [e|[rc written]] eqn:Ho.
  { intros [= <- <-]. wsimpl. split_and!; [done | done |].
    intros c e' ->%list_elem_of_singleton [Hf|(rc & written & Hf & _)];
      cbn in Hf; rewrite Ho in Hf; [|done]. by injection Hf as ->. }
  case_bool_decide as Hrc.
  - assert (all_succeeded env audio_path
              [mkCall Manim (manim_cmd quality) (tick w4) (files w4)]) as Hclean.
    { intros c e' ->%list_elem_of_singleton [Hf|(rc' & written' & Hf & Hne & _)];
        cbn in Hf; rewrite Ho in Hf; [done|]. injection Hf as <- _. done. }
    destruct (env_glob _ _ _) as [|m rest]; intros [= <- <-]; wsimpl.
    + split_and!; [done | done | by apply failures_final_clean].
    + by split_and!.
  - intros [= <- <-]. wsimpl. split_and!; [done | done |].
    intros c e' ->%list_elem_of_singleton [Hf|(rc' & written' & Hf & Hne & ->)];
      cbn in Hf; rewrite Ho in Hf; [done|]. by injection Hf as <- _.
Qed.

(** what the composite stage contributes *)
Lemma composed_calls audio_path video_path output_dir f5 manim_out uid news r f' :
  composed env audio_path video_path output_dir f5 manim_out uid news r f' →
  at_most_one Ffmpeg news ∧ failures_final env audio_path news r ∧
  (∀ p, r = Ok p → news ≠ []).
Proof.
  intros [Hm | mdata Hm Hsame | mdata t r0 f0 Hm Hne overlay final cmd f6 Ho].
  - split_and!; [by left | apply failures_final_clean, all_succeeded_nil | done].
  - split_and!; [by left | apply failures_final_clean, all_succeeded_nil | done].
  - split_and!; [right; eauto | | done].
    intros c e' ->%list_elem_of_singleton [Hf|(rc' & data' & Hf & Hrc & ->)];
      cbn in Hf; fold overlay final cmd f6 in Hf; rewrite Hf in Ho.
    + by destruct Ho as [-> _].
    + rewrite bool_decide_eq_false_2 in Ho by done. by destruct Ho as [-> _].
Qed.

(** The invocations of one run, stage by stage: what each of the four
    engines has contributed, in the order of the stages. *)
Lemma process_job_calls audio_path video_path output_dir pc quality w r w' :
  reporter_quiet pc →
  process_job BASE_DIR env audio_path video_path output_dir pc quality w = (r, w') →
  ∃ n1 n2 n3 n4,
    calls w' = calls w ++ n1 ++ n2 ++ n3 ++ n4 ∧
    at_most_one Whisper n1 ∧ at_most_one Librosa n2 ∧
    at_most_one Manim n3 ∧ at_most_one Ffmpeg n4 ∧
    failures_final env audio_path (n1 ++ n2 ++ n3 ++ n4) r ∧
    (∀ p, r = Ok p → n3 ≠ [] ∧ n4 ≠ []).
Proof.
  intros Hpc E.
  destruct (process_job_course _ _ _ _ _ _ _ _ Hpc E)
    as [(e & -> & Hf & Hc & _) | (content & w1 & r1 & w2 & Ha & Hf1 & Hc1 & Hs1 & Hrest)].
  { exists [], [], [], []. cbn [app]. rewrite app_nil_r.
    split_and!; try (by left); [done | | done].
    apply failures_final_clean, all_succeeded_nil. }
  apply (stage_outcome_calls env) in Hs1 as (n1 & Hn1 & Hone1 & Hr1); [|done].
  rewrite Hc1 in Hn1.
  destruct r1 as [x1|e1].
  2: { destruct Hrest as (-> & _ & Hc). exists n1, [], [], []. cbn [app].
       rewrite app_nil_r. split_and!; try (by left); try done. by rewrite Hc. }
  destruct Hrest as (r2 & w3 & Hs2 & Hrest).
  apply (stage_outcome_calls env) in Hs2 as (n2 & Hn2 & Hone2 & Hr2); [|done].
  rewrite Hn1 in Hn2.
  destruct r2 as [x2|e2].
  2: { destruct Hrest as (-> & _ & Hc). exists n1, n2, [], []. cbn [app].
       rewrite app_nil_r. split_and!; try (by left); try done.
       - by rewrite Hc, Hn2, <- app_assoc.
       - by repeat (apply failures_final_app; [done|]). }
  destruct Hrest as (w4 & _ & Hc4 & Hrest).
  apply render_and_compose_spec in Hrest as (rm & w5 & Em & Hrest); [|done].
  apply (_run_manim_calls audio_path) in Em as (cm & Hc5 & Hcm & Hrm).
  rewrite Hc4, Hn2 in Hc5.
  destruct rm as [manim_out|em].
  2: { destruct Hrest as (-> & _ & Hc). exists n1, n2, [cm], []. cbn [app].
       split_and!; try (by left); try done.
       - by rewrite Hc, Hc5, <- !app_assoc.
       - right; eauto.
       - by repeat (apply failures_final_app; [done|]). }
  destruct Hrest as (n4 & Hcomp & Hc).
  apply composed_calls in Hcomp as (Hone4 & Hr4 & Hok).
  exists n1, n2, [cm], n4. split_and!; try done.
  - by rewrite Hc, Hc5, <- !app_assoc.
  - right; eauto.
  - by repeat (apply failures_final_app; [done|]).
  - intros p Hp. split; [done | eauto].
Qed.

(** The engines of a job are started in the order of the stages, Whisper,
    Librosa, manim, ffmpeg, and none of them more than once.  A job that
    returns has started manim and then ffmpeg. *)
Theorem engines_started_in_order audio_path video_path output_dir pc quality w r w' :
  reporter_quiet pc →
  process_job BASE_DIR env audio_path video_path output_dir pc quality w = (r, w') →
  ∃ news, calls w' = calls w ++ news ∧
    call_engine <$> news `sublist_of` [Whisper; Librosa; Manim; Ffmpeg] ∧
    (∀ p, r = Ok p → [Manim; Ffmpeg] `suffix_of` call_engine <$> news).
Proof.
  intros Hpc E.
  destruct (process_job_calls _ _ _ _ _ _ _ _ Hpc E)
    as (n1 & n2 & n3 & n4 & Hc & H1 & H2 & H3 & H4 & _ & Hok).
  exists (n1 ++ n2 ++ n3 ++ n4). split; [done|]. rewrite !fmap_app. split.
  - apply at_most_one_sublist in H1 as [->| ->], H2 as [->| ->],
      H3 as [->| ->], H4 as [->| ->]; cbn [app]; repeat constructor.
  - intros p Hp. destruct (Hok p Hp) as [Hn3 Hn4].
    destruct H3 as [->|(c3 & -> & E3)]; [done|].
    destruct H4 as [->|(c4 & -> & E4)]; [done|].
    cbn [fmap list_fmap app]. rewrite E3, E4.
    exists (call_engine <$> n1 ++ n2). by rewrite fmap_app, <- app_assoc.
Qed.

(** When an engine fails, the job raises the engine's error and no further
    engine is started: a failed invocation is the last one of the job. *)
Theorem failed_engine_ends_job audio_path video_path output_dir pc quality w r w'
    (c : Call) (e : exn) :
  reporter_quiet pc →
  process_job BASE_DIR env audio_path video_path output_dir pc quality w = (r, w') →
  c ∈ drop (length (calls w)) (calls w') →
  engine_failed env audio_path c e →
  r = Raise e ∧ last (calls w') = Some c.
Proof.
  intros Hpc E Hc Hf.
  destruct (process_job_calls _ _ _ _ _ _ _ _ Hpc E)
    as (n1 & n2 & n3 & n4 & Hcalls & _ & _ & _ & _ & Hfinal & _).
  rewrite Hcalls, drop_app_length in Hc.
  destruct (Hfinal c e Hc Hf) as [-> Hl]. split; [done|].
  by rewrite Hcalls, last_app, Hl.
Qed.



(** a run that returns has written its output with the token it drew *)
Lemma process_job_output_written audio_path video_path output_dir pc quality w p w' :
  reporter_quiet pc →
  process_job BASE_DIR env audio_path video_path output_dir pc quality w = (Ok p, w') →
  ∃ uid, output_written env video_path audio_path output_dir w p w' uid.
Proof.
  intros Hpc E.
  destruct (process_job_course _ _ _ _ _ _ _ _ Hpc E)
    as [(e & [=] & _) | (content & w1 & r1 & w2 & _ & _ & Hc1 & Hs1 & Hrest)].
  apply (stage_outcome_calls env) in Hs1 as (n1 & Hn1 & _ & _); [|done].
  rewrite Hc1 in Hn1.
  destruct r1 as [x1|e1]; [|by destruct Hrest as ([=] & _)].
  destruct Hrest as (r2 & w3 & Hs2 & Hrest).
  apply (stage_outcome_calls env) in Hs2 as (n2 & Hn2 & _ & _); [|done].
  rewrite Hn1 in Hn2.
  destruct r2 as [x2|e2]; [|by destruct Hrest as ([=] & _)].
  destruct Hrest as (w4 & _ & Hc4 & Hrest).
  apply render_and_compose_spec in Hrest as (rm & w5 & Em & Hrest); [|done].
  destruct rm as [manim_out|em]; [|by destruct Hrest as ([=] & _)].
  destruct Hrest as (news & Hcomp & Hc).
  assert (calls w5 = calls w4 ++ [mkCall Manim (manim_cmd quality) (tick w4) (files w4)] ∧
          tick w5 = (tick w4 + 2)%nat) as [Hc5 Ht5].
  { rewrite _run_manim_run in Em. cbv zeta in Em.
    destruct (env_manim env (tick w4) (manim_cmd quality) (files w4))
      as [e|[rc written]]; [done|].
    case_bool_decide; [|done].
    destruct (env_glob _ _ _) as [|m rest]; [done|].
    injection Em as _ <-. wsimpl. split; [done | lia]. }
  inversion Hcomp as [ | | mdata t r0 f0 Hm Hne overlay final cmd f6 Ho]; subst.
  destruct (env_ffmpeg env t cmd f6) as [e|[rc data]] eqn:Hff;
    [by destruct Ho as ([=] & _)|].
  case_bool_decide as Hrc; [|by destruct Ho as ([=] & _)].
  destruct Ho as ([= ->] & Hf). subst rc.
  exists (unique_id_at env (tick w5)), (n1 ++ n2),
    (mkCall Manim (manim_cmd quality) (tick w4) (files w4)),
    (mkCall Ffmpeg cmd t f6), overlay, data.
  cbn [call_engine call_args call_tick call_files].
  split_and!; try done.
  - by rewrite Hc, Hc5, Hc4, Hn2, <- !app_assoc.
  - by rewrite Ht5.
  - rewrite Hf. apply lookup_insert_eq.
Qed.

(** C8, as the code has it.  A job that completes writes its final output
    to [final_<token>.mp4] in the output directory, where the token is the
    one drawn in that run, after its render: the local time to the second
    and four characters drawn at random.  ffmpeg is started with [-y] and
    that path as output, and the file there holds what ffmpeg has produced,
    whether or not a file was there before.  Two completed jobs with the same
    output directory have different output paths exactly when the tokens they
    drew differ; nothing in the code makes them differ. *)
Theorem output_path_from_token
    (a1 v1 : string) (pc1 : option (Z → string → M unit)) (q1 : string)
    (a2 v2 : string) (pc2 : option (Z → string → M unit)) (q2 : string)
    (output_dir : string) (wa wa' wb wb' : World) (p1 p2 : string) :
  reporter_quiet pc1 → reporter_quiet pc2 →
  process_job BASE_DIR env a1 v1 output_dir pc1 q1 wa = (Ok p1, wa') →
  process_job BASE_DIR env a2 v2 output_dir pc2 q2 wb = (Ok p2, wb') →
  ∃ u1 u2,
    output_written env v1 a1 output_dir wa p1 wa' u1 ∧
    output_written env v2 a2 output_dir wb p2 wb' u2 ∧
    (p1 ≠ p2 ↔ u1 ≠ u2).
Proof.
  intros Hpc1 Hpc2 E1 E2.
  destruct (process_job_output_written _ _ _ _ _ _ _ _ Hpc1 E1) as [u1 H1].
  destruct (process_job_output_written _ _ _ _ _ _ _ _ Hpc2 E2) as [u2 H2].
  exists u1, u2. split_and!; [done | done |].
  destruct H1 as (? & ? & ? & ? & ? & _ & _ & _ & _ & -> & _).
  destruct H2 as (? & ? & ? & ? & ? & _ & _ & _ & _ & -> & _).
  split.
  - intros Hne Heq. apply Hne. by rewrite Heq.
  - intros Hne Heq. by apply Hne, (final_output_path_inj output_dir).
Qed.

End Course.

(** * More about the worker and the job store *)

(** ** The progress values of a job *)

Section Milestones.
Variable BASE_DIR : string.
Variable env : Env.
Variables (jid : nat) (w0 : World).

Local Abbreviation MR := (milestones_reported jid w0).
Local Abbreviation upd := (_update (Some (progress_callback env jid))).

Lemma milestones_reported_db_part n w w' :
  db_part w' = db_part w → MR n w → MR n w'.
Proof.
  unfold db_part, milestones_reported. intros [= E1 E2 E3 E4 E5]. by rewrite E1, E5.
Qed.

Lemma ended_silent {A} n (m : M A) :
  keeps db_part m → (n < 6)%nat → triple (MR n) m (ended_after jid w0 n).
Proof.
  intros Hm Hn w r w' HP E. exists n. split.
  - eapply milestones_reported_db_part; [|exact HP]. eauto.
  - by destruct r.
Qed.

Lemma ended_ret {A} n (a : A) : triple (MR n) (mret a) (ended_after jid w0 n).
Proof. intros w r w' HP [= <- <-]. by exists n. Qed.

Lemma ended_then {A B} n k k' (m : M A) (f : A → M B) :
  triple (MR n) m (ended_after jid w0 k) → (k ≤ k')%nat →
  (∀ a, triple (MR k) (f a) (ended_after jid w0 k')) →
  triple (MR n) (m ≫= f) (ended_after jid w0 k').
Proof.
  intros Hm Hk Hf. eapply triple_bind; [exact Hm | |].
  - intros a w r w' (n' & HP & ->). by apply Hf.
  - intros e w (n' & HP & Hle & Hlt). exists n'. split; [done|]. split; [lia | done].
Qed.

Lemma ended_silent_then {A B} n k (m : M A) (f : A → M B) :
  keeps db_part m → (n < 6)%nat → (n ≤ k)%nat →
  (∀ a, triple (MR n) (f a) (ended_after jid w0 k)) →
  triple (MR n) (m ≫= f) (ended_after jid w0 k).
Proof. intros Hm Hn Hk Hf. eapply ended_then; [by apply ended_silent | done | done]. Qed.

Lemma _update_milestone n p msg :
  milestones !! n = Some p →
  triple (MR n) (upd p msg) (λ r w, r = Ok tt ∧ MR (S n) w).
Proof.
  intros Hp w r w' [[j Hj] (l & Hl & Hpr)]. cbn [_update].
  rewrite (progress_callback_run _ _ _ _ _ _ Hj). cbv zeta. intros [= <- <-].
  split; [done|]. split; wsimpl.
  - rewrite lookup_insert_eq. eauto.
  - eexists (l ++ [_]). rewrite Hl, <- app_assoc. split; [done|].
    rewrite fmap_app, Hpr, (take_S_r _ _ _ Hp). f_equal. cbn.
    apply list_elem_of_lookup_2 in Hp.
    assert (0 ≤ p ≤ 100) as Hb.
    { unfold milestones in Hp.
      repeat (apply elem_of_cons in Hp as [->|Hp]; [lia|]). by apply elem_of_nil in Hp. }
    f_equal. lia.
Qed.

Lemma ended_update_then {B} n p k msg (f : unit → M B) :
  milestones !! n = Some p → (S n ≤ k)%nat →
  (∀ a, triple (MR (S n)) (f a) (ended_after jid w0 k)) →
  triple (MR n) (upd p msg ≫= f) (ended_after jid w0 k).
Proof.
  intros Hp Hk Hf. eapply triple_bind; [by apply _update_milestone | |].
  - intros a w r w' [_ HP]. by apply Hf.
  - intros e w [[=] _].
Qed.

Lemma segments_stage_milestones a c :
  triple (MR 1) (segments_stage BASE_DIR env upd a c) (ended_after jid w0 2).
Proof.
  unfold segments_stage.
  apply ended_silent_then; [apply os_path_exists_keeps | lia | lia |]. intros [].
  - apply ended_update_then; [done | lia |]. intros _.
    apply ended_silent; [apply shutil_copy_keeps_db | lia].
  - apply ended_update_then; [done | lia |]. intros _.
    apply ended_silent_then; [apply transcribe_audio_keeps_db | lia | lia |]. intros _.
    apply ended_silent; [apply shutil_copy_keeps_db | lia].
Qed.

Lemma beats_stage_milestones a c :
  triple (MR 2) (beats_stage BASE_DIR env upd a c) (ended_after jid w0 3).
Proof.
  unfold beats_stage.
  apply ended_silent_then; [apply os_path_exists_keeps | lia | lia |]. intros [].
  - apply ended_update_then; [done | lia |]. intros _.
    apply ended_silent; [apply shutil_copy_keeps_db | lia].
  - apply ended_update_then; [done | lia |]. intros _.
    apply ended_silent_then; [apply analyze_beats_keeps_db | lia | lia |]. intros _.
    apply ended_silent; [apply shutil_copy_keeps_db | lia].
Qed.

(** The pipeline reports the six milestones in order.  When it returns, all
    six have been persisted; when it raises, the first few of them, and never
    the last. *)
Lemma process_job_milestones a v o q :
  triple (MR 0)
    (process_job BASE_DIR env a v o (Some (progress_callback env jid)) q)
    (ended_after jid w0 6).
Proof.
  unfold process_job.
  apply ended_silent_then; [apply os_makedirs_keeps_db | lia | lia |]. intros _.
  apply ended_update_then; [done | lia |]. intros _.
  apply ended_silent_then; [apply _hash_file_keeps | lia | lia |]. intros h.
  eapply ended_then; [apply segments_stage_milestones | lia |]. intros _.
  eapply ended_then; [apply beats_stage_milestones | lia |]. intros _.
  apply ended_update_then; [done | lia |]. intros _.
  apply ended_silent_then; [apply _run_manim_keeps_db | lia | lia |]. intros manim_out.
  apply ended_silent_then; [apply _unique_id_keeps_db | lia | lia |]. intros uid.
  apply ended_silent_then; [apply shutil_copy_keeps_db | lia | lia |]. intros _.
  apply ended_update_then; [done | lia |]. intros _.
  apply ended_silent_then; [apply _overlay_video_keeps_db | lia | lia |]. intros _.
  apply ended_update_then; [done | lia |]. intros _.
  apply ended_ret.
Qed.

End Milestones.

Section ProgressValues.
Variable BASE_DIR : string.
Variable env : Env.

(** The progress values a job goes through, as readers of the job store can
    see them: 5 when the worker takes the job, then the milestones 5, 15,
    35, 55, 80, 100 of the pipeline as far as it gets, then 100 with status
    done when the pipeline has returned, or 0 with status error when it has
    raised.  A job that fails never shows the milestone 100. *)
Theorem job_progress_values (jid : nat) (w : World) (job : Job) :
  jobs w !! jid = Some job → 1 ≤ unfinished_tasks w →
  ∃ w' block fin n,
    worker_iteration BASE_DIR env jid w = (Ok tt, w') ∧
    commits w' = commits w ++ block ∧ last block = Some fin ∧
    job_progress <$> block = 5 :: take n milestones ++ [job_progress fin] ∧
    (job_status fin = "done" ∧ job_progress fin = 100 ∧ n = 6%nat ∨
     job_status fin = "error" ∧ job_progress fin = 0 ∧ (n < 6)%nat).
Proof.
  intros Hjob Hun.
  pose proof (mark_running_run env jid w job Hjob) as Hmark. cbn zeta in Hmark.
  set (j0 := running_of (env_now env (tick w)) job) in *.
  set (w1 := set_commits _ _) in Hmark.
  assert (jobs w1 !! jid = Some j0) as Hj0 by (subst w1; wsimpl; apply lookup_insert_eq).
  destruct (run_pipeline BASE_DIR env jid job w1) as [r w2] eqn:Hrun.
  pose proof (process_job_reporting BASE_DIR env jid j0 w1 5 _ _ _ _ ltac:(done)
                w1 r w2 (reporting_start jid j0 w1 Hj0) Hrun)
    as [_ _ Hu _ (j & Hj & _) _].
  assert (milestones_reported jid w1 0 w1) as Hstart.
  { split; [eauto|]. exists []. by rewrite app_nil_r. }
  destruct (process_job_milestones BASE_DIR env jid w1 _ _ _ _ w1 r w2 Hstart Hrun)
    as (n & [_ (l & Hl & Hpr)] & Hn).
  assert (unfinished_tasks w2 = unfinished_tasks w) as Hu2 by (rewrite Hu; subst w1; by wsimpl).
  assert (commits w2 = commits w ++ j0 :: l) as Hc2.
  { rewrite Hl. subst w1; wsimpl. by rewrite <- app_assoc. }
  destruct r as [output_path|e].
  - pose proof (on_success_run env jid job output_path w2 j Hj) as Hfin.
    cbn zeta in Hfin. set (fin := done_of _ _ j) in Hfin.
    set (w3 := set_commits _ _) in Hfin.
    exists (set_unfinished (λ _, unfinished_tasks w - 1) w3), (j0 :: l ++ [fin]), fin, n.
    split_and!.
    + unfold worker_iteration, try_finally. mrun. rewrite Hjob.
      fold (mark_running env jid). rewrite Hmark. unfold try_except.
      fold (run_pipeline BASE_DIR env jid job). rewrite Hrun.
      fold (on_success env jid job output_path). rewrite Hfin.
      rewrite task_done_run by (subst w3; wsimpl; lia).
      subst w3; wsimpl. by rewrite Hu2.
    + subst w3; wsimpl. by rewrite Hc2, <- app_assoc.
    + by rewrite app_comm_cons, last_snoc.
    + cbn [fmap list_fmap]. by rewrite fmap_app, Hpr.
    + left. by subst n.
  - pose proof (on_error_run env jid e w2 j Hj) as Hfin.
    cbn zeta in Hfin. set (fin := error_of _ _ j) in Hfin.
    set (w3 := set_commits _ _) in Hfin.
    exists (set_unfinished (λ _, unfinished_tasks w - 1) w3), (j0 :: l ++ [fin]), fin, n.
    split_and!.
    + unfold worker_iteration, try_finally. mrun. rewrite Hjob.
      fold (mark_running env jid). rewrite Hmark. unfold try_except.
      fold (run_pipeline BASE_DIR env jid job). rewrite Hrun.
      fold (on_error env jid e). rewrite Hfin.
      rewrite task_done_run by (subst w3; wsimpl; lia).
      subst w3; wsimpl. by rewrite Hu2.
    + subst w3; wsimpl. by rewrite Hc2, <- app_assoc.
    + by rewrite app_comm_cons, last_snoc.
    + cbn [fmap list_fmap]. by rewrite fmap_app, Hpr.
    + right. by destruct Hn.
Qed.

End ProgressValues.

(** ** The queue and the rows *)

Section QueueAndRows.
Variable BASE_DIR : string.
Variable env : Env.

(** Between two turns of the worker the count of unfinished tasks is the
    number of queued ids, no id is queued twice, and a job created by this
    process is in the queue exactly as long as the status of its row is
    queued. *)
Theorem queue_matches_rows (s0 : System) (acts : list action) :
  initial s0 →
  let s := run BASE_DIR env s0 acts in
  unfinished_tasks (world s) = Z.of_nat (length (JOB_QUEUE (world s))) ∧
  NoDup (JOB_QUEUE (world s)) ∧
  ∀ k j, jobs (world s) !! k = Some j → history k (commits (world s)) ≠ [] →
    (k ∈ JOB_QUEUE (world s) ↔ job_status j = "queued").
Proof.
  intros Hinit s. pose proof (Inv_reachable BASE_DIR env s0 acts Hinit) as HI.
  fold s in HI. split_and!; [apply HI | apply HI |].
  intros k j Hj Hh. split.
  - intros Hk. destruct (inv_queue s HI k Hk) as (j' & Hj' & Hq & _).
    assert (j' = j) as -> by congruence. apply Hq.
  - intros Hst. destruct (decide (k ∈ JOB_QUEUE (world s))) as [|Hk]; [done|].
    destruct (inv_done s HI k j Hj Hk) as [[? _] | (c & block & _ & _ & _ & Hb & Hl)];
      [done|].
    destruct (job_block_last _ _ _ Hb Hl) as [(_ & Hd & _) | (_ & He & _)];
      rewrite Hst in *; discriminate.
Qed.

Lemma step_keeps_row_outside_queue (s : System) (a : action) (k : nat) (j : Job) :
  Inv s → jobs (world s) !! k = Some j → k ∉ JOB_QUEUE (world s) →
  jobs (world (step BASE_DIR env s a)) !! k = Some j ∧
  k ∉ JOB_QUEUE (world (step BASE_DIR env s a)).
Proof.
  intros HI Hj Hk. destruct a as [p a v|path data|].
  - cbn [step world]. destruct (enqueue_job env p a v (world s)) as [r w'] eqn:E.
    apply enqueue_job_spec in E
      as [E | (j' & _ & Hid & _ & _ & _ & _ & Hjobs & _ & Hq & _)]; cbn [snd].
    + unfold db_part in E. injection E as E1 _ E3 _ _. by rewrite E1, E3.
    + pose proof (fresh_job_id_fresh (jobs (world s))) as Hfresh. rewrite <- Hid in Hfresh.
      assert (k ≠ job_id j') as Hne by (intros ->; congruence).
      rewrite Hjobs, Hq, lookup_insert_ne by done. split; [done|].
      intros [?| ->%list_elem_of_singleton]%elem_of_app; done.
  - done.
  - destruct (JOB_QUEUE (world s)) as [|jid rest] eqn:Hq.
    { cbn [step]. rewrite (inv_alive s HI). cbn [worker_loop]. rewrite Hq.
      cbn [world]. by rewrite Hq. }
    destruct (work_spec BASE_DIR env s jid rest HI Hq)
      as (? & ? & ? & ? & ? & ? & ? & _ & _ & _ & _ & _ & -> & _ & Ho & Hq' & _).
    cbn [world]. rewrite Hq'.
    assert (k ≠ jid) as Hne by (intros ->; apply Hk; by left).
    rewrite Ho by done. split; [done|]. intros Hin. apply Hk. by right.
Qed.

Lemma run_keeps_row_outside_queue (acts : list action) : ∀ (s : System) (k : nat) (j : Job),
  Inv s → jobs (world s) !! k = Some j → k ∉ JOB_QUEUE (world s) →
  jobs (world (run BASE_DIR env s acts)) !! k = Some j.
Proof.
  induction acts as [|a acts IH]; intros s k j HI Hj Hk; [done|].
  destruct (step_keeps_row_outside_queue s a k j HI Hj Hk) as [Hj' Hk'].
  rewrite run_cons. apply IH; [by apply Inv_step | done | done].
Qed.

(** A row whose id is not in the queue never changes again, whatever the
    application does afterwards: the result of a finished job is final, and
    a job that an earlier run of the application has left queued or running
    is never taken up. *)
Theorem row_outside_queue_is_final (s0 : System) (acts more : list action)
    (k : nat) (j : Job) :
  initial s0 →
  jobs (world (run BASE_DIR env s0 acts)) !! k = Some j →
  k ∉ JOB_QUEUE (world (run BASE_DIR env s0 acts)) →
  jobs (world (run BASE_DIR env s0 (acts ++ more))) !! k = Some j.
Proof.
  intros Hinit Hj Hk. unfold run. rewrite foldl_app.
  apply (run_keeps_row_outside_queue more); [|done|done].
  by apply Inv_reachable.
Qed.

End QueueAndRows.

(** ** A queue entry without a row *)

Section VanishedRow.
Variable BASE_DIR : string.
Variable env : Env.

Lemma enqueue_job_keeps_medias project_id audio_path video_path :
  keeps medias (enqueue_job env project_id audio_path video_path).
Proof.
  intros w r w'. destruct w. unfold enqueue_job, db_add_job. mrun. wsimpl.
  by case_bool_decide; intros [= <- <-].
Qed.

Lemma dead_step (s : System) (a : action) :
  worker_alive s = false →
  worker_alive (step BASE_DIR env s a) = false ∧
  worker_log (commits (world (step BASE_DIR env s a))) = worker_log (commits (world s)).
Proof.
  intros Hdead. destruct a as [p a v|path data|].
  - cbn [step world worker_alive]. split; [done|].
    destruct (enqueue_job env p a v (world s)) as [r w'] eqn:E.
    apply enqueue_job_spec in E as [E | (j & _ & _ & Hq & _ & _ & _ & _ & Hc & _)]; cbn [snd].
    + unfold db_part in E. injection E as _ _ _ _ E. by rewrite E.
    + rewrite Hc. apply worker_log_queued_row, Hq.
  - done.
  - cbn [step]. by rewrite Hdead.
Qed.

Lemma dead_run (acts : list action) : ∀ s : System,
  worker_alive s = false →
  worker_alive (run BASE_DIR env s acts) = false ∧
  worker_log (commits (world (run BASE_DIR env s acts))) = worker_log (commits (world s)).
Proof.
  induction acts as [|a acts IH]; intros s Hdead; [done|].
  destruct (dead_step s a Hdead) as [Hd Hl].
  rewrite run_cons. destruct (IH _ Hd) as [Hd' Hl']. by rewrite Hl', Hl.
Qed.

(** When the only queued id has no row, the worker calls [task_done] twice,
    once in the branch for the missing row and once in [finally]; the second
    call raises and the exception leaves the loop.  From then on no job is
    ever run: the worker persists nothing more, whatever is enqueued. *)
Theorem vanished_row_stops_worker (s : System) (jid : nat) (acts : list action) :
  worker_alive s = true → JOB_QUEUE (world s) = [jid] →
  unfinished_tasks (world s) = 1 → jobs (world s) !! jid = None →
  let s' := run BASE_DIR env (step BASE_DIR env s Work) acts in
  worker_alive (step BASE_DIR env s Work) = false ∧
  worker_alive s' = false ∧
  worker_log (commits (world s')) = worker_log (commits (world s)).
Proof.
  intros Halive Hq Hu Hj s'.
  assert (step BASE_DIR env s Work =
          mkSystem (set_unfinished (λ _, 0) (set_queue (λ _, []) (world s))) false) as Hstep.
  { cbn [step]. rewrite Halive. cbn [worker_loop]. rewrite Hq, bind_run.
    by rewrite absent_row_ends_worker by (by wsimpl). }
  destruct (dead_run acts (step BASE_DIR env s Work)) as [Hd Hl].
  { by rewrite Hstep. }
  split_and!; [by rewrite Hstep | done |].
  subst s'. rewrite Hl, Hstep. by wsimpl.
Qed.

End VanishedRow.

(** ** Media rows *)

Lemma done_log_app l1 l2 : done_log (l1 ++ l2) = done_log l1 ++ done_log l2.
Proof. apply filter_app. Qed.

Lemma done_log_running job l :
  Forall (running_row job) l → done_log l = [].
Proof.
  intros H. apply filter_none. eapply Forall_impl; [exact H|].
  intros c (_ & Hst & _). by rewrite Hst.
Qed.

Lemma done_log_block job block fin :
  job_block job block → last block = Some fin →
  done_log block = if bool_decide (job_status fin = "done") then [fin] else [].
Proof.
  intros (start & mid & fin' & -> & Hs & _ & _ & Hmid & _ & Hfin).
  rewrite app_comm_cons, last_snoc. intros [= ->].
  rewrite done_log_app.
  rewrite (done_log_running job) by (by constructor). cbn [app].
  unfold done_log. destruct Hfin as [(_ & Hst & _) | (_ & Hst & _)].
  - rewrite filter_cons_True by done. by rewrite bool_decide_eq_true_2.
  - rewrite filter_cons_False by (by rewrite Hst). rewrite bool_decide_eq_false_2; [done|].
    by rewrite Hst.
Qed.

Section MediaRows.
Variable BASE_DIR : string.
Variable env : Env.

Lemma step_medias (s : System) (a : action) :
  Inv s →
  ∃ newm newc,
    medias (world (step BASE_DIR env s a)) = medias (world s) ++ newm ∧
    commits (world (step BASE_DIR env s a)) = commits (world s) ++ newc ∧
    Forall2 media_of newm (done_log newc).
Proof.
  intros HI. destruct a as [p a v|path data|].
  - cbn [step world]. destruct (enqueue_job env p a v (world s)) as [r w'] eqn:E.
    pose proof (enqueue_job_keeps_medias env p a v _ _ _ E) as Hm.
    apply enqueue_job_spec in E as [E | (j & _ & _ & Hq & _ & _ & _ & _ & Hc & _)]; cbn [snd].
    + unfold db_part in E. injection E as _ _ _ _ E.
      exists [], []. rewrite !app_nil_r. split_and!; [done | done | constructor].
    + exists [], [j]. rewrite app_nil_r. split_and!; [done | done |].
      unfold done_log. rewrite filter_cons_False; [constructor|].
      destruct Hq as (-> & _). done.
  - exists [], []. rewrite !app_nil_r. split_and!; [done | done | constructor].
  - destruct (JOB_QUEUE (world s)) as [|jid rest] eqn:Hq.
    { cbn [step]. rewrite (inv_alive s HI). cbn [worker_loop]. rewrite Hq.
      exists [], []. rewrite !app_nil_r. split_and!; [done | done | constructor]. }
    destruct (inv_queue s HI jid) as (job & Hjob & Hqr & Hh).
    { rewrite Hq. by left. }
    pose proof (inv_unfinished s HI) as Hun. rewrite Hq in Hun. cbn [length] in Hun.
    destruct (worker_iteration_spec BASE_DIR env jid
                (set_queue (λ _, rest) (world s)) job)
      as (w1 & r & w2 & w' & block & fin & Hmark & Hrun & Hit & Hfin & Hoth & Hqueue
          & Hunf & Hcom & Hblock & Hlast & Hres).
    { by wsimpl. } { wsimpl. lia. }
    cbn [set_queue medias commits] in Hcom, Hres.
    assert (step BASE_DIR env s Work = mkSystem w' true) as ->.
    { cbn [step]. rewrite (inv_alive s HI). cbn [worker_loop].
      rewrite Hq, bind_run, Hit. done. }
    cbn [world]. pose proof (done_log_block _ _ _ Hblock Hlast) as Hdl.
    destruct r as [output_path|e].
    + destruct Hres as (Hd & Hout & Hm). eexists [_], block.
      split_and!; [exact Hm | done |].
      destruct Hd as ((Hid & _ & Hpid & _) & Hst & _).
      rewrite Hdl, bool_decide_eq_true_2 by done.
      constructor; [|constructor]. unfold media_of. cbn. by rewrite Hid, Hpid.
    + destruct Hres as (Hd & _ & Hm). exists [], block. rewrite app_nil_r.
      split_and!; [done | done |].
      destruct Hd as (_ & Hst & _).
      rewrite Hdl, bool_decide_eq_false_2 by (by rewrite Hst). constructor.
Qed.

Lemma run_medias (acts : list action) : ∀ s : System,
  Inv s →
  ∃ newm newc,
    medias (world (run BASE_DIR env s acts)) = medias (world s) ++ newm ∧
    commits (world (run BASE_DIR env s acts)) = commits (world s) ++ newc ∧
    Forall2 media_of newm (done_log newc).
Proof.
  induction acts as [|a acts IH]; intros s HI.
  { exists [], []. rewrite !app_nil_r. split_and!; [done | done | constructor]. }
  destruct (step_medias s a HI) as (m1 & c1 & Hm1 & Hc1 & H1).
  destruct (IH _ (Inv_step BASE_DIR env s a HI)) as (m2 & c2 & Hm2 & Hc2 & H2).
  exists (m1 ++ m2), (c1 ++ c2). rewrite run_cons, Hm2, Hm1, Hc2, Hc1, !app_assoc.
  split_and!; [done | done |]. rewrite done_log_app. by apply Forall2_app.
Qed.

(** The media table gets one row for every job that ends with status done,
    in the order in which the jobs end, and no other row: the row names the
    job and its project, its file path is the output path of the job, and
    its type is video.  A job that fails leaves no media row. *)
Theorem media_rows_match_done_jobs (s0 : System) (acts : list action) :
  initial s0 →
  let s := run BASE_DIR env s0 acts in
  ∃ new, medias (world s) = medias (world s0) ++ new ∧
         Forall2 media_of new (done_log (commits (world s))).
Proof.
  intros Hinit s.
  destruct (run_medias acts s0 (Inv_initial s0 Hinit)) as (newm & newc & Hm & Hc & H).
  exists newm. split; [done|]. subst s. rewrite Hc.
  destruct Hinit as (_ & -> & _). done.
Qed.

End MediaRows.

(** ** Creating a job *)

Section CreatingJobs.
Variable env : Env.

(** The uuid of a job is the first eight characters of a random UUID, and
    the column is unique.  When a row with the same eight characters exists,
    [enqueue_job] raises: no row is added and nothing is queued. *)
Theorem enqueue_job_rejects_duplicate_uuid
    (project_id : nat) (audio_path video_path : string) (w : World) (k : nat) (j : Job) :
  jobs w !! k = Some j →
  job_uuid j = String.substring 0 8 (env_uuid4 env (tick w)) →
  ∃ w', enqueue_job env project_id audio_path video_path w =
          (Raise (IntegrityError "UNIQUE constraint failed: jobs.uuid"), w') ∧
        db_part w' = db_part w.
Proof.
  intros Hj Hu. destruct w. unfold enqueue_job, db_add_job. mrun. wsimpl.
  rewrite bool_decide_eq_true_2 by eauto. eauto.
Qed.

(** Otherwise [enqueue_job] returns an id that is larger than every id in
    the table, leaves a row with status queued and progress 0 under that id,
    with the given project, audio and video, and puts the id at the end of
    the queue. *)
Theorem enqueue_job_creates_queued_row
    (project_id : nat) (audio_path video_path : string) (w : World) :
  (∀ k j, jobs w !! k = Some j →
          job_uuid j ≠ String.substring 0 8 (env_uuid4 env (tick w))) →
  ∃ w' id,
    enqueue_job env project_id audio_path video_path w = (Ok id, w') ∧
    (∀ k, is_Some (jobs w !! k) → (k < id)%nat) ∧
    jobs w' =
      <[id := mkJob id (String.substring 0 8 (env_uuid4 env (tick w)))
                    project_id audio_path video_path None
                    "queued" 0 "در صف انتظار..." None
                    (env_now env (S (tick w))) (env_now env (S (S (tick w))))]>
        (jobs w) ∧
    JOB_QUEUE w' = JOB_QUEUE w ++ [id] ∧
    unfinished_tasks w' = unfinished_tasks w + 1.
Proof.
  intros Hu. destruct w as [f d t c js ms q u cs].
  unfold enqueue_job, db_add_job. mrun. wsimpl.
  rewrite bool_decide_eq_false_2.
  2: { intros (k & j & Hj & Hjk). by apply (Hu k j). }
  eexists _, _. split; [reflexivity|]. wsimpl. split_and!; try done.
  intros k Hk. apply elem_of_dom, elem_of_elements, max_list_elem_of_le in Hk.
  cbn [job_id]. unfold fresh_job_id. lia.
Qed.

End CreatingJobs.

(** * The request handlers *)

Lemma hbind_run {A B} (m : H A) (f : A → H B) (s : Site) :
  (m ≫= f) s =
  match m s with
  | (Ok a, s') => f a s'
  | (Raise e, s') => (Raise e, s')
  end.
Proof. reflexivity. Qed.

Lemma lift_run {A} (m : M A) (s : Site) :
  lift m s = (fst (m (site_world s)),
              mkSite (snd (m (site_world s))) (projects s) (flashes s)).
Proof. unfold lift. by destruct (m (site_world s)). Qed.

(** read fields of a site given by its parts *)
Ltac ssimpl := cbn [site_world projects flashes fst snd prj_id prj_name] in *; wsimpl.

(** ** Saving an upload *)

Lemma _save_upload_run (BASE_DIR : string) (f : FileStorage) (subdir : string) (w : World) :
  filename f ≠ "" →
  _save_upload BASE_DIR (Some f) subdir w =
  let folder := path_join (UPLOAD_DIR BASE_DIR) subdir in
  match files w !! folder with
  | Some _ => (Raise (FileExistsError ("[Errno 17] File exists: " +:+ repr_str folder)), w)
  | None =>
      (Ok (path_join folder (filename f)),
       set_files (<[path_join folder (filename f) := stream f]>)
                 (set_dirs (λ d, {[folder]} ∪ d) w))
  end.
Proof.
  intros Hne. unfold _save_upload. rewrite bool_decide_eq_false_2 by done.
  cbv zeta. rewrite bind_run. unfold os_makedirs.
  by destruct (files w !! _).
Qed.

(** [_save_upload] joins the upload folder and the file name the client has
    sent as it is.  A file name that starts with a slash replaces the
    folder: when the upload is saved, it is saved at the client's path, and
    neither [UPLOAD_DIR] nor the folder of the project is part of it. *)
Theorem _save_upload_unsanitized (BASE_DIR : string) (f : FileStorage) (subdir : string)
    (w : World) (p : string) (w' : World) :
  startswith_slash (filename f) = true →
  _save_upload BASE_DIR (Some f) subdir w = (Ok p, w') →
  p = filename f ∧ files w' !! filename f = Some (stream f).
Proof.
  intros Hs. rewrite _save_upload_run by (by destruct (filename f)). cbv zeta.
  destruct (files w !! _); [done|]. intros [= <- <-].
  unfold path_join at 1 3. rewrite Hs. split; [done|]. wsimpl.
  apply lookup_insert_eq.
Qed.

(** ** Creating a project *)

Section ProjectsList.
Variable BASE_DIR : string.
Variable env : Env.
Variable newest_first : gmap nat Project → list Project.

(** A POST to [/projects] without an audio file or without a video file
    flashes an error and redirects to the list: nothing is saved, and no
    project and no job is created. *)
Theorem projects_list_requires_both_files (request : Request) (s : Site) :
  method request = POST →
  no_file (files_audio request) = true ∨ no_file (files_video request) = true →
  ∃ message,
    projects_list BASE_DIR env newest_first request s =
    (Ok (Redirect "projects_list" []),
     mkSite (site_world s) (projects s) (flashes s ++ [(message, "error")])).
Proof.
  intros Hm Hno. unfold projects_list. rewrite Hm. cbv zeta.
  destruct (no_file (files_audio request)) eqn:Ha; [by eexists|].
  destruct Hno as [|Hv]; [done|]. rewrite Hv. by eexists.
Qed.

Lemma now_run (w : World) : now env w = (Ok (env_now env (tick w)), set_tick S w).
Proof. reflexivity. Qed.

Lemma enqueue_job_run (project_id : nat) (audio_path video_path : string) (w : World) :
  enqueue_job env project_id audio_path video_path w =
  let uuid := String.substring 0 8 (env_uuid4 env (tick w)) in
  let id := fresh_job_id (jobs w) in
  let j := mkJob id uuid project_id audio_path video_path None
                 "queued" 0 "در صف انتظار..." None
                 (env_now env (S (tick w))) (env_now env (S (S (tick w)))) in
  if bool_decide (∃ k j', jobs w !! k = Some j' ∧ job_uuid j' = uuid)
  then (Raise (IntegrityError "UNIQUE constraint failed: jobs.uuid"),
        set_tick (λ t, S (S (S t))) w)
  else (Ok id,
        set_unfinished (λ n, n + 1)
          (set_queue (λ q, q ++ [id])
             (set_commits (λ l, l ++ [j])
                (set_jobs (<[id := j]>) (set_tick (λ t, S (S (S t))) w))))).
Proof.
  destruct w. unfold enqueue_job, db_add_job. mrun. wreduce. cbn [job_id job_uuid].
  by case_bool_decide.
Qed.

(** A POST with both files, step by step: the uploads fail on a file in the
    place of the folder, or both are saved, the project is stored, and the
    request ends as [enqueue_job] ends. *)
Lemma projects_list_post (request : Request) (s : Site) (a v : FileStorage) :
  method request = POST →
  files_audio request = Some a → files_video request = Some v →
  filename a ≠ "" → filename v ≠ "" →
  let w := site_world s in
  let folder := path_join (UPLOAD_DIR BASE_DIR)
                          ("project_" +:+ strftime (env_now env (tick w))) in
  let pa := path_join folder (filename a) in
  let pv := path_join folder (filename v) in
  let w3 := set_tick S
              (set_files (<[pv := stream v]>)
                 (set_dirs (λ d, {[folder]} ∪ d)
                    (set_files (<[pa := stream a]>)
                       (set_dirs (λ d, {[folder]} ∪ d) (set_tick S w))))) in
  let pid := S (max_list (elements (dom (projects s)))) in
  let p := mkProject pid (or_default (form_name request) "پروژه بدون نام") pa pv
                     (env_now env (S (tick w))) in
  (∃ msg s', projects_list BASE_DIR env newest_first request s
             = (Raise (FileExistsError msg), s') ∧
             projects s' = projects s ∧ db_part (site_world s') = db_part w) ∨
  (files w !! folder = None ∧ pa ≠ folder ∧
   projects_list BASE_DIR env newest_first request s =
   match enqueue_job env pid pa pv w3 with
   | (Ok job_id, w4) =>
       (Ok (Redirect "project_detail" [("project_id", pid)]),
        mkSite w4 (<[pid := p]> (projects s))
               (flashes s ++ [(created_message (prj_name p) job_id, "success")]))
   | (Raise e, w4) => (Raise e, mkSite w4 (<[pid := p]> (projects s)) (flashes s))
   end).
Proof.
  intros Hm Ha Hv Hna Hnv. cbv zeta.
  unfold projects_list. rewrite Hm, Ha, Hv. cbv zeta.
  unfold no_file. rewrite !bool_decide_eq_false_2 by done.
  rewrite hbind_run, lift_run, now_run. ssimpl.
  rewrite hbind_run, lift_run, _save_upload_run by done. cbv zeta. ssimpl.
  set (folder := path_join (UPLOAD_DIR BASE_DIR) _).
  destruct (files (site_world s) !! folder) as [x|] eqn:Hfolder.
  { left. ssimpl. eexists _, _. split; [reflexivity|]. by ssimpl. }
  ssimpl.
  rewrite hbind_run, lift_run, _save_upload_run by done. cbv zeta. ssimpl.
  fold folder.
  destruct (decide (path_join folder (filename a) = folder)) as [Heq|Hne].
  { left. rewrite Heq, lookup_insert_eq. ssimpl.
    eexists _, _. split; [reflexivity|]. by ssimpl. }
  right. rewrite lookup_insert_ne, Hfolder by done. ssimpl.
  split; [done|]. split; [done|].
  rewrite hbind_run, lift_run, now_run. ssimpl.
  rewrite hbind_run. unfold db_add_project at 1. ssimpl.
  rewrite hbind_run, lift_run. ssimpl.
  match goal with
  | |- context [enqueue_job env ?i ?x ?y ?w0] =>
      destruct (enqueue_job env i x y w0) as [[jid|e] w4] eqn:E
  end; ssimpl; [|done].
  rewrite hbind_run. unfold flash at 1. ssimpl. done.
Qed.

Lemma fresh_key_fresh {A} (m : gmap nat A) : m !! S (max_list (elements (dom m))) = None.
Proof.
  apply not_elem_of_dom. intros Hin. apply elem_of_elements in Hin.
  apply max_list_elem_of_le in Hin. lia.
Qed.

Lemma projects_list_post_ok (request : Request) (s : Site)
    (a v : FileStorage) (resp : Response) (s' : Site) :
  method request = POST →
  files_audio request = Some a → files_video request = Some v →
  filename a ≠ "" → filename v ≠ "" →
  projects_list BASE_DIR env newest_first request s = (Ok resp, s') →
  ∃ p j folder,
    resp = Redirect "project_detail" [("project_id", prj_id p)] ∧
    projects s !! prj_id p = None ∧ projects s' = <[prj_id p := p]> (projects s) ∧
    jobs (site_world s) !! job_id j = None ∧
    jobs (site_world s') = <[job_id j := j]> (jobs (site_world s)) ∧
    JOB_QUEUE (site_world s') = JOB_QUEUE (site_world s) ++ [job_id j] ∧
    queued_row j ∧ job_project_id j = prj_id p ∧
    job_audio_path j = prj_audio_path p ∧ job_video_path j = prj_video_path p ∧
    files (site_world s') !! prj_video_path p = Some (stream v) ∧
    prj_audio_path p = path_join folder (filename a) ∧
    prj_video_path p = path_join folder (filename v).
Proof.
  intros Hm Ha Hv Hna Hnv E.
  destruct (projects_list_post request s a v Hm Ha Hv Hna Hnv)
    as [(msg & s1 & E1 & _) | (Hfolder & Hne & E1)]; [congruence|].
  rewrite E in E1. clear E. rewrite enqueue_job_run in E1. cbv zeta in E1.
  case_bool_decide; [done|]. injection E1 as -> ->.
  eexists (mkProject _ _ _ _ _), (mkJob _ _ _ _ _ _ _ _ _ _ _ _), _.
  cbn [prj_id prj_audio_path prj_video_path job_id job_project_id job_audio_path
       job_video_path]. ssimpl.
  split_and!; try done.
  - apply fresh_key_fresh.
  - apply fresh_job_id_fresh.
  - apply lookup_insert_eq.
Qed.


(** When the audio and the video are uploaded under the same file name, the
    video is saved over the audio: the project and its job get one path for
    both, and the file there is the video. *)
Theorem same_file_name_loses_audio (request : Request) (s : Site)
    (a v : FileStorage) (resp : Response) (s' : Site) :
  method request = POST →
  files_audio request = Some a → files_video request = Some v →
  filename a ≠ "" → filename a = filename v →
  projects_list BASE_DIR env newest_first request s = (Ok resp, s') →
  ∃ pid p,
    resp = Redirect "project_detail" [("project_id", pid)] ∧
    projects s' !! pid = Some p ∧
    prj_audio_path p = prj_video_path p ∧
    files (site_world s') !! prj_audio_path p = Some (stream v).
Proof.
  intros Hm Ha Hv Hna Hsame E.
  destruct (projects_list_post_ok request s a v resp s')
    as (p & j & folder & Hresp & _ & Hp & _ & _ & _ & _ & _ & _ & _ & Hfile & Hpa & Hpv);
    try done.
  { by rewrite <- Hsame. }
  exists (prj_id p), p. split_and!; [done | | |].
  - rewrite Hp. apply lookup_insert_eq.
  - by rewrite Hpa, Hpv, Hsame.
  - by rewrite Hpa, Hsame, <- Hpv.
Qed.

(** When creating the job fails on a duplicate uuid, the request ends with
    that error after the uploads have been saved and the project has been
    stored.  Nothing is undone: the project stays in the table without a
    job, and nothing is queued. *)
Theorem failed_enqueue_leaves_project (request : Request) (s : Site)
    (a v : FileStorage) (msg : string) (s' : Site) :
  method request = POST →
  files_audio request = Some a → files_video request = Some v →
  filename a ≠ "" → filename v ≠ "" →
  projects_list BASE_DIR env newest_first request s = (Raise (IntegrityError msg), s') →
  ∃ p,
    projects s !! prj_id p = None ∧ projects s' = <[prj_id p := p]> (projects s) ∧
    db_part (site_world s') = db_part (site_world s) ∧
    files (site_world s') !! prj_video_path p = Some (stream v) ∧
    flashes s' = flashes s.
Proof.
  intros Hm Ha Hv Hna Hnv E.
  destruct (projects_list_post request s a v Hm Ha Hv Hna Hnv)
    as [(msg' & s1 & E1 & _) | (Hfolder & Hne & E1)]; [congruence|].
  rewrite E in E1. clear E. rewrite enqueue_job_run in E1. cbv zeta in E1.
  case_bool_decide; [|done]. injection E1 as _ ->.
  eexists (mkProject _ _ _ _ _). cbn [prj_id prj_video_path]. ssimpl.
  split_and!; try done.
  - apply fresh_key_fresh.
  - apply lookup_insert_eq.
Qed.

End ProjectsList.

(** ** Another job for a project *)

Section NewJob.
Variable env : Env.

Lemma project_new_job_run (project_id : nat) (s : Site) :
  project_new_job env project_id s =
  match projects s !! project_id with
  | None =>
      (Ok (Redirect "projects_list" []),
       mkSite (site_world s) (projects s) (flashes s ++ [("پروژه پیدا نشد.", "error")]))
  | Some p =>
      match enqueue_job env (prj_id p) (prj_audio_path p) (prj_video_path p)
                        (site_world s) with
      | (Ok job_id, w') =>
          (Ok (Redirect "jobs_detail" [("job_id", job_id)]),
           mkSite w' (projects s)
                  (flashes s ++ [("جاب جدید #" +:+ pretty job_id +:+
                                  " برای این پروژه ساخته شد.", "success")]))
      | (Raise e, w') => (Raise e, mkSite w' (projects s) (flashes s))
      end
  end.
Proof.
  unfold project_new_job. rewrite hbind_run. unfold db_get_project at 1.
  destruct (projects s !! project_id) as [p|]; [|done].
  rewrite hbind_run, lift_run.
  by destruct (enqueue_job _ _ _ _ _) as [[jid|e] w'].
Qed.


(** A new job for a project that is not in the table is refused with a
    flashed error, and nothing else happens.  For a project that is in the
    table, a request that returns has created a queued job with the audio
    and the video of the project as they are stored now, has put it at the
    end of the queue, and redirects to the page of the job. *)
Theorem project_new_job_uses_project_paths (project_id : nat) (s : Site)
    (resp : Response) (s' : Site) :
  project_new_job env project_id s = (Ok resp, s') →
  projects s' = projects s ∧
  match projects s !! project_id with
  | None =>
      resp = Redirect "projects_list" [] ∧ site_world s' = site_world s ∧
      flashes s' = flashes s ++ [("پروژه پیدا نشد.", "error")]
  | Some p =>
      ∃ j,
        resp = Redirect "jobs_detail" [("job_id", job_id j)] ∧
        jobs (site_world s) !! job_id j = None ∧
        jobs (site_world s') = <[job_id j := j]> (jobs (site_world s)) ∧
        JOB_QUEUE (site_world s') = JOB_QUEUE (site_world s) ++ [job_id j] ∧
        queued_row j ∧ job_project_id j = prj_id p ∧
        job_audio_path j = prj_audio_path p ∧ job_video_path j = prj_video_path p
  end.
Proof.
  rewrite project_new_job_run.
  destruct (projects s !! project_id) as [p|]; [|by intros [= <- <-]].
  rewrite enqueue_job_run. cbv zeta. case_bool_decide; [done|].
  intros [= <- <-]. ssimpl. split; [done|].
  eexists (mkJob _ _ _ _ _ _ _ _ _ _ _ _).
  cbn [job_id job_project_id job_audio_path job_video_path].
  split_and!; try done. apply fresh_job_id_fresh.
Qed.

End NewJob.

(** ** The application as its users drive it *)

Lemma job_block_project job b :
  job_block job b → Forall (λ c, job_project_id c = job_project_id job) b.
Proof.
  intros (start & mid & fin & -> & Hs & _ & _ & Hmid & _ & Hfin).
  assert (∀ c, running_row job c → job_project_id c = job_project_id job) as Hrun.
  { by intros c ((_ & _ & ? & _) & _). }
  constructor; [by apply Hrun|]. apply Forall_app. split.
  - eapply Forall_impl; [exact Hmid | exact Hrun].
  - constructor; [|constructor].
    by destruct Hfin as [((_ & _ & ? & _) & _) | ((_ & _ & ? & _) & _)].
Qed.

Lemma no_file_false (file_obj : option FileStorage) :
  no_file file_obj = false → ∃ f, file_obj = Some f ∧ filename f ≠ "".
Proof.
  destruct file_obj as [f|]; [|done]. unfold no_file. intros H.
  exists f. split; [done|]. by apply bool_decide_eq_false in H.
Qed.

Section Served.
Variable BASE_DIR : string.
Variable env : Env.
Variable newest_first : gmap nat Project → list Project.

Local Abbreviation hdl := (handler BASE_DIR env newest_first).
Local Abbreviation srv := (serve BASE_DIR env newest_first).
Local Abbreviation srv_all := (serve_all BASE_DIR env newest_first).

(** What a handler does to the world of the worker and to the projects:
    projects are added, never changed; the job store is left alone, or one
    job is created for a project that is in the table. *)
Lemma handler_effect (v : visit) (s : Site) :
  (∀ k p, projects s !! k = Some p → prj_id p = k) →
  (∀ k p, projects (snd (hdl v s)) !! k = Some p → prj_id p = k) ∧
  (∀ k, is_Some (projects s !! k) → is_Some (projects (snd (hdl v s)) !! k)) ∧
  (db_part (site_world (snd (hdl v s))) = db_part (site_world s) ∨
   ∃ w1 pid pa pv,
     db_part w1 = db_part (site_world s) ∧
     site_world (snd (hdl v s)) = snd (enqueue_job env pid pa pv w1) ∧
     is_Some (projects (snd (hdl v s)) !! pid)).
Proof.
  intros Hkeys. destruct v as [|request|project_id|job_id|job_id]; cbn [handler].
  - split_and!; [done | done | by left].
  - destruct (method request) eqn:Hm.
    { unfold projects_list. rewrite Hm. split_and!; [done | done | by left]. }
    destruct (no_file (files_audio request)) eqn:Ha.
    { destruct (projects_list_requires_both_files BASE_DIR env newest_first request s Hm)
        as [msg ->]; [by left|]. split_and!; [done | done | by left]. }
    destruct (no_file (files_video request)) eqn:Hv.
    { destruct (projects_list_requires_both_files BASE_DIR env newest_first request s Hm)
        as [msg ->]; [by right|]. split_and!; [done | done | by left]. }
    apply no_file_false in Ha as (a & Ha & Hna). apply no_file_false in Hv as (v & Hv & Hnv).
    destruct (projects_list_post BASE_DIR env newest_first request s a v Hm Ha Hv Hna Hnv)
      as [(msg & s1 & -> & Hp & Hdb) | (_ & _ & ->)]; cbn [snd].
    { rewrite Hp. split_and!; [done | done | by left]. }
    match goal with
    | |- context [enqueue_job env ?i ?x ?y ?w0] =>
        destruct (enqueue_job env i x y w0) as [[jid|e] w4] eqn:E
    end; cbn [snd projects site_world].
    all: split_and!.
    all: try (intros k p [[<- <-]|[_ Hp]]%lookup_insert_Some; [done | by apply Hkeys]).
    all: try (intros k Hk; apply lookup_insert_is_Some'; by right).
    all: right; eexists _, _, _, _; split_and!;
      [| by rewrite E | by rewrite lookup_insert_eq]; done.
  - rewrite project_new_job_run.
    destruct (projects s !! project_id) as [p|] eqn:Hp; cbn [snd projects site_world].
    2: { split_and!; [done | done | by left]. }
    destruct (enqueue_job env (prj_id p) (prj_audio_path p) (prj_video_path p)
                (site_world s)) as [[jid|e] w'] eqn:E; cbn [snd projects site_world].
    all: split_and!; [done | done |].
    all: right; exists (site_world s), (prj_id p), (prj_audio_path p), (prj_video_path p).
    all: rewrite E, (Hkeys _ _ Hp), Hp; by split_and!.
  - unfold jobs_detail. rewrite hbind_run, lift_run. cbn [fst snd db_get gets].
    destruct (jobs (site_world s) !! job_id); split_and!; try done; by left.
  - unfold jobs_status_json. rewrite hbind_run, lift_run. cbn [fst snd db_get gets].
    destruct (jobs (site_world s) !! job_id); split_and!; try done; by left.
Qed.

Lemma served_started (a : Application) : started a → served a.
Proof.
  intros [Hinit Hkeys]. split_and!; [by apply Inv_initial | done |].
  intros c Hc. destruct Hinit as (_ & Hcom & _). cbn in Hcom. rewrite Hcom in Hc.
  by apply elem_of_nil in Hc.
Qed.

Lemma serve_served (a : Application) (e : event) : served a → served (srv a e).
Proof.
  intros (HI & Hkeys & Hjp). destruct e as [v|].
  - destruct (handler_effect v (site a) Hkeys) as (Hkeys' & Hgrow & Hworld).
    unfold served, projects_keyed, jobs_have_projects. cbn [serve site worker].
    destruct Hworld as [Hdb | (w1 & pid & pa & pv & Hdb & Hw & Hpid)].
    + split_and!; [by apply (Inv_db_part (system_of a)) | done |].
      intros c Hc. apply Hgrow, Hjp.
      unfold db_part in Hdb. injection Hdb as _ _ _ _ Hc'. by rewrite <- Hc'.
    + pose proof (Inv_create BASE_DIR env (mkSystem w1 (worker a)) pid pa pv
                    (Inv_db_part (system_of a) w1 Hdb HI)) as HI'.
      cbn [step world worker_alive] in HI'. rewrite <- Hw in HI'.
      split_and!; [done | done |].
      intros c Hc. rewrite Hw in Hc.
      destruct (enqueue_job env pid pa pv w1) as [r w'] eqn:E. cbn [snd] in Hc.
      unfold db_part in Hdb. injection Hdb as _ _ _ _ Hcom.
      apply enqueue_job_spec in E
        as [E | (j & _ & _ & _ & _ & _ & Hpj & _ & Hc' & _)].
      * unfold db_part in E. injection E as _ _ _ _ E. rewrite E, Hcom in Hc.
        by apply Hgrow, Hjp.
      * rewrite Hc', Hcom in Hc. apply elem_of_app in Hc as [Hc| ->%list_elem_of_singleton].
        -- by apply Hgrow, Hjp.
        -- by rewrite Hpj.
  - unfold served, projects_keyed, jobs_have_projects. cbn [serve site worker].
    pose proof (Inv_step BASE_DIR env (system_of a) Work HI) as HI'.
    destruct (step BASE_DIR env (system_of a) Work) as [w' al] eqn:Hstep.
    split_and!; [done | done |]. cbn [site_world world].
    intros c Hc.
    destruct (JOB_QUEUE (world (system_of a))) as [|jid rest] eqn:Hq.
    { cbn [step] in Hstep. rewrite (inv_alive _ HI) in Hstep. cbn [worker_loop] in Hstep.
      rewrite Hq in Hstep. injection Hstep as <- _. by apply Hjp. }
    destruct (work_spec BASE_DIR env (system_of a) jid rest HI Hq)
      as (job & w1 & r & w2 & w'' & block & fin & _ & _ & Hh & _ & _ & Hs & _ & _ & _ & _
          & Hcom & Hblock & _).
    rewrite Hstep in Hs. injection Hs as <- _. rewrite Hcom in Hc.
    apply elem_of_app in Hc as [Hc|Hc]; [by apply Hjp|].
    pose proof (job_block_project _ _ Hblock) as Hpr.
    rewrite Forall_forall in Hpr. rewrite (Hpr c Hc). apply Hjp.
    assert (job ∈ history jid (commits (world (system_of a)))) as Hin.
    { rewrite Hh. by left. }
    by apply list_elem_of_filter in Hin as [_ ?].
Qed.

Lemma serve_all_served (events : list event) : ∀ a : Application,
  served a → served (srv_all a events).
Proof.
  induction events as [|e events IH]; intros a Ha; [done|].
  cbn. apply IH. by apply serve_served.
Qed.




(** However the application is driven through its routes and however the
    jobs end, the worker stays alive and every row of the job table is
    stored under its id and is consistent: the output path is set exactly
    when the status is done, the error exactly when it is error, a done job
    has progress 100 and a failed one progress 0. *)
Theorem served_rows_consistent (a0 : Application) (events : list event) :
  started a0 →
  worker (srv_all a0 events) = true ∧
  ∀ k j, jobs (site_world (site (srv_all a0 events))) !! k = Some j →
         job_id j = k ∧ row_consistent j.
Proof.
  intros Hstart.
  destruct (serve_all_served events a0 (served_started a0 Hstart)) as (HI & _ & _).
  split; [apply (inv_alive _ HI)|]. intros k j Hj.
  split; [by apply (inv_keys _ HI)|].
  destruct (decide (k ∈ JOB_QUEUE (world (system_of (srv_all a0 events))))) as [Hk|Hk].
  - destruct (inv_queue _ HI k Hk) as (j' & Hj' & Hq & _).
    cbn in Hj'. assert (j' = j) as -> by congruence. by apply queued_row_consistent.
  - destruct (inv_done _ HI k j Hj Hk) as [[_ ?] | (c & block & _ & Hq & _ & Hb & Hl)];
      [done|].
    by destruct (terminal_row_of_queued c j Hq (job_block_last _ _ _ Hb Hl)).
Qed.

(** Every job the application creates belongs to a project that is in the
    table: the routes create jobs for stored projects only, and projects are
    never removed. *)
Theorem jobs_belong_to_projects (a0 : Application) (events : list event) (k : nat) (j : Job) :
  started a0 →
  jobs (site_world (site (srv_all a0 events))) !! k = Some j →
  history k (commits (site_world (site (srv_all a0 events)))) ≠ [] →
  is_Some (projects (site (srv_all a0 events)) !! job_project_id j).
Proof.
  intros Hstart Hj Hh.
  destruct (serve_all_served events a0 (served_started a0 Hstart)) as (HI & _ & Hjp).
  apply Hjp.
  assert (j ∈ history k (commits (site_world (site (srv_all a0 events))))) as Hin.
  { destruct (decide (k ∈ JOB_QUEUE (world (system_of (srv_all a0 events))))) as [Hk|Hk].
    - destruct (inv_queue _ HI k Hk) as (j' & Hj' & _ & Hhist).
      cbn in Hj', Hhist. assert (j' = j) as -> by congruence. rewrite Hhist. by left.
    - destruct (inv_done _ HI k j Hj Hk) as [[? _] | (c & block & Hhist & _ & _ & _ & Hl)];
        [done|].
      cbn in Hhist. rewrite Hhist. right. apply last_Some in Hl as [l' ->].
      apply elem_of_app. right. by left. }
  by apply list_elem_of_filter in Hin as [_ ?].
Qed.


End Served.

(** * The transcript and the scene *)

(** ** Stripping *)

Lemma lstrip_spec (s : text) :
  ∃ pre, s = pre ++ lstrip s ∧ Forall (λ c, isspace c = true) pre ∧
         match lstrip s with c :: _ => isspace c = false | [] => True end.
Proof.
  induction s as [|c s (pre & E & Hpre & Hhd)]; [by exists []|].
  cbn [lstrip]. destruct (isspace c) eqn:Hc.
  - exists (c :: pre). cbn [app]. rewrite <- E. split_and!; [done | by constructor | done].
  - exists []. by split_and!.
Qed.

Lemma lstrip_id (s : text) :
  match s with c :: _ => isspace c = false | [] => True end → lstrip s = s.
Proof. destruct s as [|c s]; [done|]. cbn. by intros ->. Qed.

Lemma lstrip_idemp (s : text) : lstrip (lstrip s) = lstrip s.
Proof. destruct (lstrip_spec s) as (_ & _ & _ & H). by apply lstrip_id. Qed.

(** [strip] takes whitespace from both ends, and nothing else *)
Lemma strip_spec (s : text) :
  ∃ pre post,
    s = pre ++ strip s ++ post ∧
    Forall (λ c, isspace c = true) pre ∧ Forall (λ c, isspace c = true) post ∧
    match strip s with c :: _ => isspace c = false | [] => True end ∧
    match reverse (strip s) with c :: _ => isspace c = false | [] => True end.
Proof.
  destruct (lstrip_spec s) as (pre & E1 & Hpre & Hhd).
  destruct (lstrip_spec (reverse (lstrip s))) as (q & E2 & Hq & Hend).
  assert (lstrip s = strip s ++ reverse q) as Ea.
  { apply (f_equal reverse) in E2. by rewrite reverse_involutive, reverse_app in E2. }
  exists pre, (reverse q). split_and!.
  - by rewrite <- Ea.
  - done.
  - by apply Forall_reverse.
  - rewrite Ea in Hhd. by destruct (strip s).
  - unfold strip. by rewrite reverse_involutive.
Qed.

Lemma strip_idemp (s : text) : strip (strip s) = strip s.
Proof.
  destruct (strip_spec s) as (_ & _ & _ & _ & _ & Hhd & Hend).
  unfold strip at 1. rewrite (lstrip_id (strip s)) by done.
  rewrite lstrip_id by done. apply reverse_involutive.
Qed.

Lemma strip_blank (s : text) : Forall (λ c, isspace c = true) s → strip s = [].
Proof.
  intros H. unfold strip. assert (lstrip s = []) as ->; [|done].
  induction H as [|c s Hc _ IH]; [done|]. cbn. by rewrite Hc.
Qed.

(** ** The scene, line by line *)

Lemma Qlt_bool_true (x y : Q) : Qlt_bool x y = true → (x < y)%Q.
Proof.
  unfold Qlt_bool. intros H%negb_true_iff. apply Qnot_le_lt. intros Hle.
  apply Qle_bool_iff in Hle. congruence.
Qed.

Lemma Qlt_bool_false (x y : Q) : Qlt_bool x y = false → (y <= x)%Q.
Proof. unfold Qlt_bool. intros H%negb_false_iff. by apply Qle_bool_iff. Qed.

Lemma total_nil : total [] = 0%Q.
Proof. reflexivity. Qed.

Lemma total_cons (e : scene_event) (l : list scene_event) :
  total (e :: l) = (duration e + total l)%Q.
Proof. reflexivity. Qed.

Lemma total_app (l1 l2 : list scene_event) : (total (l1 ++ l2) == total l1 + total l2)%Q.
Proof.
  induction l1 as [|e l1 IH]; cbn [app].
  - rewrite total_nil. lra.
  - rewrite !total_cons. lra.
Qed.

Lemma end_time_cons (t : Q) (e : scene_event) (l : list scene_event) :
  end_time t (e :: l) = end_time (t + duration e)%Q l.
Proof. reflexivity. Qed.

Lemma end_time_total (l : list scene_event) : ∀ t, (end_time t l == t + total l)%Q.
Proof.
  induction l as [|e l IH]; intros t.
  - rewrite total_nil. cbn. lra.
  - rewrite end_time_cons, total_cons, IH. lra.
Qed.

(** the pulses of one line *)
Lemma pulse_loop_spec (beats : list Q) (line : text) (hold_end : Q) (fuel : nat) :
  ∀ (j : nat) (current_time local_t : Q) (played : list scene_event),
  ∃ current_time' local_t' hold,
    pulse_loop fuel beats line hold_end j (current_time, local_t, played)
      = (current_time', local_t', played ++ hold) ∧
    Forall (holds_line line) hold ∧ Forall well_timed hold ∧
    (current_time' == current_time + total hold)%Q ∧
    (local_t' == local_t + total hold)%Q.
Proof.
  induction fuel as [|k IH]; intros j c lt played.
  { exists c, lt, []. rewrite app_nil_r, total_nil.
    split_and!; [done | done | done | lra | lra]. }
  cbn [pulse_loop].
  destruct (beats !! j) as [beat_time|].
  2: { exists c, lt, []. rewrite app_nil_r, total_nil.
       split_and!; [done | done | done | lra | lra]. }
  destruct (Qle_bool beat_time (hold_end + (1 # 100))).
  2: { exists c, lt, []. rewrite app_nil_r, total_nil.
       split_and!; [done | done | done | lra | lra]. }
  cbv zeta. destruct (Qlt_bool MIN_WAIT (beat_time - lt)) eqn:Hdt.
  - apply Qlt_bool_true in Hdt.
    destruct (IH (S j) (c + (beat_time - lt) + (2 # 25))%Q
                 (lt + (beat_time - lt) + (2 # 25))%Q
                 ((played ++ [Wait (beat_time - lt)]) ++ [Play (Pulse line) (2 # 25)]))
      as (c' & lt' & hold & E & Hh & Hw & Hc & Hl).
    exists c', lt', (Wait (beat_time - lt)%Q :: Play (Pulse line) (2 # 25) :: hold).
    rewrite E, <- !app_assoc. cbn [app]. split_and!.
    + done.
    + constructor; [left; eauto|]. constructor; [right; eauto | done].
    + constructor; [done|]. by constructor.
    + rewrite Hc, !total_cons. cbn [duration]. lra.
    + rewrite Hl, !total_cons. cbn [duration]. lra.
  - destruct (IH (S j) (c + (2 # 25))%Q (lt + (2 # 25))%Q
                 (played ++ [Play (Pulse line) (2 # 25)]))
      as (c' & lt' & hold & E & Hh & Hw & Hc & Hl).
    exists c', lt', (Play (Pulse line) (2 # 25) :: hold).
    rewrite E, <- !app_assoc. cbn [app]. split_and!.
    + done.
    + constructor; [right; eauto | done].
    + by constructor.
    + rewrite Hc, !total_cons. cbn [duration]. lra.
    + rewrite Hl, !total_cons. cbn [duration]. lra.
Qed.

Lemma show_segment_blank (beats : list Q) (st : Q * nat * list scene_event) (seg : Segment) :
  strip (seg_text seg) = [] → show_segment beats st seg = st.
Proof. intros H. destruct st as [[c bi] played]. unfold show_segment. by rewrite H. Qed.

(** What the scene does for a segment with a line to show: one block of
    events for the line.  Its own clock moves on by the time the block takes
    and by at most [MIN_WAIT] more, for a short gap it does not wait for; the
    line enters no earlier than [MIN_WAIT] before the clock reaches the start
    of the segment. *)
Lemma show_segment_spec (beats : list Q) (c : Q) (bi : nat) (played : list scene_event)
    (seg : Segment) :
  strip (seg_text seg) ≠ [] →
  ∃ c' bi' pre intro_rt hold outro_rt,
    let line := strip (seg_text seg) in
    let block := pre ++ Play (Enter line) intro_rt :: hold ++ [Play (Exit line) outro_rt] in
    show_segment beats (c, bi, played) seg = (c', bi', played ++ block) ∧
    (pre = [] ∨ ∃ d, pre = [Wait d]) ∧ Forall (holds_line line) hold ∧
    Forall well_timed block ∧
    (c + total block <= c')%Q ∧ (c' <= c + total block + MIN_WAIT)%Q ∧
    (seg_start seg - MIN_WAIT <= c + total pre)%Q.
Proof.
  intros Hline. unfold show_segment.
  destruct (strip (seg_text seg)) as [|ch line'] eqn:Hstrip; [done|].
  set (line := ch :: line') in *. cbv zeta.
  set (dur := Qmax (2 # 5) (seg_end seg - seg_start seg)).
  set (intro_rt := Qmin (9 # 20) (dur * (1 # 4))).
  set (outro_rt := Qmin (7 # 20) (dur * (1 # 5))).
  set (hold_rt := Qmax (1 # 4) (dur - (intro_rt + outro_rt))).
  assert (2 # 5 <= dur)%Q as Hdur by apply Q.le_max_l.
  assert (1 # 10 <= intro_rt ∧ intro_rt <= 9 # 20)%Q as Hintro.
  { subst intro_rt. destruct (Q.min_spec (9 # 20) (dur * (1 # 4))) as [[? ->]|[? ->]]; lra. }
  assert (2 # 25 <= outro_rt ∧ outro_rt <= 7 # 20)%Q as Houtro.
  { subst outro_rt. destruct (Q.min_spec (7 # 20) (dur * (1 # 5))) as [[? ->]|[? ->]]; lra. }
  (* the gap before the line *)
  assert (∃ c1 pre,
            (if Qlt_bool MIN_WAIT (seg_start seg - c)
             then ((c + (seg_start seg - c))%Q, played ++ [Wait (seg_start seg - c)])
             else if Qlt_bool 0 (seg_start seg - c)
                  then ((c + (seg_start seg - c))%Q, played)
                  else (c, played)) = (c1, played ++ pre) ∧
            (pre = [] ∨ ∃ d, pre = [Wait d]) ∧ Forall well_timed pre ∧
            (c + total pre <= c1)%Q ∧ (c1 <= c + total pre + MIN_WAIT)%Q ∧
            (seg_start seg <= c1)%Q) as (c1 & pre & -> & Hpre & Hwpre & Hc1 & Hc1' & Hstart).
  { destruct (Qlt_bool MIN_WAIT (seg_start seg - c)) eqn:Hgap.
    - apply Qlt_bool_true in Hgap. eexists _, [_]. split; [reflexivity|].
      rewrite total_cons, total_nil. cbn [duration]. unfold MIN_WAIT in *.
      split_and!; [right; eauto | by repeat constructor | lra | lra | lra].
    - apply Qlt_bool_false in Hgap.
      destruct (Qlt_bool 0 (seg_start seg - c)) eqn:Hgap'.
      + apply Qlt_bool_true in Hgap'. eexists _, []. rewrite app_nil_r.
        split; [reflexivity|]. rewrite total_nil. unfold MIN_WAIT in *.
        split_and!; [by left | done | lra | lra | lra].
      + apply Qlt_bool_false in Hgap'. eexists _, []. rewrite app_nil_r.
        split; [reflexivity|]. rewrite total_nil. unfold MIN_WAIT in *.
        split_and!; [by left | done | lra | lra | lra]. }
  (* the pulses *)
  destruct (pulse_loop_spec beats line (c1 + intro_rt + hold_rt)
              (length beats)
              (skip_loop (length beats) beats bi (c1 + intro_rt))
              (c1 + intro_rt)%Q (c1 + intro_rt)%Q
              ((played ++ pre) ++ [Play (Enter line) intro_rt]))
    as (c2 & lt2 & hold & -> & Hhold & Hwhold & Hc2 & Hlt2).
  (* what is left of the hold *)
  destruct (Qlt_bool MIN_WAIT (c1 + intro_rt + hold_rt - lt2)) eqn:Hrem.
  - apply Qlt_bool_true in Hrem.
    eexists _, _, pre, intro_rt, (hold ++ [Wait (c1 + intro_rt + hold_rt - lt2)]), outro_rt.
    split_and!.
    + f_equal; try reflexivity. by rewrite <- !app_assoc.
    + done.
    + apply Forall_app. split; [done|]. constructor; [left; eauto | done].
    + apply Forall_app. split; [done|]. constructor; [exact Hintro|].
      apply Forall_app. split; [|constructor; [exact Houtro | constructor]].
      apply Forall_app. split; [done | constructor; [exact Hrem | constructor]].
    + rewrite total_app, total_cons, !total_app, !total_cons, total_nil.
      cbn [duration]. lra.
    + rewrite total_app, total_cons, !total_app, !total_cons, total_nil.
      cbn [duration]. lra.
    + unfold MIN_WAIT in *. lra.
  - apply Qlt_bool_false in Hrem.
    eexists _, _, pre, intro_rt, hold, outro_rt.
    split_and!.
    + f_equal; try reflexivity. by rewrite <- !app_assoc.
    + done.
    + done.
    + apply Forall_app. split; [done|]. constructor; [exact Hintro|].
      apply Forall_app. split; [done | constructor; [exact Houtro | constructor]].
    + rewrite total_app, total_cons, !total_app, !total_cons, total_nil.
      cbn [duration]. lra.
    + rewrite total_app, total_cons, !total_app, !total_cons, total_nil.
      cbn [duration]. lra.
    + unfold MIN_WAIT in *. lra.
Qed.

Lemma enter_times_app (l1 l2 : list scene_event) : ∀ t,
  enter_times t (l1 ++ l2) = enter_times t l1 ++ enter_times (end_time t l1) l2.
Proof.
  induction l1 as [|e l1 IH]; intros t; [done|].
  cbn [app]. rewrite end_time_cons.
  destruct e as [d|[line|line|line] rt]; cbn [enter_times duration]; by rewrite IH.
Qed.

Lemma enter_times_held (line : text) (hold : list scene_event) (outro_rt : Q) : ∀ t,
  Forall (holds_line line) hold →
  enter_times t (hold ++ [Play (Exit line) outro_rt]) = [].
Proof.
  induction hold as [|e hold IH]; intros t Hh; [done|].
  apply Forall_cons in Hh as [[[d ->]|[rt ->]] Hh]; cbn; by apply IH.
Qed.

Lemma enter_times_block (t : Q) (line : text) (pre hold : list scene_event)
    (intro_rt outro_rt : Q) :
  (pre = [] ∨ ∃ d, pre = [Wait d]) → Forall (holds_line line) hold →
  enter_times t (pre ++ Play (Enter line) intro_rt :: hold ++ [Play (Exit line) outro_rt])
  = [end_time t pre].
Proof.
  intros [->|[d ->]] Hh; cbn; by rewrite enter_times_held.
Qed.

Lemma shown_cons (seg : Segment) (segments : list Segment) :
  shown (seg :: segments) =
  match strip (seg_text seg) with
  | [] => shown segments
  | line => line :: shown segments
  end.
Proof.
  unfold shown. cbn [fmap list_fmap].
  destruct (strip (seg_text seg)) eqn:E.
  - by rewrite filter_cons_False by (by intros ?).
  - by rewrite filter_cons_True.
Qed.

Lemma shown_segments_cons (seg : Segment) (segments : list Segment) :
  shown_segments (seg :: segments) =
  match strip (seg_text seg) with
  | [] => shown_segments segments
  | _ => seg :: shown_segments segments
  end.
Proof.
  unfold shown_segments.
  destruct (strip (seg_text seg)) eqn:E.
  - rewrite filter_cons_False; [done|]. rewrite E. by intros ?.
  - rewrite filter_cons_True; [done|]. by rewrite E.
Qed.

(** The scene as a whole: one block per segment with a line to show, in the
    order of the segments, with durations the renderer accepts; and while
    the scene's clock is at most [lead] ahead of the scene time [T], the
    lines enter no earlier than [earliest_enters] allows. *)
Lemma construct_blocks (beats : list Q) (segments : list Segment) :
  ∀ (c : Q) (bi : nat) (played : list scene_event) (lead T : Q),
  (T <= c)%Q → (c <= T + lead)%Q →
  ∃ c' bi' blocks,
    foldl (show_segment beats) (c, bi, played) segments
      = (c', bi', played ++ concat blocks) ∧
    Forall2 line_block (shown segments) blocks ∧
    Forall well_timed (concat blocks) ∧
    Forall2 Qle (earliest_enters lead (shown_segments segments))
                (enter_times T (concat blocks)).
Proof.
  induction segments as [|seg segments IH]; intros c bi played lead T HT Hlead.
  { exists c, bi, []. cbn. rewrite app_nil_r. by split_and!; constructor. }
  cbn [foldl]. rewrite shown_cons, shown_segments_cons.
  destruct (strip (seg_text seg)) as [|ch line'] eqn:Hstrip.
  { rewrite show_segment_blank by done. by apply IH. }
  destruct (show_segment_spec beats c bi played seg)
    as (c' & bi' & pre & intro_rt & hold & outro_rt & E & Hpre & Hhold & Hw & Hc & Hc' & Hs).
  { by rewrite Hstrip. }
  cbv zeta in E, Hw, Hc, Hc'. rewrite Hstrip in *.
  set (line := ch :: line') in *.
  set (block := pre ++ Play (Enter line) intro_rt :: hold ++ [Play (Exit line) outro_rt]) in *.
  rewrite E.
  pose proof (end_time_total block T) as HT'.
  pose proof (end_time_total pre T) as Hpre'.
  destruct (IH c' bi' (played ++ block) (lead + MIN_WAIT)%Q (end_time T block))
    as (c'' & bi'' & blocks & E' & Hblocks & Hw' & Henter).
  { rewrite HT'. lra. }
  { rewrite HT'. lra. }
  exists c'', bi'', (block :: blocks). cbn [concat]. split_and!.
  - by rewrite E', <- app_assoc.
  - constructor; [by constructor | done].
  - by apply Forall_app.
  - rewrite enter_times_app. unfold block at 1.
    rewrite enter_times_block by done. cbn [app earliest_enters].
    constructor; [|done]. rewrite Hpre'. lra.
Qed.

(** ** What the scene guarantees *)

Lemma construct_run (segments : list Segment) (beats_file : option (list Q)) :
  ∃ blocks,
    construct segments beats_file = concat blocks ∧
    Forall2 line_block (shown segments) blocks ∧
    Forall well_timed (concat blocks) ∧
    Forall2 Qle (earliest_enters 0 (shown_segments segments))
                (enter_times 0 (concat blocks)).
Proof.
  unfold construct. cbv zeta.
  destruct (construct_blocks (merge_sort Qle (default [] beats_file)) segments
              0%Q 0%nat [] 0%Q 0%Q) as (c' & bi' & blocks & -> & H1 & H2 & H3); [lra..|].
  exists blocks. by split_and!.
Qed.

(** Whatever the segments and the beats, every wait of the scene is longer
    than [MIN_WAIT] and every animation has a positive run time within its
    bounds: 0.1 to 0.45 s for a line entering, 0.08 s for a pulse, 0.08 to
    0.35 s for a line leaving.  The renderer is never asked for a wait or an
    animation of no or negative duration. *)
Theorem scene_is_well_timed (segments : list Segment) (beats_file : option (list Q)) :
  Forall well_timed (construct segments beats_file).
Proof. destruct (construct_run segments beats_file) as (blocks & -> & _ & H & _). done. Qed.

(** The scene shows the segments whose text is not blank, in the order of
    the transcript and one line at a time: for each of them it waits at most
    once, lets the line enter, holds it with waits and pulses of that line
    only, and lets it leave before anything else happens.  Segments with a
    blank text leave no trace. *)
Theorem one_line_at_a_time (segments : list Segment) (beats_file : option (list Q)) :
  ∃ blocks,
    construct segments beats_file = concat blocks ∧
    Forall2 line_block (shown segments) blocks.
Proof.
  destruct (construct_run segments beats_file) as (blocks & E & H & _). eauto.
Qed.

(** A line never enters long before its segment starts: the first line that
    is shown enters no earlier than [MIN_WAIT] before the start of its
    segment, and the lead allowed grows by [MIN_WAIT] with every further
    line, for the short gaps the scene counts without waiting for them. *)
Theorem lines_enter_not_too_early (segments : list Segment) (beats_file : option (list Q)) :
  Forall2 Qle (earliest_enters 0 (shown_segments segments))
              (enter_times 0 (construct segments beats_file)).
Proof. destruct (construct_run segments beats_file) as (blocks & -> & _ & _ & H). done. Qed.

(** ** From Whisper to the scene *)

(** [segments.json] gets one entry for every segment Whisper returns, in
    the same order and with the same times; the text of an entry is the text
    of the segment without the whitespace at its two ends, and a segment
    without a text gets the empty text. *)
Theorem transcript_entries (result_segments : option (list WhisperSegment)) :
  Forall2 (λ ws seg,
             seg_start seg = ws_start ws ∧ seg_end seg = ws_end ws ∧
             ∃ pre post,
               default [] (ws_text ws) = pre ++ seg_text seg ++ post ∧
               Forall (λ c, isspace c = true) pre ∧ Forall (λ c, isspace c = true) post ∧
               match seg_text seg with c :: _ => isspace c = false | [] => True end ∧
               match reverse (seg_text seg) with c :: _ => isspace c = false | [] => True end)
          (default [] result_segments) (extract_segments result_segments).
Proof.
  unfold extract_segments. apply Forall2_fmap_r, Forall_Forall2_diag, Forall_forall.
  intros ws _. cbn. split_and!; [done | done |]. apply strip_spec.
Qed.

(** The lines the scene shows for a transcript are the texts of Whisper's
    segments without the whitespace at their ends, in Whisper's order, less
    those that are blank: stripping the stored texts again changes nothing,
    and the entries with an empty text are skipped. *)
Theorem scene_shows_transcript (result_segments : option (list WhisperSegment))
    (beats_file : option (list Q)) :
  ∃ blocks,
    construct (extract_segments result_segments) beats_file = concat blocks ∧
    Forall2 line_block
      (filter (λ t, t ≠ [])
         ((λ ws, strip (default [] (ws_text ws))) <$> default [] result_segments))
      blocks.
Proof.
  destruct (construct_run (extract_segments result_segments) beats_file)
    as (blocks & E & H & _).
  exists blocks. split; [done|].
  assert (shown (extract_segments result_segments) =
          filter (λ t, t ≠ [])
            ((λ ws, strip (default [] (ws_text ws))) <$> default [] result_segments)) as <-;
    [|done].
  unfold shown, extract_segments. rewrite <- list_fmap_compose. f_equal.
  apply list_fmap_ext. intros i ws _. cbn. apply strip_idemp.
Qed.

(** ** The two loops over the beats end within their fuel *)

(** With the fuel [construct] gives it, [skip_loop] stops where the source's
    loop does: at the end of the beats or at a beat that is not before the
    hold. *)
Lemma skip_loop_exit (beats : list Q) (hold_start : Q) : ∀ (fuel beat_index : nat),
  (length beats - beat_index ≤ fuel)%nat →
  let i := skip_loop fuel beats beat_index hold_start in
  (beat_index ≤ i)%nat ∧
  match beats !! i with
  | Some b => Qlt_bool b (hold_start - (1 # 100))%Q = false
  | None => True
  end.
Proof.
  induction fuel as [|fuel IH]; intros bi Hfuel; cbn [skip_loop].
  - cbv zeta. split; [lia|]. rewrite lookup_ge_None_2; [done | lia].
  - cbv zeta. destruct (beats !! bi) as [b|] eqn:Hb.
    + destruct (Qlt_bool b (hold_start - (1 # 100))%Q) eqn:Hlt.
      * destruct (IH (S bi)) as [Hle Hexit]; [lia|]. split; [lia | done].
      * split; [lia|]. by rewrite Hb.
    + split; [lia|]. by rewrite Hb.
Qed.

(** More fuel does not change what [pulse_loop] does once the fuel covers
    the beats that are left. *)
Lemma pulse_loop_fuel (beats : list Q) (line : text) (hold_end : Q) :
  ∀ (fuel fuel' j : nat) (st : Q * Q * list scene_event),
  (length beats - j ≤ fuel)%nat → (length beats - j ≤ fuel')%nat →
  pulse_loop fuel beats line hold_end j st = pulse_loop fuel' beats line hold_end j st.
Proof.
  induction fuel as [|fuel IH]; intros fuel' j st Hf Hf'.
  - destruct fuel' as [|fuel']; [done|]. cbn [pulse_loop].
    rewrite lookup_ge_None_2; [done | lia].
  - destruct fuel' as [|fuel']; cbn [pulse_loop].
    + rewrite lookup_ge_None_2; [done | lia].
    + destruct (beats !! j) as [b|] eqn:Hb; [|done].
      destruct (Qle_bool b (hold_end + (1 # 100))%Q); [|done].
      destruct st as [[c lt] played]. cbv zeta.
      destruct (Qlt_bool MIN_WAIT (b - lt)%Q); apply IH; lia.
Qed.

(** ** A scene without beats *)

Lemma show_segment_no_beats (st : Q * nat * list scene_event) (seg : Segment) :
  Forall no_pulse (snd st) → Forall no_pulse (snd (show_segment [] st seg)).
Proof.
  destruct st as [[c bi] played]. intros Hp. unfold show_segment.
  destruct (strip (seg_text seg)) as [|ch line]; [done|]. cbv zeta.
  cbn [length skip_loop pulse_loop].
  repeat match goal with
         | |- context [if ?b then _ else _] => destruct b
         end; cbn [snd]; rewrite ?Forall_app; split_and?; try done;
    by repeat constructor.
Qed.

Lemma foldl_no_beats (segments : list Segment) : ∀ st,
  Forall no_pulse (snd st) →
  Forall no_pulse (snd (foldl (show_segment []) st segments)).
Proof.
  induction segments as [|seg segments IH]; intros st Hp; [done|].
  cbn [foldl]. by apply IH, show_segment_no_beats.
Qed.

(** When [beats.json] is missing, or lists no beat, the scene has no pulse:
    every line enters, is held and leaves. *)
Theorem no_beats_no_pulses (segments : list Segment) (beats_file : option (list Q)) :
  default [] beats_file = [] →
  Forall no_pulse (construct segments beats_file).
Proof.
  intros Hb. unfold construct. rewrite Hb. cbv zeta.
  change (merge_sort Qle []) with (@nil Q). by apply foldl_no_beats.
Qed.

(** * The output paths of two jobs on a concrete installation *)

Example demo_backwards_first_returns :
  fst demo_backwards_first = Ok "/app/outputs/final_20200102_030405_aaaa.mp4".
Proof. vm_compute. reflexivity. Qed.

Example demo_backwards_second_returns :
  fst demo_backwards_second = Ok "/app/outputs/final_20150102_030405_aaaa.mp4".
Proof. vm_compute. reflexivity. Qed.

Lemma output_path_from_token_witness :
  ∃ u1 u2,
    output_written demo_env_backwards "/up/v.mp4" "/up/a.mp3" "/app/outputs"
      demo_world "/app/outputs/final_20200102_030405_aaaa.mp4"
      (snd demo_backwards_first) u1 ∧
    output_written demo_env_backwards "/up/v.mp4" "/up/a.mp3" "/app/outputs"
      (snd demo_backwards_first) "/app/outputs/final_20150102_030405_aaaa.mp4"
      (snd demo_backwards_second) u2 ∧
    ("/app/outputs/final_20200102_030405_aaaa.mp4"
       ≠ "/app/outputs/final_20150102_030405_aaaa.mp4" ↔ u1 ≠ u2).
Proof.
  apply (output_path_from_token "/app" demo_env_backwards
           "/up/a.mp3" "/up/v.mp4" None "h" "/up/a.mp3" "/up/v.mp4" None "h"
           "/app/outputs" demo_world (snd demo_backwards_first)
           (snd demo_backwards_first) (snd demo_backwards_second)).
  - exact I.
  - exact I.
  - rewrite <- demo_backwards_first_returns. apply surjective_pairing.
  - rewrite <- demo_backwards_second_returns. apply surjective_pairing.
Defined.

(** * The further properties on the concrete installation *)

Lemma fingerprint_of_whole_file_witness :
  _hash_file demo_env "/up/a.mp3" 3 demo_world
    = (Ok (md5_hexdigest demo_env demo_audio), demo_world) ∧
  _hash_file demo_env "/up/a.mp3" 0 demo_world
    = (Ok (md5_hexdigest demo_env []), demo_world).
Proof.
  apply (fingerprint_of_whole_file demo_env "/up/a.mp3" 3 demo_world demo_audio).
  - reflexivity.
  - lia.
Defined.

Lemma _run_manim_returns_newest_witness :
  ∃ before mtime after,
    env_glob demo_env_renders 1 (manim_pattern "/app")
      = before ++ (demo_manim_out, mtime) :: after ∧
    Forall (λ m, (snd m ≤ mtime)%nat) before ∧
    Forall (λ m, (snd m < mtime)%nat) after.
Proof.
  apply (_run_manim_returns_newest "/app" demo_env_renders "h" demo_world demo_manim_out
           (snd (_run_manim "/app" demo_env_renders "h" demo_world))).
  vm_compute. reflexivity.
Defined.

Lemma _run_manim_raises_witness :
  env_manim demo_env_no_render 0 (manim_cmd "h") (files demo_world)
    = inl (CalledProcessError (manim_cmd "h") 1) ∨
  (∃ rc written,
     env_manim demo_env_no_render 0 (manim_cmd "h") (files demo_world) = inr (rc, written) ∧
     rc ≠ 0 ∧ CalledProcessError (manim_cmd "h") 1 = CalledProcessError (manim_cmd "h") rc ∧
     tick (snd (_run_manim "/app" demo_env_no_render "h" demo_world)) = 1%nat) ∨
  (∃ written,
     env_manim demo_env_no_render 0 (manim_cmd "h") (files demo_world) = inr (0, written) ∧
     env_glob demo_env_no_render 1 (manim_pattern "/app") = [] ∧
     CalledProcessError (manim_cmd "h") 1 =
       FileNotFoundError ("Could not find Manim output with pattern: "
                          +:+ manim_pattern "/app")).
Proof.
  apply (_run_manim_raises "/app" demo_env_no_render "h" demo_world
           (CalledProcessError (manim_cmd "h") 1)
           (snd (_run_manim "/app" demo_env_no_render "h" demo_world))).
  vm_compute. reflexivity.
Defined.

Lemma engines_started_in_order_witness :
  ∃ news, calls (snd demo_first) = calls demo_world ++ news ∧
    call_engine <$> news `sublist_of` [Whisper; Librosa; Manim; Ffmpeg] ∧
    (∀ p, fst demo_first = Ok p → [Manim; Ffmpeg] `suffix_of` call_engine <$> news).
Proof.
  apply (engines_started_in_order "/app" demo_env "/up/a.mp3" "/up/v.mp4" "/app/outputs"
           None "h" demo_world (fst demo_first) (snd demo_first)).
  - exact I.
  - apply surjective_pairing.
Defined.

Lemma failed_engine_ends_job_witness :
  ∃ c,
    fst (process_job "/app" demo_env_failing "/up/a.mp3" "/up/v.mp4" "/app/outputs"
           None "h" demo_world) = Raise (EngineError "CUDA out of memory") ∧
    last (calls (snd (process_job "/app" demo_env_failing "/up/a.mp3" "/up/v.mp4"
                        "/app/outputs" None "h" demo_world))) = Some c.
Proof.
  assert (∃ c, last (calls (snd (process_job "/app" demo_env_failing "/up/a.mp3"
                                    "/up/v.mp4" "/app/outputs" None "h" demo_world)))
               = Some c) as [c Hl].
  { vm_compute. eauto. }
  exists c.
  apply (failed_engine_ends_job "/app" demo_env_failing "/up/a.mp3" "/up/v.mp4"
           "/app/outputs" None "h" demo_world _ _ c (EngineError "CUDA out of memory")).
  - exact I.
  - apply surjective_pairing.
  - vm_compute in Hl. injection Hl as <-. vm_compute. apply list_elem_of_here.
  - vm_compute in Hl. injection Hl as <-. reflexivity.
Defined.


Lemma job_progress_values_witness :
  let w := world (run "/app" demo_env demo_system [CreateJob 1 "/up/a.mp3" "/up/v.mp4"]) in
  ∃ w' block fin n,
    worker_iteration "/app" demo_env 1 w = (Ok tt, w') ∧
    commits w' = commits w ++ block ∧ last block = Some fin ∧
    job_progress <$> block = 5 :: take n milestones ++ [job_progress fin] ∧
    (job_status fin = "done" ∧ job_progress fin = 100 ∧ n = 6%nat ∨
     job_status fin = "error" ∧ job_progress fin = 0 ∧ (n < 6)%nat).
Proof.
  intros w.
  assert (∃ job, jobs w !! 1%nat = Some job) as [job Hjob].
  { vm_compute. eauto. }
  apply (job_progress_values "/app" demo_env 1 w job Hjob).
  vm_compute. discriminate.
Defined.

Lemma queue_matches_rows_witness :
  let s := run "/app" demo_env demo_system demo_acts_two in
  unfinished_tasks (world s) = Z.of_nat (length (JOB_QUEUE (world s))) ∧
  NoDup (JOB_QUEUE (world s)) ∧
  ∀ k j, jobs (world s) !! k = Some j → history k (commits (world s)) ≠ [] →
    (k ∈ JOB_QUEUE (world s) ↔ job_status j = "queued").
Proof.
  apply (queue_matches_rows "/app" demo_env demo_system demo_acts_two).
  by repeat split.
Defined.

Lemma row_outside_queue_is_final_witness :
  ∃ j,
    jobs (world (run "/app" demo_env demo_system demo_acts)) !! 1%nat = Some j ∧
    jobs (world (run "/app" demo_env demo_system
                   (demo_acts ++ [CreateJob 1 "/up/a.mp3" "/up/v.mp4"; Work])))
      !! 1%nat = Some j.
Proof.
  assert (∃ j, jobs (world (run "/app" demo_env demo_system demo_acts)) !! 1%nat = Some j)
    as [j Hj].
  { vm_compute. eauto. }
  exists j. split; [exact Hj|].
  apply (row_outside_queue_is_final "/app" demo_env demo_system demo_acts
           [CreateJob 1 "/up/a.mp3" "/up/v.mp4"; Work] 1 j).
  - by repeat split.
  - exact Hj.
  - vm_compute. apply not_elem_of_nil.
Defined.

Lemma vanished_row_stops_worker_witness :
  let s' := run "/app" demo_env (step "/app" demo_env demo_system_vanished Work)
                [CreateJob 1 "/up/a.mp3" "/up/v.mp4"; Work] in
  worker_alive (step "/app" demo_env demo_system_vanished Work) = false ∧
  worker_alive s' = false ∧
  worker_log (commits (world s')) = worker_log (commits (world demo_system_vanished)).
Proof.
  apply (vanished_row_stops_worker "/app" demo_env demo_system_vanished 7
           [CreateJob 1 "/up/a.mp3" "/up/v.mp4"; Work]).
  - reflexivity.
  - reflexivity.
  - reflexivity.
  - reflexivity.
Defined.

Lemma media_rows_match_done_jobs_witness :
  let s := run "/app" demo_env demo_system demo_acts_two in
  ∃ new, medias (world s) = medias (world demo_system) ++ new ∧
         Forall2 media_of new (done_log (commits (world s))).
Proof.
  apply (media_rows_match_done_jobs "/app" demo_env demo_system demo_acts_two).
  by repeat split.
Defined.

Lemma enqueue_job_rejects_duplicate_uuid_witness :
  let w := world (run "/app" demo_env_same_uuid demo_system
                    [CreateJob 1 "/up/a.mp3" "/up/v.mp4"]) in
  ∃ w', enqueue_job demo_env_same_uuid 1 "/up/a.mp3" "/up/v.mp4" w =
          (Raise (IntegrityError "UNIQUE constraint failed: jobs.uuid"), w') ∧
        db_part w' = db_part w.
Proof.
  intros w.
  assert (∃ j, jobs w !! 1%nat = Some j ∧ job_uuid j = "deadbeef") as (j & Hj & Hu).
  { vm_compute. eauto. }
  apply (enqueue_job_rejects_duplicate_uuid demo_env_same_uuid 1 "/up/a.mp3" "/up/v.mp4"
           w 1 j Hj).
  rewrite Hu. vm_compute. reflexivity.
Defined.

Lemma enqueue_job_creates_queued_row_witness :
  ∃ w' id,
    enqueue_job demo_env 1 "/up/a.mp3" "/up/v.mp4" demo_world = (Ok id, w') ∧
    (∀ k, is_Some (jobs demo_world !! k) → (k < id)%nat) ∧
    jobs w' =
      <[id := mkJob id (String.substring 0 8 (env_uuid4 demo_env (tick demo_world)))
                    1 "/up/a.mp3" "/up/v.mp4" None
                    "queued" 0 "در صف انتظار..." None
                    (env_now demo_env (S (tick demo_world)))
                    (env_now demo_env (S (S (tick demo_world))))]>
        (jobs demo_world) ∧
    JOB_QUEUE w' = JOB_QUEUE demo_world ++ [id] ∧
    unfinished_tasks w' = unfinished_tasks demo_world + 1.
Proof.
  apply (enqueue_job_creates_queued_row demo_env 1 "/up/a.mp3" "/up/v.mp4" demo_world).
  intros k j Hj. unfold demo_world in Hj. cbn [jobs] in Hj. by rewrite lookup_empty in Hj.
Defined.


Lemma _save_upload_unsanitized_witness :
  "/app/motion.py" = filename demo_absolute_upload ∧
  files (snd (_save_upload "/app" (Some demo_absolute_upload) "project_1" demo_world))
    !! filename demo_absolute_upload = Some (stream demo_absolute_upload).
Proof.
  apply (_save_upload_unsanitized "/app" demo_absolute_upload "project_1" demo_world
           "/app/motion.py"
           (snd (_save_upload "/app" (Some demo_absolute_upload) "project_1" demo_world))).
  - reflexivity.
  - vm_compute. reflexivity.
Defined.

Lemma projects_list_requires_both_files_witness :
  ∃ message,
    projects_list "/app" demo_env demo_newest_first demo_request_no_video demo_site =
    (Ok (Redirect "projects_list" []),
     mkSite (site_world demo_site) (projects demo_site)
            (flashes demo_site ++ [(message, "error")])).
Proof.
  apply (projects_list_requires_both_files "/app" demo_env demo_newest_first
           demo_request_no_video demo_site).
  - reflexivity.
  - right. reflexivity.
Defined.


Lemma same_file_name_loses_audio_witness :
  let r := projects_list "/app" demo_env demo_newest_first demo_request_same_name
                         demo_site in
  ∃ pid p,
    Redirect "project_detail" [("project_id", 1%nat)]
      = Redirect "project_detail" [("project_id", pid)] ∧
    projects (snd r) !! pid = Some p ∧
    prj_audio_path p = prj_video_path p ∧
    files (site_world (snd r)) !! prj_audio_path p = Some [Byte.x00; Byte.x01].
Proof.
  intros r.
  apply (same_file_name_loses_audio "/app" demo_env demo_newest_first
           demo_request_same_name demo_site
           (mkFileStorage "take.mp4" demo_audio)
           (mkFileStorage "take.mp4" [Byte.x00; Byte.x01])).
  - reflexivity.
  - reflexivity.
  - reflexivity.
  - discriminate.
  - reflexivity.
  - vm_compute. reflexivity.
Defined.

Lemma failed_enqueue_leaves_project_witness :
  let s := snd (projects_list "/app" demo_env_same_uuid demo_newest_first demo_request
                              demo_site) in
  let r := projects_list "/app" demo_env_same_uuid demo_newest_first demo_request s in
  ∃ p,
    projects s !! prj_id p = None ∧ projects (snd r) = <[prj_id p := p]> (projects s) ∧
    db_part (site_world (snd r)) = db_part (site_world s) ∧
    files (site_world (snd r)) !! prj_video_path p = Some (stream demo_video_upload) ∧
    flashes (snd r) = flashes s.
Proof.
  intros s r.
  apply (failed_enqueue_leaves_project "/app" demo_env_same_uuid demo_newest_first
           demo_request s demo_audio_upload demo_video_upload
           "UNIQUE constraint failed: jobs.uuid").
  - reflexivity.
  - reflexivity.
  - reflexivity.
  - discriminate.
  - discriminate.
  - vm_compute. reflexivity.
Defined.

Lemma project_new_job_uses_project_paths_witness :
  let s := snd (projects_list "/app" demo_env demo_newest_first demo_request demo_site) in
  let r := project_new_job demo_env 1 s in
  projects (snd r) = projects s ∧
  match projects s !! 1%nat with
  | None =>
      Redirect "jobs_detail" [("job_id", 2%nat)] = Redirect "projects_list" [] ∧
      site_world (snd r) = site_world s ∧
      flashes (snd r) = flashes s ++ [("پروژه پیدا نشد.", "error")]
  | Some p =>
      ∃ j,
        Redirect "jobs_detail" [("job_id", 2%nat)]
          = Redirect "jobs_detail" [("job_id", job_id j)] ∧
        jobs (site_world s) !! job_id j = None ∧
        jobs (site_world (snd r)) = <[job_id j := j]> (jobs (site_world s)) ∧
        JOB_QUEUE (site_world (snd r)) = JOB_QUEUE (site_world s) ++ [job_id j] ∧
        queued_row j ∧ job_project_id j = prj_id p ∧
        job_audio_path j = prj_audio_path p ∧ job_video_path j = prj_video_path p
  end.
Proof.
  intros s r.
  apply (project_new_job_uses_project_paths demo_env 1 s
           (Redirect "jobs_detail" [("job_id", 2%nat)]) (snd r)).
  vm_compute. reflexivity.
Defined.

Lemma served_rows_consistent_witness :
  let a := serve_all "/app" demo_env demo_newest_first demo_application
             [Visit (To_projects_list demo_request); Turn;
              Visit (To_project_new_job 1); Visit (To_jobs_status_json 2); Turn] in
  worker a = true ∧
  ∀ k j, jobs (site_world (site a)) !! k = Some j → job_id j = k ∧ row_consistent j.
Proof.
  apply (served_rows_consistent "/app" demo_env demo_newest_first demo_application).
  split; [by repeat split|]. intros k p Hp. unfold demo_application, demo_site in Hp. cbn [site projects] in Hp.
    by rewrite lookup_empty in Hp.
Defined.

Lemma jobs_belong_to_projects_witness :
  let a := serve_all "/app" demo_env demo_newest_first demo_application
             [Visit (To_projects_list demo_request); Turn] in
  ∃ j, jobs (site_world (site a)) !! 1%nat = Some j ∧
       is_Some (projects (site a) !! job_project_id j).
Proof.
  intros a.
  assert (∃ j, jobs (site_world (site a)) !! 1%nat = Some j) as [j Hj].
  { vm_compute. eauto. }
  exists j. split; [exact Hj|].
  apply (jobs_belong_to_projects "/app" demo_env demo_newest_first demo_application
           [Visit (To_projects_list demo_request); Turn] 1 j).
  - split; [by repeat split|]. intros k p Hp. unfold demo_application, demo_site in Hp. cbn [site projects] in Hp.
    by rewrite lookup_empty in Hp.
  - exact Hj.
  - vm_compute. discriminate.
Defined.



Lemma no_beats_no_pulses_witness :
  Forall no_pulse (construct (extract_segments (Some demo_whisper)) None).
Proof.
  apply (no_beats_no_pulses (extract_segments (Some demo_whisper)) None).
  reflexivity.
Defined.
